(** * NppCppMSVS: the Unicode transcoding helpers and the chunked codec adapter

    A shallow embedding of [src/Framework/UnicodeFormatTranslation.h] and of
    [fromWide] / [toWide] from [src/Framework/UtilityFrameworkMIT.h], with the
    properties the specification states about them.

    Data model.  The headers are written for Visual C++ on Windows:
    [wchar_t] is an unsigned 16-bit unit, [char32_t] an unsigned 32-bit unit,
    [int] has 32 bits, and plain [char] is a signed 8-bit integer.  The
    signedness of [char] is the one implementation-defined point the code is
    sensitive to (the source itself switches to [unsigned char] in [badPair]),
    so it is kept as a field of the class [Platform]; [MSVC] is the platform
    the project is built for.

    A [char] is stored as its eight bits (a [Z] in 0..255); [int_of_char] is
    the integral promotion that every arithmetic or comparison on a [char]
    goes through, [to_char], [to_wchar] and [to_char32] are the narrowing
    conversions ([static_cast] or implicit). *)

From Stdlib Require Import ZArith List Bool Lia.
Import ListNotations.
Local Open Scope Z_scope.

(** ** Platform and integer conversions *)

Class Platform : Set := { char_signed : bool }.

(** Visual C++ with its default settings: [char] is signed. *)
Definition MSVC : Platform := {| char_signed := true |}.

(** The same compiler with [/J], or any ABI whose [char] is unsigned. *)
Definition UnsignedChar : Platform := {| char_signed := false |}.

Definition char := Z.
Definition wchar_t := Z.
Definition char32_t := Z.

Definition is_char (c : Z) : Prop := 0 <= c < 0x100.
Definition is_wchar (c : Z) : Prop := 0 <= c < 0x10000.
Definition is_char32 (c : Z) : Prop := 0 <= c < 0x100000000.

(** Integral promotion of a [char] to [int]. *)
Definition int_of_char {P : Platform} (c : char) : Z :=
  if char_signed && (0x80 <=? c) then c - 0x100 else c.

(** Conversion of a [char] argument to an [unsigned char] parameter. *)
Definition uchar_of_char {P : Platform} (c : char) : Z :=
  int_of_char c mod 0x100.

Definition to_char (x : Z) : char := x mod 0x100.
Definition to_wchar (x : Z) : wchar_t := x mod 0x10000.
Definition to_char32 (x : Z) : char32_t := x mod 0x100000000.

Inductive InvalidUnicode : Set :=
| Substitute
| Preserve_8
| Preserve_16.

Definition InvalidUnicode_eqb (a b : InvalidUnicode) : bool :=
  match a, b with
  | Substitute, Substitute | Preserve_8, Preserve_8
  | Preserve_16, Preserve_16 => true
  | _, _ => false
  end.

(** ** [namespace utf8byte] *)

Module utf8byte.
Section Classifier.
Context {P : Platform}.

Definition isASCII (c : char) : bool :=
  Z.land (int_of_char c) 0x80 =? 0x00.

Definition isTrail (c : char) : bool :=
  Z.land (int_of_char c) 0xC0 =? 0x80.

Definition isLead2 (c : char) : bool :=
  (Z.land (int_of_char c) 0xE0 =? 0xC0)
  && negb (Z.land (int_of_char c) 0xFE =? 0xC0).

Definition isLead3 (c : char) : bool :=
  Z.land (int_of_char c) 0xF0 =? 0xE0.

Definition isLead4 (c : char) : bool :=
  (Z.land (int_of_char c) 0xFC =? 0xF0) || (int_of_char c =? 0xF4).

Definition isTrash (c : char) : bool :=
  (Z.land (int_of_char c) 0xFE =? 0xC0)
  || ((Z.land (int_of_char c) 0xF0 =? 0xF0)
      && negb (Z.land (int_of_char c) 0x0C =? 0x00)
      && negb (int_of_char c =? 0xF4)).

(** [badPair] takes [unsigned char] parameters. *)
Definition badPair (c1 c2 : Z) : bool :=
  ((c1 =? 0xE0) && (c2 <? 0xA0))
  || ((c1 =? 0xED) && (0x9F <? c2))
  || ((c1 =? 0xF0) && (c2 <? 0x90))
  || ((c1 =? 0xF4) && (0x8F <? c2)).

Definition implicit_length (c : char) : nat :=
  if isASCII c then 1
  else if isLead2 c then 2
  else if isLead3 c then 3
  else if isLead4 c then 4
  else 0.

(** The two overloads of [valid_trail] and the three of [to32]. *)
Definition valid_trail_3 (c1 c2 c3 : char) : bool :=
  negb (badPair (uchar_of_char c1) (uchar_of_char c2))
  && isTrail c2 && isTrail c3.

Definition valid_trail_4 (c1 c2 c3 c4 : char) : bool :=
  negb (badPair (uchar_of_char c1) (uchar_of_char c2))
  && isTrail c2 && isTrail c3 && isTrail c4.

Definition to32_2 (c1 c2 : char) : char32_t :=
  to_char32 (Z.lor (Z.shiftl (Z.land (int_of_char c1) 0x1F) 6)
                   (Z.land (int_of_char c2) 0x3F)).

Definition to32_3 (c1 c2 c3 : char) : char32_t :=
  to_char32 (Z.lor (Z.lor (Z.shiftl (Z.land (int_of_char c1) 0x0F) 12)
                          (Z.shiftl (Z.land (int_of_char c2) 0x3F) 6))
                   (Z.land (int_of_char c3) 0x3F)).

Definition to32_4 (c1 c2 c3 c4 : char) : char32_t :=
  to_char32 (Z.lor (Z.lor (Z.lor (Z.shiftl (Z.land (int_of_char c1) 0x07) 18)
                                 (Z.shiftl (Z.land (int_of_char c2) 0x3F) 12))
                          (Z.shiftl (Z.land (int_of_char c3) 0x3F) 6))
                   (Z.land (int_of_char c4) 0x3F)).
End Classifier.
End utf8byte.

(** ** The six converters

    The loops run over an index [i]; in the embedding the list argument of
    each recursive function is the part of the view that is still unread,
    [s[i..]].  So [s[i + k]] is its k-th element, [i + k >= s.length()] says
    that it has at most [k] elements, and a recursive call on the tail after
    [k + 1] elements is [i += k] followed by the loop's [++i]. *)

Fixpoint utf16to32 (w : list wchar_t) : list char32_t :=
  match w with
  | [] => []
  | c :: w1 =>
    match w1 with
    | d :: w2 =>
      if (0xD800 <=? c) && (c <? 0xDC00) && (0xDC00 <=? d) && (d <=? 0xDFFF)
      then to_char32 (Z.lor (to_char32 (Z.shiftl (Z.land c 0x7FF) 10))
                            (Z.land d 0x03FF) + 0x10000)
           :: utf16to32 w2
      else c :: utf16to32 w1
    | [] => c :: utf16to32 w1
    end
  end.

Fixpoint utf32to16 (u : list char32_t) : list wchar_t :=
  match u with
  | [] => []
  | c :: u1 =>
    if 0x10000 <=? c
    then to_wchar (0xD800 + Z.shiftr (to_char32 (c - 0x10000)) 10)
         :: to_wchar (0xDC00 + Z.land c 0x03FF)
         :: utf32to16 u1
    else to_wchar c :: utf32to16 u1
  end.

(** Subscripting a view at or past its length is undefined behaviour in
    C++: a converter that does so has no result, [None].  [emit x r] is
    [u += x] followed by the rest of the loop, [r]. *)
Definition emit {A : Type} (x : A) (r : option (list A)) : option (list A) :=
  option_map (cons x) r.

Section Decoders.
Context {P : Platform}.
Import utf8byte.

(** The statement after the [switch]: what an invalid unit turns into. *)
Definition invalid_unit (errs : InvalidUnicode) (c : char) : Z :=
  if InvalidUnicode_eqb errs Preserve_8 then 0xDC00 + int_of_char c
  else 0xFFFD.

(** The guard of the second [if] of [case 3], shared by both decoders. *)
Definition rejects_pair (errs : InvalidUnicode) (c1 c2 : char) : bool :=
  (negb (InvalidUnicode_eqb errs Preserve_16)
   || negb (int_of_char c1 =? 0xED))
  && badPair (uchar_of_char c1) (uchar_of_char c2).

(** In [case 4] the condition of the [if] is a comma expression: its left
    operand [i + 3 >= s.length() || !valid_trail(s[i], s[i+1], s[i+2])]
    is evaluated and dropped, and the value tested is [s[i + 3]], read
    whether or not [i + 3] is inside the view. *)
Fixpoint utf8to32 (s : list char) (errs : InvalidUnicode)
  : option (list char32_t) :=
  match s with
  | [] => Some []
  | c1 :: s1 =>
    match implicit_length c1 with
    | 1%nat => emit (to_char32 (int_of_char c1)) (utf8to32 s1 errs)
    | 2%nat =>
      match s1 with
      | c2 :: s2 =>
        if negb (isTrail c2)
        then emit (to_char32 (invalid_unit errs c1)) (utf8to32 s1 errs)
        else emit (to32_2 c1 c2) (utf8to32 s2 errs)
      | [] => emit (to_char32 (invalid_unit errs c1)) (utf8to32 s1 errs)
      end
    | 3%nat =>
      match s1 with
      | c2 :: c3 :: s3 =>
        if negb (isTrail c2) || negb (isTrail c3)
        then emit (to_char32 (invalid_unit errs c1)) (utf8to32 s1 errs)
        else if rejects_pair errs c1 c2
        then emit (to_char32 (invalid_unit errs c1)) (utf8to32 s1 errs)
        else emit (to_wchar (to32_3 c1 c2 c3)) (utf8to32 s3 errs)
      | _ => emit (to_char32 (invalid_unit errs c1)) (utf8to32 s1 errs)
      end
    | 4%nat =>
      match s1 with
      | c2 :: c3 :: c4 :: s4 =>
        if negb (int_of_char c4 =? 0)
        then emit (to_char32 (invalid_unit errs c1)) (utf8to32 s1 errs)
        else emit (to32_3 c1 c2 c3) (utf8to32 s4 errs)
      | _ => None
      end
    | _ => emit (to_char32 (invalid_unit errs c1)) (utf8to32 s1 errs)
    end
  end.

Fixpoint utf8to16 (s : list char) (errs : InvalidUnicode) : list wchar_t :=
  match s with
  | [] => []
  | c1 :: s1 =>
    match implicit_length c1 with
    | 1%nat => to_wchar (int_of_char c1) :: utf8to16 s1 errs
    | 2%nat =>
      match s1 with
      | c2 :: s2 =>
        if negb (isTrail c2)
        then to_wchar (invalid_unit errs c1) :: utf8to16 s1 errs
        else to_wchar (to32_2 c1 c2) :: utf8to16 s2 errs
      | [] => to_wchar (invalid_unit errs c1) :: utf8to16 s1 errs
      end
    | 3%nat =>
      match s1 with
      | c2 :: c3 :: s3 =>
        if negb (isTrail c2) || negb (isTrail c3)
        then to_wchar (invalid_unit errs c1) :: utf8to16 s1 errs
        else if rejects_pair errs c1 c2
        then to_wchar (invalid_unit errs c1) :: utf8to16 s1 errs
        else to_wchar (to32_3 c1 c2 c3) :: utf8to16 s3 errs
      | _ => to_wchar (invalid_unit errs c1) :: utf8to16 s1 errs
      end
    | 4%nat =>
      match s1 with
      | c2 :: c3 :: c4 :: s4 =>
        if negb (valid_trail_4 c1 c2 c3 c4)
        then to_wchar (invalid_unit errs c1) :: utf8to16 s1 errs
        else
          let u := to32_4 c1 c2 c3 c4 in
          to_wchar (0xD800 + Z.shiftr (to_char32 (u - 0x10000)) 10)
          :: to_wchar (0xDC00 + Z.land u 0x03FF)
          :: utf8to16 s4 errs
      | _ => to_wchar (invalid_unit errs c1) :: utf8to16 s1 errs
      end
    | _ => to_wchar (invalid_unit errs c1) :: utf8to16 s1 errs
    end
  end.
End Decoders.

(** The string literal ["\xEF\xBF\xBD"]: U+FFFD in UTF-8. *)
Definition replacement_utf8 : list char := [0xEF; 0xBF; 0xBD].

Definition encode_1 (c : Z) : list char := [to_char c].

Definition encode_2 (c : Z) : list char :=
  [to_char (Z.lor (Z.shiftr c 6) 0xC0);
   to_char (Z.lor (Z.land c 0x3F) 0x80)].

Definition encode_3 (c : Z) : list char :=
  [to_char (Z.lor (Z.shiftr c 12) 0xE0);
   to_char (Z.lor (Z.land (Z.shiftr c 6) 0x3F) 0x80);
   to_char (Z.lor (Z.land c 0x3F) 0x80)].

Definition encode_4 (c : Z) : list char :=
  [to_char (Z.lor (Z.shiftr c 18) 0xF0);
   to_char (Z.lor (Z.land (Z.shiftr c 12) 0x3F) 0x80);
   to_char (Z.lor (Z.land (Z.shiftr c 6) 0x3F) 0x80);
   to_char (Z.lor (Z.land c 0x3F) 0x80)].

(** The body of the range-[for] of [utf32to8]. *)
Definition utf32to8_unit (errs : InvalidUnicode) (c : char32_t) : list char :=
  if c <? 0x80 then encode_1 c
  else if c <? 0x800 then encode_2 c
  else if (0xD800 <=? c) && (c <=? 0xDFFF)
          && negb (InvalidUnicode_eqb errs Preserve_16)
  then if InvalidUnicode_eqb errs Preserve_8
          && ((0xDC80 <=? c) && (c <=? 0xDCFF))
       then [to_char (Z.land 0xFF c)]
       else replacement_utf8
  else if c <=? 0x10000 then encode_3 c
  else if c <=? 0x110000 then encode_4 c
  else replacement_utf8.

Fixpoint utf32to8 (u : list char32_t) (errs : InvalidUnicode) : list char :=
  match u with
  | [] => []
  | c :: u1 => utf32to8_unit errs c ++ utf32to8 u1 errs
  end.

(** The last [else] of [utf16to8] when no low surrogate follows. *)
Definition utf16to8_lone (errs : InvalidUnicode) (c : wchar_t) : list char :=
  if InvalidUnicode_eqb errs Preserve_8 && ((0xDC80 <=? c) && (c <=? 0xDCFF))
  then [to_char (Z.land 0xFF c)]
  else if InvalidUnicode_eqb errs Preserve_16
  then [to_char 0xED;
        to_char (Z.lor (Z.land (Z.shiftr c 6) 0x3F) 0x80);
        to_char (Z.lor (Z.land c 0x3F) 0x80)]
  else replacement_utf8.

Fixpoint utf16to8 (w : list wchar_t) (errs : InvalidUnicode) : list char :=
  match w with
  | [] => []
  | c :: w1 =>
    if c <? 0x80 then encode_1 c ++ utf16to8 w1 errs
    else if c <? 0x800 then encode_2 c ++ utf16to8 w1 errs
    else if (c <? 0xD800) && (0xDFFF <? c) then encode_3 c ++ utf16to8 w1 errs
    else
      match w1 with
      | d :: w2 =>
        if (0xDC00 <=? d) && (d <=? 0xDFFF)
        then
          let u := to_char32 (Z.lor (to_char32 (Z.shiftl (Z.land c 0x7FF) 10))
                                    (Z.land d 0x03FF) + 0x10000) in
          encode_4 u ++ utf16to8 w2 errs
        else utf16to8_lone errs c ++ utf16to8 w1 errs
      | [] => utf16to8_lone errs c ++ utf16to8 w1 errs
      end
  end.

(** The two round trips of the specification, 8 -> 32 -> 8 and 8 -> 16 -> 8. *)
Definition round_trip_32 {P : Platform} (p : InvalidUnicode) (s : list char)
  : option (list char) :=
  option_map (fun u => utf32to8 u p) (utf8to32 s p).

Definition round_trip_16 {P : Platform} (p : InvalidUnicode) (s : list char)
  : list char :=
  utf16to8 (utf8to16 s p) p.

(** ** The chunked adapter: [fromWide] and [toWide]

    [safeSize] is [std::numeric_limits<int>::max() / 8] in [fromWide] and
    [... / 2] in [toWide]; the loops are embedded for any value of it.  The
    Windows codec is external: [WideCharToMultiByte cp seg] stands for the
    bytes the API produces for the segment [seg] (the source calls it twice
    per segment, first for the size and then for the bytes).  Besides the
    result [r] the embedding records the segments handed to the codec, in
    order.  The loops are bounded by the input length: every round that
    terminates normally moves [workingPoint] forward, unless [ss] reaches
    0, in which case the source does not terminate and the embedding runs
    out of rounds ([None]).  [None] is also the result of an out-of-range
    subscript. *)

Definition subscript {A : Type} (s : list A) (i : Z) : option A :=
  if i <? 0 then None else nth_error s (Z.to_nat i).

(** [s.data() + workingPoint] with a length of [n] units. *)
Definition segment {A : Type} (s : list A) (workingPoint n : Z) : list A :=
  firstn (Z.to_nat n) (skipn (Z.to_nat workingPoint) s).

Definition CP_UTF8 : Z := 65001.

Section ChunkedAdapter.
Context {P : Platform}.
Variable safeSize : Z.
Variable WideCharToMultiByte : Z -> list wchar_t -> list char.
Variable MultiByteToWideChar : Z -> list char -> list wchar_t.

Fixpoint fromWide_loop (rounds : nat) (s : list wchar_t) (codepage : Z)
         (workingPoint : Z) (r : list char) (calls : list (list wchar_t))
  : option (list char * list (list wchar_t)) :=
  let inputLength := Z.of_nat (length s) in
  if safeSize <? inputLength - workingPoint then
    match rounds with
    | O => None
    | S rounds' =>
      match subscript s (safeSize - 1) with
      | None => None
      | Some last =>
        let ss :=
          if (0xD800 <=? last) && (last <=? 0xDBFF) then safeSize - 1
          else safeSize in
        let seg := segment s workingPoint ss in
        fromWide_loop rounds' s codepage (workingPoint + ss)
                      (r ++ WideCharToMultiByte codepage seg)
                      (calls ++ [seg])
      end
    end
  else
    let seg := segment s workingPoint (inputLength - workingPoint) in
    Some (r ++ WideCharToMultiByte codepage seg, calls ++ [seg]).

Definition fromWide_run (s : list wchar_t) (codepage : Z)
  : option (list char * list (list wchar_t)) :=
  if (length s =? 0)%nat then Some ([], [])
  else fromWide_loop (length s) s codepage 0 [] [].

Definition fromWide (s : list wchar_t) (codepage : Z) : option (list char) :=
  option_map fst (fromWide_run s codepage).

(** The segments [fromWide] hands to the codec. *)
Definition fromWide_calls (s : list wchar_t) (codepage : Z)
  : option (list (list wchar_t)) :=
  option_map snd (fromWide_run s codepage).

(** [while ((s[--ss] & 0xC0) == 0x80);] started with [ss = n]. *)
Fixpoint first_byte_before (s : list char) (n : nat) : option Z :=
  match n with
  | O => None
  | S m =>
    match nth_error s m with
    | None => None
    | Some c =>
      if Z.land (int_of_char c) 0xC0 =? 0x80 then first_byte_before s m
      else Some (Z.of_nat m)
    end
  end.

Definition toWide_ss (s : list char) (codepage : Z) : option Z :=
  if codepage =? CP_UTF8 then
    match subscript s safeSize with
    | None => None
    | Some c =>
      if Z.land (int_of_char c) 0xC0 =? 0x80
      then first_byte_before s (Z.to_nat safeSize)
      else Some safeSize
    end
  else Some safeSize.

Fixpoint toWide_loop (rounds : nat) (s : list char) (codepage : Z)
         (workingPoint : Z) (r : list wchar_t) (calls : list (list char))
  : option (list wchar_t * list (list char)) :=
  let inputLength := Z.of_nat (length s) in
  if safeSize <? inputLength - workingPoint then
    match rounds with
    | O => None
    | S rounds' =>
      match toWide_ss s codepage with
      | None => None
      | Some ss =>
        let seg := segment s workingPoint ss in
        toWide_loop rounds' s codepage (workingPoint + ss)
                    (r ++ MultiByteToWideChar codepage seg)
                    (calls ++ [seg])
      end
    end
  else
    let seg := segment s workingPoint (inputLength - workingPoint) in
    Some (r ++ MultiByteToWideChar codepage seg, calls ++ [seg]).

Definition toWide_run (s : list char) (codepage : Z)
  : option (list wchar_t * list (list char)) :=
  if (length s =? 0)%nat then Some ([], [])
  else toWide_loop (length s) s codepage 0 [] [].

Definition toWide (s : list char) (codepage : Z) : option (list wchar_t) :=
  option_map fst (toWide_run s codepage).

Definition toWide_calls (s : list char) (codepage : Z)
  : option (list (list char)) :=
  option_map snd (toWide_run s codepage).
End ChunkedAdapter.

(** ** Vocabulary of the specification *)

Definition is_high_surrogate (c : Z) : bool := (0xD800 <=? c) && (c <=? 0xDBFF).
Definition is_low_surrogate (c : Z) : bool := (0xDC00 <=? c) && (c <=? 0xDFFF).
Definition is_surrogate (c : Z) : bool := (0xD800 <=? c) && (c <=? 0xDFFF).

(** A Unicode scalar value. *)
Definition is_scalar (c : Z) : Prop :=
  0 <= c <= 0x10FFFF /\ ~ (0xD800 <= c <= 0xDFFF).

(** The width each byte declares, as the specification tabulates it. *)
Definition declared_width (b : Z) : nat :=
  if (0x00 <=? b) && (b <=? 0x7F) then 1
  else if (0xC2 <=? b) && (b <=? 0xDF) then 2
  else if (0xE0 <=? b) && (b <=? 0xEF) then 3
  else if (0xF0 <=? b) && (b <=? 0xF4) then 4
  else 0.

(** The standard, minimal-length UTF-8 encoding of a code point, written
    with division and remainder instead of shifts and masks. *)
Definition standard_utf8 (c : Z) : list Z :=
  if c <? 0x80 then [c]
  else if c <? 0x800 then [0xC0 + c / 0x40; 0x80 + c mod 0x40]
  else if c <? 0x10000
  then [0xE0 + c / 0x1000; 0x80 + (c / 0x40) mod 0x40; 0x80 + c mod 0x40]
  else [0xF0 + c / 0x40000; 0x80 + (c / 0x1000) mod 0x40;
        0x80 + (c / 0x40) mod 0x40; 0x80 + c mod 0x40].

Definition between (lo hi x : Z) : bool := (lo <=? x) && (x <=? hi).

(** Well-formed UTF-8 (the Unicode standard's table of byte ranges): the
    specification's valid 8-bit sequences. *)
Fixpoint well_formed_utf8 (s : list Z) : bool :=
  match s with
  | [] => true
  | b1 :: s1 =>
    if between 0x00 0x7F b1 then well_formed_utf8 s1
    else
      match s1 with
      | [] => false
      | b2 :: s2 =>
        if between 0xC2 0xDF b1
        then between 0x80 0xBF b2 && well_formed_utf8 s2
        else
          match s2 with
          | [] => false
          | b3 :: s3 =>
            if between 0xE0 0xEF b1
            then (if b1 =? 0xE0 then between 0xA0 0xBF b2
                  else if b1 =? 0xED then between 0x80 0x9F b2
                  else between 0x80 0xBF b2)
                 && between 0x80 0xBF b3 && well_formed_utf8 s3
            else
              match s3 with
              | [] => false
              | b4 :: s4 =>
                between 0xF0 0xF4 b1
                && (if b1 =? 0xF0 then between 0x90 0xBF b2
                    else if b1 =? 0xF4 then between 0x80 0x8F b2
                    else between 0x80 0xBF b2)
                && between 0x80 0xBF b3 && between 0x80 0xBF b4
                && well_formed_utf8 s4
              end
          end
      end
  end.

(** Every value a [char] can hold. *)
Definition all_chars : list Z := map Z.of_nat (seq 0 256).

(** Two well-formed samples: U+20AC in three bytes, U+1F600 in four. *)
Definition euro : list char := [0xE2; 0x82; 0xAC].
Definition grin : list char := [0xF0; 0x9F; 0x98; 0x80].

(** Inputs longer than twice the per-call limit [n], plain up to a
    two-unit character that straddles position [2 * n]: a surrogate pair
    for [fromWide], the two bytes of U+00E9 for [toWide]. *)
Definition pair_across_second_cut (n : nat) : list wchar_t :=
  repeat 0x41 n ++ (repeat 0x41 (n - 1) ++ [0xD83D]) ++ [0xDE00].

Definition utf8_across_second_cut (n : nat) : list char :=
  repeat 0x41 n ++ (repeat 0x41 (n - 1) ++ [0xC3]) ++ [0xA9].

(** Equality of converter results is decidable. *)
Definition option_list_eq_dec (x y : option (list Z)) : {x = y} + {x <> y}.
Proof. decide equality. apply (list_eq_dec Z.eq_dec). Defined.

(** ** Vocabulary for the further properties *)

(** The second byte a three-byte and a four-byte lead admit (the same
    ranges as in [well_formed_utf8]). *)
Definition pair3 (b1 b2 : Z) : bool :=
  if b1 =? 0xE0 then between 0xA0 0xBF b2
  else if b1 =? 0xED then between 0x80 0x9F b2
  else between 0x80 0xBF b2.

Definition pair4 (b1 b2 : Z) : bool :=
  if b1 =? 0xF0 then between 0x90 0xBF b2
  else if b1 =? 0xF4 then between 0x80 0x8F b2
  else between 0x80 0xBF b2.

(** A segment the external codec can take in one call of limit [L]. *)
Definition fits (L : Z) {A : Type} (seg : list A) : Prop :=
  1 <= Z.of_nat (length seg) <= L.

(** ** FileDialogBase: the filter string of [SetFileTypes] *)

Definition HRESULT := Z.

(** [std::wstring::npos], and subtraction of [size_t]. *)
Definition npos : Z := 2 ^ 64 - 1.
Definition size_t_sub (a b : Z) : Z := (a - b) mod 2 ^ 64.

Fixpoint find_at (c : wchar_t) (s : list wchar_t) : option nat :=
  match s with
  | [] => None
  | x :: s' => if x =? c then Some O
               else option_map S (find_at c s')
  end.

(** [s.find(L"|", pos)] for a one-character needle. *)
Definition wfind (s : list wchar_t) (c : wchar_t) (pos : Z) : Z :=
  if Z.of_nat (length s) <? pos then npos
  else match find_at c (skipn (Z.to_nat pos) s) with
       | Some i => pos + Z.of_nat i
       | None => npos
       end.

(** [s.substr(pos, n)]; [None] is [std::out_of_range]. *)
Definition wsubstr (s : list wchar_t) (pos n : Z) : option (list wchar_t) :=
  if Z.of_nat (length s) <? pos then None
  else Some (firstn (Z.to_nat (Z.min n (Z.of_nat (length s) - pos)))
                    (skipn (Z.to_nat pos) s)).

Definition BAR : wchar_t := 0x7C.

Definition INT_MAX : Z := 0x7FFFFFFF.

Inductive parsed : Type :=
| Parsed (fsName fsSpec : list (list wchar_t))
| Rejected
| OutOfRange
| Overflow
| NoMoreRounds.

(** The parsing loop.  The counter [count] is the length of [fsSpec]
    before each [push_back] of a spec; [++count] on an [int] that is
    [INT_MAX] is undefined, [Overflow]. *)
Fixpoint SetFileTypes_loop (rounds : nat) (types : list wchar_t) (p : Z)
         (fsName fsSpec : list (list wchar_t)) : parsed :=
  match rounds with
  | O => NoMoreRounds
  | S rounds' =>
    let q := wfind types BAR p in
    if (q =? npos) || (p =? q) then Rejected
    else
      match wsubstr types p (size_t_sub q p) with
      | None => OutOfRange
      | Some name =>
        let q := q + 1 in
        if q =? Z.of_nat (length types) then Rejected
        else
          let r := wfind types BAR q in
          if q =? r then Rejected
          else
            match wsubstr types q (size_t_sub r q) with
            | None => OutOfRange
            | Some spec =>
              if Z.of_nat (length fsSpec) =? INT_MAX then Overflow
              else if r =? npos
              then Parsed (fsName ++ [name]) (fsSpec ++ [spec])
              else SetFileTypes_loop rounds' types (r + 1)
                                     (fsName ++ [name]) (fsSpec ++ [spec])
            end
      end
  end.

Definition SetFileTypes_parse (types : list wchar_t) : parsed :=
  SetFileTypes_loop (S (length types)) types 0 [] [].

(** [FalseOnFail]: the result and the new [_lastResult]. *)
Definition FalseOnFail (hr : HRESULT) : bool * HRESULT := (hr =? 0, hr).

(** What a reader of the pointer [x.data()] sees, an [LPCWSTR]: the units
    of [x] before the first U+0000. *)
Fixpoint wstring_data (x : list wchar_t) : list wchar_t :=
  match x with
  | [] => []
  | c :: x' => if c =? 0 then [] else c :: wstring_data x'
  end.

(** [pszName] and [pszSpec], as the dialog reads them. *)
Definition COMDLG_FILTERSPEC : Type := (list wchar_t * list wchar_t)%type.

Definition filterspec (ns : list wchar_t * list wchar_t)
  : COMDLG_FILTERSPEC :=
  (wstring_data (fst ns), wstring_data (snd ns)).

(** [SetFileTypes]: [dialog_SetFileTypes] stands for the COM call, which
    receives the array [ft].  The result is the value returned, the new
    [_lastResult] and the arrays the COM call was made with, in order;
    [None] is an exception or undefined behaviour. *)
Definition SetFileTypes
           (dialog_SetFileTypes : list COMDLG_FILTERSPEC -> HRESULT)
           (types : list wchar_t)
  : option (bool * HRESULT * list (list COMDLG_FILTERSPEC)) :=
  match SetFileTypes_parse types with
  | Parsed fsName fsSpec =>
    let ft := map filterspec (combine fsName fsSpec) in
    Some (FalseOnFail (dialog_SetFileTypes ft), [ft])
  | Rejected => Some ((false, 1), [])
  | OutOfRange | Overflow | NoMoreRounds => None
  end.

(** The strings [SetFileTypes] is meant for: name|spec|name|spec... *)
Fixpoint filter_string (pairs : list (list wchar_t * list wchar_t))
  : list wchar_t :=
  match pairs with
  | [] => []
  | (n, s) :: rest =>
    match rest with
    | [] => n ++ BAR :: s
    | _ :: _ => n ++ BAR :: s ++ BAR :: filter_string rest
    end
  end.

Definition filter_part (x : list wchar_t) : Prop := x <> [] /\ ~ In BAR x.

Definition filter_pair (ns : list wchar_t * list wchar_t) : Prop :=
  filter_part (fst ns) /\ filter_part (snd ns).

(** Parts that hold no U+0000. *)
Definition nul_free_pair (ns : list wchar_t * list wchar_t) : Prop :=
  ~ In 0 (fst ns) /\ ~ In 0 (snd ns).

(** [ThrowOnFail]: [Some] is the new [_lastResult], [None] the
    [std::runtime_error] thrown for a negative [HRESULT]. *)
Definition ThrowOnFail (hr : HRESULT) : option HRESULT :=
  if 0 <=? hr then Some hr else None.

(** [Show]: [hr] is what [_dialog->Show(owner)] returned, stored in
    [_lastResult]; [ERROR_CANCELLED] is the constant of [winerror.h]. *)
Definition Show (ERROR_CANCELLED : Z) (hr : HRESULT) : option bool :=
  if (Z.land hr 0xFFFF =? ERROR_CANCELLED) || (0 <? hr) then Some false
  else match ThrowOnFail hr with
       | Some _ => Some true
       | None => None
       end.

(** * Properties *)

(** ** Integer conversions and bit patterns *)

Lemma all_chars_complete (b : Z) : is_char b -> In b all_chars.
Proof.
  intros [Hlo Hhi]. unfold all_chars.
  apply in_map_iff. exists (Z.to_nat b). split; [lia|].
  apply in_seq. lia.
Qed.

(** A boolean property of a [char] holds for all of them as soon as it holds
    on the 256 values. *)
Lemma forall_char (f : Z -> bool) :
  forallb f all_chars = true -> forall b, is_char b -> f b = true.
Proof.
  intros Hall b Hb. rewrite forallb_forall in Hall.
  apply Hall, all_chars_complete, Hb.
Qed.

(** The same for an equation between two functions of a byte with the high
    bit set, over a type with decidable equality. *)
Lemma on_high_chars {A : Type} (f g : Z -> A)
      (dec : forall x y : A, {x = y} + {x <> y}) :
  forallb (fun b => negb (0x80 <=? b) || (if dec (f b) (g b) then true else false))
          all_chars = true ->
  forall b, is_char b -> 0x80 <= b < 0x100 -> f b = g b.
Proof.
  intros Hall b Hc Hb.
  pose proof (forall_char _ Hall b Hc) as H. cbv beta in H.
  destruct (Z.leb_spec 0x80 b); [|lia].
  simpl in H. destruct (dec (f b) (g b)); [assumption|discriminate].
Qed.

Lemma to_char_small (x : Z) : 0 <= x < 0x100 -> to_char x = x.
Proof. intros H. unfold to_char. apply Z.mod_small, H. Qed.

Lemma to_wchar_small (x : Z) : 0 <= x < 0x10000 -> to_wchar x = x.
Proof. intros H. unfold to_wchar. apply Z.mod_small, H. Qed.

Lemma to_char32_small (x : Z) : 0 <= x < 0x100000000 -> to_char32 x = x.
Proof. intros H. unfold to_char32. apply Z.mod_small, H. Qed.

Lemma land_3F (c : Z) : Z.land c 0x3F = c mod 0x40.
Proof. change 0x3F with (Z.ones 6). now rewrite Z.land_ones by lia. Qed.

Lemma land_3FF (c : Z) : Z.land c 0x03FF = c mod 0x400.
Proof. change 0x03FF with (Z.ones 10). now rewrite Z.land_ones by lia. Qed.

Lemma shiftr_6 (c : Z) : Z.shiftr c 6 = c / 0x40.
Proof. now rewrite Z.shiftr_div_pow2 by lia. Qed.

Lemma shiftr_10 (c : Z) : Z.shiftr c 10 = c / 0x400.
Proof. now rewrite Z.shiftr_div_pow2 by lia. Qed.

Lemma shiftr_12 (c : Z) : Z.shiftr c 12 = c / 0x1000.
Proof. now rewrite Z.shiftr_div_pow2 by lia. Qed.

Lemma shiftr_18 (c : Z) : Z.shiftr c 18 = c / 0x40000.
Proof. now rewrite Z.shiftr_div_pow2 by lia. Qed.

(** Setting a tag over payload bits that lie below it is an addition. *)
Lemma lor_tag (tag room x : Z) :
  forallb (fun y => negb (y <? room) || (Z.lor y tag =? tag + y)) all_chars
  = true ->
  room <= 0x100 -> 0 <= x < room -> Z.lor x tag = tag + x.
Proof.
  intros Hall Hroom Hx.
  assert (Hb : is_char x) by (unfold is_char; lia).
  pose proof (forall_char _ Hall x Hb) as H. cbv beta in H.
  destruct (Z.ltb_spec x room) as [_|Hge]; [|lia].
  simpl in H. now apply Z.eqb_eq in H.
Qed.

Lemma lor_80 (x : Z) : 0 <= x < 0x40 -> Z.lor x 0x80 = 0x80 + x.
Proof. apply lor_tag; [vm_compute; reflexivity | lia]. Qed.

Lemma lor_C0 (x : Z) : 0 <= x < 0x20 -> Z.lor x 0xC0 = 0xC0 + x.
Proof. apply lor_tag; [vm_compute; reflexivity | lia]. Qed.

Lemma lor_E0 (x : Z) : 0 <= x < 0x10 -> Z.lor x 0xE0 = 0xE0 + x.
Proof. apply lor_tag; [vm_compute; reflexivity | lia]. Qed.

Lemma lor_F0 (x : Z) : 0 <= x < 0x08 -> Z.lor x 0xF0 = 0xF0 + x.
Proof. apply lor_tag; [vm_compute; reflexivity | lia]. Qed.

(** ** The byte classifier *)

Section ClassifierFacts.
Import utf8byte.

(** With an unsigned [char] the classifier is the table of declared
    widths on every byte. *)
Lemma implicit_length_unsigned_char (b : Z) :
  is_char b -> @implicit_length UnsignedChar b = declared_width b.
Proof.
  intros Hb. apply Nat.eqb_eq.
  apply (forall_char
           (fun b => Nat.eqb (@implicit_length UnsignedChar b)
                             (declared_width b)));
    [vm_compute; reflexivity | exact Hb].
Qed.

(** With a signed [char] the comparison [c == 0xF4] is never true, and
    neither is [c != 0xF4] ever false. *)
Lemma signed_char_never_F4 (c : Z) :
  is_char c -> (@int_of_char MSVC c =? 0xF4) = false.
Proof.
  intros [Hlo Hhi]. unfold int_of_char. simpl.
  destruct (Z.leb_spec 0x80 c); apply Z.eqb_neq; lia.
Qed.

(** C8.  [implicit_length] returns the declared width of every byte: 1 for
    0x00-0x7F, 2 for 0xC2-0xDF, 3 for 0xE0-0xEF, 4 for 0xF0-0xF3 and 0 for
    the others, 0xC0, 0xC1 and 0xF5-0xFF among them.  The byte 0xF4 is
    the exception: on the platform of the project ([char] signed) the
    test [c == 0xF4] of [isLead4] fails for it, and its width is 0, not
    the 4 that the claim states. *)
Theorem implicit_length_declared_width (b : Z) :
  is_char b ->
  @implicit_length MSVC b
  = if b =? 0xF4 then 0%nat else declared_width b.
Proof.
  intros Hb. apply Nat.eqb_eq.
  apply (forall_char
           (fun b => Nat.eqb (@implicit_length MSVC b)
                             (if b =? 0xF4 then 0%nat
                              else declared_width b)));
    [vm_compute; reflexivity | exact Hb].
Qed.

Lemma implicit_length_declared_width_F4 :
  is_char 0xF4
  /\ @implicit_length MSVC 0xF4 = 0%nat
  /\ declared_width 0xF4 = 4%nat.
Proof.
  split; [unfold is_char; lia|].
  split; [|reflexivity].
  apply (implicit_length_declared_width 0xF4). unfold is_char; lia.
Defined.
End ClassifierFacts.

(** ** The encoder [utf32to8] *)

Lemma encode_1_standard (c : Z) : 0 <= c < 0x80 -> encode_1 c = [c].
Proof. intros H. unfold encode_1. rewrite to_char_small by lia. reflexivity. Qed.

Lemma encode_2_standard (c : Z) :
  0x80 <= c < 0x800 -> encode_2 c = [0xC0 + c / 0x40; 0x80 + c mod 0x40].
Proof.
  intros H. unfold encode_2.
  rewrite shiftr_6, land_3F.
  assert (0 <= c / 0x40 < 0x20)
    by (split; [apply Z.div_pos | apply Z.div_lt_upper_bound]; lia).
  assert (0 <= c mod 0x40 < 0x40) by (apply Z.mod_pos_bound; lia).
  rewrite lor_C0, lor_80 by lia.
  rewrite !to_char_small by lia. reflexivity.
Qed.

Lemma encode_3_standard (c : Z) :
  0x800 <= c < 0x10000 ->
  encode_3 c
  = [0xE0 + c / 0x1000; 0x80 + (c / 0x40) mod 0x40; 0x80 + c mod 0x40].
Proof.
  intros H. unfold encode_3.
  rewrite shiftr_12, shiftr_6, !land_3F.
  assert (0 <= c / 0x1000 < 0x10)
    by (split; [apply Z.div_pos | apply Z.div_lt_upper_bound]; lia).
  assert (0 <= (c / 0x40) mod 0x40 < 0x40) by (apply Z.mod_pos_bound; lia).
  assert (0 <= c mod 0x40 < 0x40) by (apply Z.mod_pos_bound; lia).
  rewrite lor_E0, !lor_80 by lia.
  rewrite !to_char_small by lia. reflexivity.
Qed.

Lemma encode_4_standard (c : Z) :
  0x10000 <= c < 0x200000 ->
  encode_4 c
  = [0xF0 + c / 0x40000; 0x80 + (c / 0x1000) mod 0x40;
     0x80 + (c / 0x40) mod 0x40; 0x80 + c mod 0x40].
Proof.
  intros H. unfold encode_4.
  rewrite shiftr_18, shiftr_12, shiftr_6, !land_3F.
  assert (0 <= c / 0x40000 < 0x08)
    by (split; [apply Z.div_pos | apply Z.div_lt_upper_bound]; lia).
  assert (0 <= (c / 0x1000) mod 0x40 < 0x40) by (apply Z.mod_pos_bound; lia).
  assert (0 <= (c / 0x40) mod 0x40 < 0x40) by (apply Z.mod_pos_bound; lia).
  assert (0 <= c mod 0x40 < 0x40) by (apply Z.mod_pos_bound; lia).
  rewrite lor_F0, !lor_80 by lia.
  rewrite !to_char_small by lia. reflexivity.
Qed.

(** A scalar value never enters the surrogate branch, whatever the policy. *)
Lemma scalar_not_surrogate (c : Z) (b : bool) :
  is_scalar c -> (0xD800 <=? c) && (c <=? 0xDFFF) && b = false.
Proof.
  intros [_ Hns].
  destruct (Z.leb_spec 0xD800 c); [|reflexivity].
  destruct (Z.leb_spec c 0xDFFF); [|reflexivity].
  exfalso. apply Hns. lia.
Qed.

(** C7.  For a Unicode scalar value [c], under every policy, [utf32to8]
    emits the standard minimal-length UTF-8 encoding of [c] (one byte below
    0x80, two with a 0xC0 lead below 0x800, three with a 0xE0 lead below
    0x10000, four with a 0xF0 lead up to 0x10FFFF, continuation bytes
    tagged 0x80), except at [c = 0x10000]: the bound [c <= 0x10000] of the
    three-byte branch takes that code point, for which the claim states
    four bytes, and the three bytes F0 80 80 come out. *)
Theorem utf32to8_scalar (p : InvalidUnicode) (c : Z) :
  is_scalar c ->
  utf32to8 [c] p
  = if c =? 0x10000 then [0xF0; 0x80; 0x80] else standard_utf8 c.
Proof.
  intros Hc. pose proof Hc as [[Hlo Hhi] _].
  cbn [utf32to8]. rewrite app_nil_r.
  unfold utf32to8_unit, standard_utf8.
  destruct (Z.eqb_spec c 0x10000) as [->|Hne].
  - destruct p; reflexivity.
  - destruct (Z.ltb_spec c 0x80); [apply encode_1_standard; lia|].
    destruct (Z.ltb_spec c 0x800); [apply encode_2_standard; lia|].
    rewrite scalar_not_surrogate by exact Hc.
    destruct (Z.leb_spec c 0x10000).
    + destruct (Z.ltb_spec c 0x10000); [|lia].
      apply encode_3_standard; lia.
    + destruct (Z.ltb_spec c 0x10000); [lia|].
      destruct (Z.leb_spec c 0x110000); [|lia].
      apply encode_4_standard; lia.
Qed.

Lemma utf32to8_scalar_U10000 :
  is_scalar 0x10000
  /\ utf32to8 [0x10000] Substitute = [0xF0; 0x80; 0x80]
  /\ standard_utf8 0x10000 = [0xF0; 0x90; 0x80; 0x80].
Proof.
  assert (Hs : is_scalar 0x10000) by (unfold is_scalar; lia).
  split; [exact Hs|].
  split; [|reflexivity].
  apply (utf32to8_scalar Substitute 0x10000 Hs).
Defined.

(** ** [utf32to16] above the Unicode range *)

(** C10.  [utf32to16] has no upper-range check: every [v] above 0x10FFFF
    (and below 2^32) yields exactly two units, [0xD800 + ((v - 0x10000) >> 10)]
    truncated to 16 bits followed by [0xDC00 + (v & 0x3FF)], which is in the
    low-surrogate range; nothing is substituted.  The first unit is a high
    surrogate exactly when [((v - 0x10000) >> 10)] taken modulo 2^16 is
    below 0x400; in particular it is none as long as [v] is below
    0x4010000. *)
Theorem utf32to16_above_range (v : Z) :
  0x10FFFF < v < 0x100000000 ->
  utf32to16 [v]
  = [(0xD800 + (v - 0x10000) / 0x400) mod 0x10000; 0xDC00 + v mod 0x400]
  /\ is_low_surrogate (0xDC00 + v mod 0x400) = true
  /\ is_high_surrogate ((0xD800 + (v - 0x10000) / 0x400) mod 0x10000)
     = (((v - 0x10000) / 0x400) mod 0x10000 <? 0x400)
  /\ (v < 0x4010000 ->
      is_high_surrogate ((0xD800 + (v - 0x10000) / 0x400) mod 0x10000)
      = false).
Proof.
  intros Hv.
  assert (Hm : 0 <= v mod 0x400 < 0x400) by (apply Z.mod_pos_bound; lia).
  assert (Hk : 0x400 <= (v - 0x10000) / 0x400 < 0x400000)
    by (split; [apply Z.div_le_lower_bound
               | apply Z.div_lt_upper_bound]; lia).
  assert (Hexact :
            is_high_surrogate ((0xD800 + (v - 0x10000) / 0x400) mod 0x10000)
            = (((v - 0x10000) / 0x400) mod 0x10000 <? 0x400)).
  { set (k := (v - 0x10000) / 0x400) in *.
    pose proof (Z.div_mod k 0x10000 ltac:(lia)) as Hdm.
    pose proof (Z.mod_pos_bound k 0x10000 ltac:(lia)) as Hr.
    set (m := k mod 0x10000) in *. set (q := k / 0x10000) in *.
    unfold is_high_surrogate.
    destruct (Z.lt_ge_cases m 0x2800) as [Hlt|Hge].
    - replace ((0xD800 + k) mod 0x10000) with (0xD800 + m)
        by (apply Z.mod_unique with (q := q); lia).
      destruct (Z.ltb_spec m 0x400).
      + apply andb_true_intro; split; apply Z.leb_le; lia.
      + apply andb_false_iff; right. apply Z.leb_gt. lia.
    - replace ((0xD800 + k) mod 0x10000) with (0xD800 + m - 0x10000)
        by (apply Z.mod_unique with (q := q + 1); lia).
      destruct (Z.ltb_spec m 0x400); [lia|].
      apply andb_false_iff; left. apply Z.leb_gt. lia. }
  split; [|split; [|split]].
  - cbn [utf32to16].
    destruct (Z.leb_spec 0x10000 v); [|lia].
    rewrite to_char32_small by lia.
    rewrite shiftr_10, land_3FF.
    rewrite (to_wchar_small (0xDC00 + v mod 0x400)) by lia.
    reflexivity.
  - unfold is_low_surrogate.
    apply andb_true_intro; split; apply Z.leb_le; lia.
  - exact Hexact.
  - intros Hsmall. rewrite Hexact.
    assert (Hk' : (v - 0x10000) / 0x400 < 0x10000)
      by (apply Z.div_lt_upper_bound; lia).
    rewrite Z.mod_small by lia.
    apply Z.ltb_ge. lia.
Qed.

Lemma utf32to16_above_range_U110000 :
  0x10FFFF < 0x110000 < 0x100000000
  /\ utf32to16 [0x110000] = [0xDC00; 0xDC00]
  /\ is_high_surrogate 0xDC00 = false
  /\ utf32to16 [0xFFFFFFFF] = [0xD7BF; 0xDFFF]
  /\ is_high_surrogate 0xD7BF = false.
Proof.
  assert (H : 0x10FFFF < 0x110000 < 0x100000000) by lia.
  assert (H' : 0x10FFFF < 0xFFFFFFFF < 0x100000000) by lia.
  split; [exact H|].
  destruct (utf32to16_above_range 0x110000 H) as (Hout & _ & _ & Hhigh).
  destruct (utf32to16_above_range 0xFFFFFFFF H') as (Hout' & _ & Hexact & _).
  split; [exact Hout|].
  split; [apply Hhigh; lia|].
  split; [exact Hout' | exact Hexact].
Defined.

(** Past 0x4010000 the truncation to 16 bits wraps into the high-surrogate
    range: the output is then a well-formed surrogate pair. *)
Lemma utf32to16_wraps_to_high_surrogate :
  0x10FFFF < 0x4010000 < 0x100000000
  /\ utf32to16 [0x4010000] = [0xD800; 0xDC00]
  /\ is_high_surrogate 0xD800 = true
  /\ is_low_surrogate 0xDC00 = true
  /\ utf16to32 [0xD800; 0xDC00] = [0x10000].
Proof. repeat split; try lia; reflexivity. Qed.

(** ** Round trips through the wider forms *)

(** The guard [c < 0xD800 && c > 0xDFFF] of the three-byte branch of
    [utf16to8] holds for no unit at all. *)
Lemma three_byte_guard_never (c : Z) : (c <? 0xD800) && (0xDFFF <? c) = false.
Proof.
  destruct (Z.ltb_spec c 0xD800); [|reflexivity].
  destruct (Z.ltb_spec 0xDFFF c); [lia|reflexivity].
Qed.

(** So a unit from 0x800 up that ends the buffer is handled as a lone
    surrogate, whatever it is. *)
Lemma utf16to8_last_unit (p : InvalidUnicode) (c : Z) :
  0x800 <= c -> utf16to8 [c] p = utf16to8_lone p c.
Proof.
  intros Hc. cbn [utf16to8].
  destruct (Z.ltb_spec c 0x80); [lia|].
  destruct (Z.ltb_spec c 0x800); [lia|].
  rewrite three_byte_guard_never. apply app_nil_r.
Qed.

(** With a signed [char] the exception made for the lead byte ED under
    [Preserve_16] never applies: [s[i] != 0xED] is always true. *)
Lemma rejects_pair_signed (p : InvalidUnicode) (c1 c2 : Z) :
  is_char c1 ->
  @rejects_pair MSVC p c1 c2
  = utf8byte.badPair (@uchar_of_char MSVC c1) (@uchar_of_char MSVC c2).
Proof.
  intros [Hlo Hhi]. unfold rejects_pair.
  assert (Hne : (@int_of_char MSVC c1 =? 0xED) = false).
  { unfold int_of_char. cbn [char_signed MSVC andb].
    destruct (Z.leb_spec 0x80 c1); apply Z.eqb_neq; lia. }
  rewrite Hne. cbn [negb]. rewrite orb_true_r. reflexivity.
Qed.

Lemma utf8to16_Preserve_16_signed_bounded (n : nat) :
  forall s, (length s <= n)%nat -> Forall is_char s ->
    @utf8to16 MSVC s Preserve_16 = @utf8to16 MSVC s Substitute.
Proof.
  induction n as [|n IH]; intros s Hlen Hs.
  - destruct s; [reflexivity | cbn [length] in Hlen; lia].
  - destruct s as [|c1 s1]; [reflexivity|].
    cbn [length] in Hlen. inversion Hs as [|? ? Hc1 Hs1]; subst.
    assert (IH1 : @utf8to16 MSVC s1 Preserve_16
                  = @utf8to16 MSVC s1 Substitute)
      by (apply IH; [lia | assumption]).
    assert (IH2 : forall c2 s2, s1 = c2 :: s2 ->
                  @utf8to16 MSVC s2 Preserve_16
                  = @utf8to16 MSVC s2 Substitute).
    { intros c2 s2 ->. inversion Hs1; subst. cbn [length] in Hlen.
      apply IH; [lia | assumption]. }
    assert (IH3 : forall c2 c3 s3, s1 = c2 :: c3 :: s3 ->
                  @utf8to16 MSVC s3 Preserve_16
                  = @utf8to16 MSVC s3 Substitute).
    { intros c2 c3 s3 ->. inversion Hs1 as [|? ? ? Hs2]; subst.
      inversion Hs2; subst. cbn [length] in Hlen.
      apply IH; [lia | assumption]. }
    assert (IH4 : forall c2 c3 c4 s4, s1 = c2 :: c3 :: c4 :: s4 ->
                  @utf8to16 MSVC s4 Preserve_16
                  = @utf8to16 MSVC s4 Substitute).
    { intros c2 c3 c4 s4 ->. inversion Hs1 as [|? ? ? Hs2]; subst.
      inversion Hs2 as [|? ? ? Hs3]; subst. inversion Hs3; subst.
      cbn [length] in Hlen. apply IH; [lia | assumption]. }
    cbn [utf8to16].
    change (@invalid_unit MSVC Preserve_16 c1)
      with (@invalid_unit MSVC Substitute c1).
    destruct (@utf8byte.implicit_length MSVC c1) as [|[|[|[|[|?]]]]];
      rewrite ?IH1; try reflexivity.
    + destruct s1 as [|c2 s2]; [reflexivity|].
      rewrite (IH2 c2 s2 eq_refl). reflexivity.
    + destruct s1 as [|c2 [|c3 s3]]; try reflexivity.
      rewrite !rejects_pair_signed by assumption.
      rewrite (IH3 c2 c3 s3 eq_refl). reflexivity.
    + destruct s1 as [|c2 [|c3 [|c4 s4]]]; try reflexivity.
      rewrite (IH4 c2 c3 c4 s4 eq_refl). reflexivity.
Qed.

(** C1.  The round trip of valid UTF-8 is not the identity as the claim
    states.  Through the 16-bit form: the three-byte branch of [utf16to8]
    is guarded by [c < 0xD800 && c > 0xDFFF], so every unit [c] from 0x800
    up that ends the buffer is replaced by U+FFFD under [Substitute]; the
    three well-formed bytes of U+20AC decode to that unit and come back as
    U+FFFD (as ED 82 AC under [Preserve_16]) on every platform.  Through
    the 32-bit form: [case 4] of [utf8to32] tests [s[i + 3]], and the four
    well-formed bytes of U+1F600 come back as four U+FFFD. *)
Theorem valid_utf8_round_trip_not_identity (p : InvalidUnicode) (c : Z) :
  0x800 <= c < 0x10000 ->
  utf16to8 [c] Substitute = replacement_utf8
  /\ well_formed_utf8 euro = true
  /\ well_formed_utf8 grin = true
  /\ (forall P : Platform,
         @utf8to16 P euro p = [0x20AC]
         /\ @round_trip_16 P p euro
            = if InvalidUnicode_eqb p Preserve_16 then [0xED; 0x82; 0xAC]
              else replacement_utf8)
  /\ (forall P : Platform,
         @round_trip_32 P Substitute grin
         = Some (replacement_utf8 ++ replacement_utf8
                 ++ replacement_utf8 ++ replacement_utf8))
  /\ @round_trip_32 MSVC p grin
     = Some (replacement_utf8 ++ replacement_utf8
             ++ replacement_utf8 ++ replacement_utf8).
Proof.
  intros Hc. split.
  - rewrite utf16to8_last_unit by lia. reflexivity.
  - repeat split; try reflexivity;
      try (destruct P as [[|]]); destruct p; reflexivity.
Qed.

Lemma valid_utf8_round_trip_not_identity_euro :
  0x800 <= 0x20AC < 0x10000
  /\ @utf8to16 MSVC euro Substitute = [0x20AC]
  /\ utf16to8 [0x20AC] Substitute = replacement_utf8
  /\ @round_trip_32 MSVC Substitute grin
     = Some (replacement_utf8 ++ replacement_utf8
             ++ replacement_utf8 ++ replacement_utf8).
Proof.
  assert (H : 0x800 <= 0x20AC < 0x10000) by lia.
  split; [exact H|].
  destruct (valid_utf8_round_trip_not_identity Substitute 0x20AC H)
    as (Henc & _ & _ & H16 & _ & H32).
  split; [exact (proj1 (H16 MSVC))|].
  split; [exact Henc | exact H32].
Defined.

(** C2.  [Preserve_8] does not round-trip every byte sequence through
    the 32-bit form as the claim states.  With a signed [char] the
    escape of a byte [b] with the high bit set is [0xDC00 + (b - 0x100)],
    which [utf32to8] does not recognise: every such one-byte input comes
    back as U+FFFD (FF for instance), or has no result at all when [b] is
    a lead F0..F3.  On every platform a lead byte F0 followed three bytes
    later by a zero byte swallows four bytes into one code point, and a
    lead byte F0 less than three bytes before the end makes [utf8to32]
    read past the view. *)
Theorem Preserve_8_round_trip_not_identity (b : Z) :
  0x80 <= b < 0x100 ->
  @round_trip_32 MSVC Preserve_8 [b]
  = (if between 0xF0 0xF3 b then None else Some replacement_utf8)
  /\ (forall P : Platform,
         @round_trip_32 P Preserve_8 [0xF0; 0x9F; 0x98; 0x00]
         = Some [0xDF; 0x98])
  /\ (forall P : Platform, @round_trip_32 P Preserve_8 [0xF0] = None).
Proof.
  intros Hb.
  assert (Hc : is_char b) by (unfold is_char; lia).
  split.
  - revert Hb.
    apply (on_high_chars
             (fun b => @round_trip_32 MSVC Preserve_8 [b])
             (fun b => if between 0xF0 0xF3 b then None
                       else Some replacement_utf8)
             option_list_eq_dec);
      [vm_compute; reflexivity | exact Hc].
  - split; intros [[|]]; reflexivity.
Qed.

Lemma Preserve_8_round_trip_not_identity_FF :
  0x80 <= 0xFF < 0x100
  /\ @round_trip_32 MSVC Preserve_8 [0xFF] = Some replacement_utf8.
Proof.
  assert (H : 0x80 <= 0xFF < 0x100) by lia.
  split; [exact H|].
  exact (proj1 (Preserve_8_round_trip_not_identity 0xFF H)).
Defined.

(** C3.  [Preserve_16] does not round-trip 16-bit sequences with lone
    surrogates through the 8-bit form as the claim states.  With a signed
    [char] the test [s[i] != 0xED] of the decoder is always true, and
    [utf8to16] under [Preserve_16] is [utf8to16] under [Substitute] on
    every byte sequence: the lone high surrogate D800 is emitted as
    ED A0 80, and three U+FFFD come back.  On every platform two lone low
    surrogates in a row are encoded as if they were a pair, and a
    three-byte character next to a lone surrogate is encoded with the
    lead ED. *)
Theorem Preserve_16_round_trip_not_identity (s : list char) :
  Forall is_char s ->
  @utf8to16 MSVC s Preserve_16 = @utf8to16 MSVC s Substitute
  /\ utf16to8 [0xD800] Preserve_16 = [0xED; 0xA0; 0x80]
  /\ @utf8to16 MSVC (utf16to8 [0xD800] Preserve_16) Preserve_16
     = [0xFFFD; 0xFFFD; 0xFFFD]
  /\ utf16to8 [0xDC00; 0xDC00] Preserve_16 = [0xF4; 0x90; 0x80; 0x80]
  /\ (forall P : Platform,
         @utf8to16 P (utf16to8 [0xDC00; 0xDC00] Preserve_16) Preserve_16
         = [0xFFFD; 0xFFFD; 0xFFFD; 0xFFFD])
  /\ (forall P : Platform,
         @utf8to16 P (utf16to8 [0x20AC; 0xD800] Preserve_16) Preserve_16
         <> [0x20AC; 0xD800]).
Proof.
  intros Hs. split.
  - apply (utf8to16_Preserve_16_signed_bounded (length s) s);
      [apply Nat.le_refl | exact Hs].
  - repeat split; try reflexivity; destruct P as [[|]];
      try reflexivity; vm_compute; discriminate.
Qed.

Lemma Preserve_16_round_trip_not_identity_D800 :
  Forall is_char [0xED; 0xA0; 0x80]
  /\ utf16to8 [0xD800] Preserve_16 = [0xED; 0xA0; 0x80]
  /\ @utf8to16 MSVC [0xED; 0xA0; 0x80] Preserve_16
     = @utf8to16 MSVC [0xED; 0xA0; 0x80] Substitute
  /\ @utf8to16 MSVC [0xED; 0xA0; 0x80] Preserve_16
     = [0xFFFD; 0xFFFD; 0xFFFD].
Proof.
  assert (H : Forall is_char [0xED; 0xA0; 0x80])
    by (repeat constructor; unfold is_char; lia).
  split; [exact H|].
  destruct (Preserve_16_round_trip_not_identity [0xED; 0xA0; 0x80] H)
    as (Hsame & Henc & Hback & _).
  split; [exact Henc|]. split; [exact Hsame | exact Hback].
Defined.

(** ** Invalid input under [Substitute] and [Preserve_8] *)

(** What a signed [char] does to the escape of [Preserve_8]: for a byte
    with the high bit set, [0xDC00 + s[i]] is 0xDB00 plus the byte. *)
Lemma invalid_unit_Preserve_8_signed (b : Z) :
  0x80 <= b < 0x100 -> @invalid_unit MSVC Preserve_8 b = 0xDB00 + b.
Proof.
  intros Hb. unfold invalid_unit, int_of_char.
  cbn [InvalidUnicode_eqb char_signed MSVC andb].
  destruct (Z.leb_spec 0x80 b); lia.
Qed.

Lemma invalid_unit_Preserve_8_unsigned (b : Z) :
  @invalid_unit UnsignedChar Preserve_8 b = 0xDC00 + b.
Proof. reflexivity. Qed.

(** C5.  Under [Substitute] not every invalid unit becomes one U+FFFD
    with the scan moving on by one unit, as the claim states.  In
    [utf16to8] any unit [c] from 0x800 up that is followed by a low
    surrogate [d] is taken for the first half of a pair, a lone low
    surrogate or a plain character as well as a high surrogate: the two
    units are consumed together and four bytes come out, so two lone low
    surrogates DC00 DC00 give F4 90 80 80, which is not well-formed UTF-8
    and holds no U+FFFD.  In [utf8to32] the truncated four-byte sequence
    F0 9F 98 followed by a zero byte becomes the single code point U+07D8
    and the scan moves on by four bytes, where [utf8to16] gives three
    U+FFFD and U+0000; a lead byte F0 at the end of the view is read
    past. *)
Theorem Substitute_not_one_replacement_per_unit
        (P : Platform) (c d : Z) (w : list wchar_t) :
  0x800 <= c -> is_low_surrogate d = true ->
  utf16to8 (c :: d :: w) Substitute
  = encode_4 (to_char32 (Z.lor (to_char32 (Z.shiftl (Z.land c 0x7FF) 10))
                               (Z.land d 0x03FF) + 0x10000))
    ++ utf16to8 w Substitute
  /\ utf16to8 [0xDC00; 0xDC00] Substitute = [0xF4; 0x90; 0x80; 0x80]
  /\ well_formed_utf8 [0xF4; 0x90; 0x80; 0x80] = false
  /\ @utf8to32 P [0xF0; 0x9F; 0x98; 0x00] Substitute = Some [0x07D8]
  /\ @utf8to16 P [0xF0; 0x9F; 0x98; 0x00] Substitute
     = [0xFFFD; 0xFFFD; 0xFFFD; 0x0000]
  /\ @utf8to32 P [0x41; 0xF0] Substitute = None.
Proof.
  intros Hc Hd. split.
  - cbn [utf16to8].
    destruct (Z.ltb_spec c 0x80); [lia|].
    destruct (Z.ltb_spec c 0x800); [lia|].
    rewrite three_byte_guard_never.
    unfold is_low_surrogate in Hd. rewrite Hd. reflexivity.
  - destruct P as [[|]]; repeat split; reflexivity.
Qed.

Lemma Substitute_not_one_replacement_per_unit_DC00 :
  0x800 <= 0xDC00
  /\ is_low_surrogate 0xDC00 = true
  /\ utf16to8 [0xDC00; 0xDC00] Substitute = [0xF4; 0x90; 0x80; 0x80]
  /\ @utf8to32 MSVC [0xF0; 0x9F; 0x98; 0x00] Substitute = Some [0x07D8].
Proof.
  assert (Hc : 0x800 <= 0xDC00) by lia.
  assert (Hd : is_low_surrogate 0xDC00 = true) by reflexivity.
  split; [exact Hc|]. split; [exact Hd|].
  destruct (Substitute_not_one_replacement_per_unit MSVC 0xDC00 0xDC00 []
              Hc Hd) as (_ & Hpair & _ & Hdec & _).
  split; [exact Hpair | exact Hdec].
Defined.

(** C6.  Under [Preserve_8] an invalid byte [b] (high bit set) is escaped
    as [0xDC00 + s[i]] with [s[i]] promoted as a signed [char]: the code
    point is [0xDB00 + b], in 0xDB80..0xDBFF and not the [0xDC00 | b] in
    0xDC80..0xDCFF the claim states.  So the one-byte input FF yields DBFF,
    which [utf32to8] turns into U+FFFD (a lone lead F0..F3 yields nothing:
    the view is read past its end); [utf32to8] of DCFF does yield the
    single byte FF.  Whatever the signedness of [char], the invalid lead
    F0 of F0 9F 98 00 is not escaped at all: the four bytes become the
    code point U+07D8. *)
Theorem Preserve_8_escape (b : Z) :
  0x80 <= b < 0x100 ->
  @utf8to32 MSVC [b] Preserve_8
  = (if between 0xF0 0xF3 b then None else Some [0xDB00 + b])
  /\ 0xDB80 <= 0xDB00 + b <= 0xDBFF
  /\ utf32to8 [0xDB00 + b] Preserve_8 = replacement_utf8
  /\ utf32to8 [Z.lor 0xDC00 b] Preserve_8 = [b]
  /\ (forall P : Platform,
         @utf8to32 P [0xF0; 0x9F; 0x98; 0x00] Preserve_8 = Some [0x07D8]).
Proof.
  intros Hb.
  assert (Hc : is_char b) by (unfold is_char; lia).
  split; [|split; [lia|split; [|split;
            [|intros [[|]]; reflexivity]]]]; revert Hb.
  - apply (on_high_chars
             (fun b => @utf8to32 MSVC [b] Preserve_8)
             (fun b => if between 0xF0 0xF3 b then None
                       else Some [0xDB00 + b])
             option_list_eq_dec);
      [vm_compute; reflexivity | exact Hc].
  - apply (on_high_chars
             (fun b => utf32to8 [0xDB00 + b] Preserve_8)
             (fun _ => replacement_utf8)
             (list_eq_dec Z.eq_dec));
      [vm_compute; reflexivity | exact Hc].
  - apply (on_high_chars
             (fun b => utf32to8 [Z.lor 0xDC00 b] Preserve_8)
             (fun b => [b])
             (list_eq_dec Z.eq_dec));
      [vm_compute; reflexivity | exact Hc].
Qed.

Lemma Preserve_8_escape_FF :
  0x80 <= 0xFF < 0x100
  /\ @utf8to32 MSVC [0xFF] Preserve_8 = Some [0xDBFF]
  /\ utf32to8 [0xDBFF] Preserve_8 = replacement_utf8
  /\ utf32to8 [0xDCFF] Preserve_8 = [0xFF].
Proof.
  assert (H : 0x80 <= 0xFF < 0x100) by lia.
  split; [exact H|].
  destruct (Preserve_8_escape 0xFF H) as (Hdec & _ & Henc & Hback & _).
  split; [exact Hdec|]. split; [exact Henc|exact Hback].
Defined.

(** ** Degenerate and boundary inputs *)

(** C9.  Each of the six converters maps the empty input to the empty
    output, and under [Substitute] [utf8to32] turns the overlong pair
    C0 80 into two U+FFFD.  The single truncated lead byte F0 is where the
    claim fails: [case 4] of [utf8to32] evaluates [s[i + 3]] although
    [i + 3 >= s.length()], three units past the end of the view, instead
    of yielding one U+FFFD as [utf8to16] does. *)
Theorem degenerate_inputs (P : Platform) (p : InvalidUnicode) :
  @utf8to32 P [] p = Some []
  /\ utf32to8 [] p = []
  /\ @utf8to16 P [] p = []
  /\ utf16to8 [] p = []
  /\ utf16to32 [] = []
  /\ utf32to16 [] = []
  /\ @utf8to32 P [0xC0; 0x80] Substitute = Some [0xFFFD; 0xFFFD]
  /\ @utf8to32 P [0xF0] Substitute = None
  /\ @utf8to16 P [0xF0] Substitute = [0xFFFD].
Proof. destruct P as [[|]]; repeat split; reflexivity. Qed.

(** ** The chunked adapter *)

Section AdapterFacts.
Variable W2M : Z -> list wchar_t -> list char.
Variable M2W : Z -> list char -> list wchar_t.

(** One round of the [while] of [fromWide]. *)
Lemma fromWide_loop_round (L : Z) (rounds : nat) (s : list wchar_t)
      (cp wp : Z) (r : list char) (calls : list (list wchar_t))
      (last : wchar_t) :
  L < Z.of_nat (length s) - wp ->
  subscript s (L - 1) = Some last ->
  fromWide_loop L W2M (S rounds) s cp wp r calls
  = fromWide_loop L W2M rounds s cp
      (wp + (if is_high_surrogate last then L - 1 else L))
      (r ++ W2M cp (segment s wp
                      (if is_high_surrogate last then L - 1 else L)))
      (calls ++ [segment s wp
                   (if is_high_surrogate last then L - 1 else L)]).
Proof.
  intros Hlong Hlast. cbn [fromWide_loop].
  destruct (Z.ltb_spec L (Z.of_nat (length s) - wp)); [|lia].
  rewrite Hlast. reflexivity.
Qed.

(** Leaving the [while]: the rest goes to the codec in one call. *)
Lemma fromWide_loop_exit (L : Z) (rounds : nat) (s : list wchar_t)
      (cp wp : Z) (r : list char) (calls : list (list wchar_t)) :
  Z.of_nat (length s) - wp <= L ->
  fromWide_loop L W2M rounds s cp wp r calls
  = Some (r ++ W2M cp (segment s wp (Z.of_nat (length s) - wp)),
          calls ++ [segment s wp (Z.of_nat (length s) - wp)]).
Proof.
  intros Hfit. destruct rounds; cbn [fromWide_loop];
    destruct (Z.ltb_spec L (Z.of_nat (length s) - wp)); try lia;
    reflexivity.
Qed.

Lemma toWide_loop_round {P : Platform} (L : Z) (rounds : nat)
      (s : list char) (cp wp : Z) (r : list wchar_t)
      (calls : list (list char)) (ss : Z) :
  L < Z.of_nat (length s) - wp ->
  toWide_ss L s cp = Some ss ->
  toWide_loop L M2W (S rounds) s cp wp r calls
  = toWide_loop L M2W rounds s cp (wp + ss)
      (r ++ M2W cp (segment s wp ss)) (calls ++ [segment s wp ss]).
Proof.
  intros Hlong Hss. cbn [toWide_loop].
  destruct (Z.ltb_spec L (Z.of_nat (length s) - wp)); [|lia].
  rewrite Hss. reflexivity.
Qed.

Lemma toWide_loop_exit {P : Platform} (L : Z) (rounds : nat)
      (s : list char) (cp wp : Z) (r : list wchar_t)
      (calls : list (list char)) :
  Z.of_nat (length s) - wp <= L ->
  toWide_loop L M2W rounds s cp wp r calls
  = Some (r ++ M2W cp (segment s wp (Z.of_nat (length s) - wp)),
          calls ++ [segment s wp (Z.of_nat (length s) - wp)]).
Proof.
  intros Hfit. destruct rounds; cbn [toWide_loop];
    destruct (Z.ltb_spec L (Z.of_nat (length s) - wp)); try lia;
    reflexivity.
Qed.
End AdapterFacts.

(** Segments of a view made of three consecutive parts. *)
Lemma segment_middle {A : Type} (a b c : list A) (wp n : Z) :
  wp = Z.of_nat (length a) -> n = Z.of_nat (length b) ->
  segment (a ++ b ++ c) wp n = b.
Proof.
  intros -> ->. unfold segment. rewrite !Nat2Z.id.
  rewrite skipn_app, Nat.sub_diag, skipn_all. cbn [skipn app].
  rewrite firstn_app, Nat.sub_diag, firstn_all. cbn [firstn].
  apply app_nil_r.
Qed.

Lemma segment_first {A : Type} (b c : list A) (n : Z) :
  n = Z.of_nat (length b) -> segment (b ++ c) 0 n = b.
Proof. intros Hn. now apply (segment_middle [] b c). Qed.

Lemma segment_last {A : Type} (a b c : list A) (wp n : Z) :
  wp = Z.of_nat (length a + length b) -> n = Z.of_nat (length c) ->
  segment (a ++ b ++ c) wp n = c.
Proof.
  intros Hwp Hn. rewrite app_assoc.
  rewrite <- (app_nil_r c) at 1.
  apply segment_middle; [now rewrite length_app | exact Hn].
Qed.

Lemma subscript_repeat_app {A : Type} (x : A) (n : nat) (rest : list A)
      (i : Z) :
  0 <= i < Z.of_nat n -> subscript (repeat x n ++ rest) i = Some x.
Proof.
  intros Hi. unfold subscript.
  destruct (Z.ltb_spec i 0); [lia|].
  rewrite nth_error_app1 by (rewrite repeat_length; lia).
  apply nth_error_repeat. lia.
Qed.

(** [fromWide] always returns: with a per-call limit of at least 2 every
    round moves [workingPoint] forward and the subscript [ss - 1] is inside
    the buffer, so the bound on the number of rounds is never reached. *)
Lemma fromWide_loop_returns (W2M : Z -> list wchar_t -> list char) (L : Z)
      (rounds : nat) :
  2 <= L ->
  forall (s : list wchar_t) (cp wp : Z) (r : list char)
         (calls : list (list wchar_t)),
    0 <= wp -> Z.of_nat (length s) - wp <= Z.of_nat rounds + L ->
    fromWide_loop L W2M rounds s cp wp r calls <> None.
Proof.
  intros HL. induction rounds as [|rounds IH]; intros s cp wp r calls Hwp Hfuel.
  - rewrite fromWide_loop_exit by lia. discriminate.
  - destruct (Z.lt_ge_cases L (Z.of_nat (length s) - wp)) as [Hlong|Hfit].
    + destruct (nth_error s (Z.to_nat (L - 1))) as [last|] eqn:Hlast.
      * rewrite (fromWide_loop_round W2M L rounds s cp wp r calls last Hlong).
        -- apply IH; destruct (is_high_surrogate last); lia.
        -- unfold subscript. destruct (Z.ltb_spec (L - 1) 0); [lia|exact Hlast].
      * apply nth_error_None in Hlast. lia.
    + rewrite fromWide_loop_exit by lia. discriminate.
Qed.

Lemma fromWide_returns (W2M : Z -> list wchar_t -> list char) (L : Z)
      (s : list wchar_t) (cp : Z) :
  2 <= L -> fromWide L W2M s cp <> None.
Proof.
  intros HL. unfold fromWide, fromWide_run.
  destruct (length s =? 0)%nat; [discriminate|].
  pose proof (fromWide_loop_returns W2M L (length s) HL s cp 0 [] []) as H.
  destruct (fromWide_loop L W2M (length s) s cp 0 [] []);
    [discriminate | exfalso; apply H; [lia | lia | reflexivity]].
Qed.

Lemma pair_across_second_cut_length (n : nat) :
  (1 <= n)%nat -> length (pair_across_second_cut n) = S (S (2 * n - 1)).
Proof.
  intros Hn. unfold pair_across_second_cut.
  rewrite !length_app, !repeat_length. cbn [length]. lia.
Qed.

Lemma utf8_across_second_cut_length (n : nat) :
  (1 <= n)%nat -> length (utf8_across_second_cut n) = S (S (2 * n - 1)).
Proof.
  intros Hn. unfold utf8_across_second_cut.
  rewrite !length_app, !repeat_length. cbn [length]. lia.
Qed.

(** In every round [toWide] looks at the same byte, [s[safeSize]]; on the
    sample it is not a continuation byte and the cut stays at [safeSize]. *)
Lemma toWide_ss_utf8_across_second_cut (P : Platform) (n : nat) :
  (1 <= n)%nat ->
  @toWide_ss P (Z.of_nat n) (utf8_across_second_cut n) CP_UTF8
  = Some (Z.of_nat n).
Proof.
  intros Hn. unfold toWide_ss, utf8_across_second_cut, subscript.
  change (CP_UTF8 =? CP_UTF8) with true. cbv iota.
  destruct (Z.ltb_spec (Z.of_nat n) 0); [lia|].
  rewrite Nat2Z.id.
  rewrite nth_error_app2 by (rewrite repeat_length; lia).
  rewrite repeat_length, Nat.sub_diag.
  destruct (n - 1)%nat; destruct P as [[|]]; reflexivity.
Qed.

(** C4.  The boundary check of the adapter looks at a fixed position of the
    whole buffer ([s[ss - 1]] in [fromWide], [s[ss]] in [toWide], with
    [ss = safeSize]) and not at the end of the segment that starts at
    [workingPoint], so only the first segment is protected.  For every
    per-call limit [n >= 1] the sample inputs, of [2 * n + 1] units, are cut
    at [n] and at [2 * n]: the second segment handed to the codec ends with
    the high surrogate D83D whose partner DE00 starts the third, and in
    [toWide] it ends with the lead byte C3 whose continuation byte A9
    starts the third.  This is not what the claim states for every
    chunk. *)
Theorem second_segment_splits_character
        (W2M : Z -> list wchar_t -> list char)
        (M2W : Z -> list char -> list wchar_t) (cp : Z) (n : nat) :
  (1 <= n)%nat ->
  fromWide_calls (Z.of_nat n) W2M (pair_across_second_cut n) cp
  = Some [repeat 0x41 n; repeat 0x41 (n - 1) ++ [0xD83D]; [0xDE00]]
  /\ is_high_surrogate 0xD83D = true
  /\ is_low_surrogate 0xDE00 = true
  /\ (forall P : Platform,
         @toWide_calls P (Z.of_nat n) M2W (utf8_across_second_cut n) CP_UTF8
         = Some [repeat 0x41 n; repeat 0x41 (n - 1) ++ [0xC3]; [0xA9]])
  /\ well_formed_utf8 [0xC3; 0xA9] = true
  /\ (forall P : Platform, @utf8byte.isTrail P 0xA9 = true).
Proof.
  intros Hn.
  assert (Hmid : forall x : Z, length (repeat 0x41 (n - 1) ++ [x]) = n)
    by (intros x; rewrite length_app, repeat_length; cbn [length]; lia).
  split; [|split; [reflexivity|split; [reflexivity|split;
            [|split; [reflexivity|intros [[|]]; reflexivity]]]]].
  - unfold fromWide_calls, fromWide_run.
    pose proof (pair_across_second_cut_length n Hn) as Hlen.
    rewrite Hlen. cbn [Nat.eqb].
    assert (Hlast : subscript (pair_across_second_cut n) (Z.of_nat n - 1)
                    = Some 0x41)
      by (apply subscript_repeat_app; lia).
    rewrite (fromWide_loop_round W2M _ _ _ _ _ _ _ 0x41)
      by (rewrite ?Hlen; first [lia | exact Hlast]).
    rewrite (fromWide_loop_round W2M _ _ _ _ _ _ _ 0x41)
      by (rewrite ?Hlen; change (is_high_surrogate 0x41) with false;
          cbv iota; first [lia | exact Hlast]).
    rewrite fromWide_loop_exit
      by (rewrite ?Hlen; change (is_high_surrogate 0x41) with false;
          cbv iota; lia).
    change (is_high_surrogate 0x41) with false. cbv iota.
    cbn [option_map snd app].
    unfold pair_across_second_cut.
    rewrite segment_first by (rewrite repeat_length; reflexivity).
    rewrite segment_middle
      by (rewrite ?repeat_length, ?Hmid; lia).
    rewrite segment_last; [reflexivity | |].
    + rewrite repeat_length, Hmid. lia.
    + fold (pair_across_second_cut n). rewrite Hlen. cbn [length]. lia.
  - intros P. unfold toWide_calls, toWide_run.
    pose proof (utf8_across_second_cut_length n Hn) as Hlen.
    pose proof (toWide_ss_utf8_across_second_cut P n Hn) as Hss.
    rewrite Hlen. cbn [Nat.eqb].
    rewrite (toWide_loop_round M2W _ _ _ _ _ _ _ (Z.of_nat n))
      by (rewrite ?Hlen; first [lia | exact Hss]).
    rewrite (toWide_loop_round M2W _ _ _ _ _ _ _ (Z.of_nat n))
      by (rewrite ?Hlen; first [lia | exact Hss]).
    rewrite toWide_loop_exit by (rewrite ?Hlen; lia).
    cbn [option_map snd app].
    unfold utf8_across_second_cut.
    rewrite segment_first by (rewrite repeat_length; reflexivity).
    rewrite segment_middle
      by (rewrite ?repeat_length, ?Hmid; lia).
    rewrite segment_last; [reflexivity | |].
    + rewrite repeat_length, Hmid. lia.
    + fold (utf8_across_second_cut n). rewrite Hlen. cbn [length]. lia.
Qed.

(** The same at a per-call limit of 4 units, with the converters of this
    file standing for the Windows codec. *)
Lemma second_segment_splits_character_limit_4 :
  (1 <= 4)%nat
  /\ fromWide_calls 4 (fun _ w => utf16to8 w Substitute)
       [0x41; 0x41; 0x41; 0x41; 0x41; 0x41; 0x41; 0xD83D; 0xDE00] 0
     = Some [[0x41; 0x41; 0x41; 0x41]; [0x41; 0x41; 0x41; 0xD83D]; [0xDE00]]
  /\ @toWide_calls MSVC 4 (fun _ s => @utf8to16 MSVC s Substitute)
       [0x41; 0x41; 0x41; 0x41; 0x41; 0x41; 0x41; 0xC3; 0xA9] CP_UTF8
     = Some [[0x41; 0x41; 0x41; 0x41]; [0x41; 0x41; 0x41; 0xC3]; [0xA9]].
Proof.
  assert (H : (1 <= 4)%nat) by lia.
  split; [exact H|].
  destruct (second_segment_splits_character
              (fun _ w => utf16to8 w Substitute)
              (fun _ s => @utf8to16 MSVC s Substitute) 0 4 H)
    as (Hfrom & _ & _ & Hto & _).
  split; [exact Hfrom | exact (Hto MSVC)].
Defined.

(** * Further properties of the converters, the adapter and the dialog *)

Lemma land_shiftl_small (x y n : Z) :
  0 <= n -> 0 <= y < 2 ^ n -> Z.land (Z.shiftl x n) y = 0.
Proof.
  intros Hn Hy. apply Z.bits_inj'. intros k Hk.
  rewrite Z.land_spec, Z.bits_0.
  destruct (Z.lt_ge_cases k n) as [Hlt|Hge].
  - rewrite Z.shiftl_spec_low by lia. reflexivity.
  - destruct (Z.eq_dec y 0) as [->|Hy0].
    + rewrite Z.bits_0. apply andb_false_r.
    + rewrite (Z.bits_above_log2 y k); [apply andb_false_r | lia |].
      apply Z.log2_lt_pow2; [lia|].
      apply Z.lt_le_trans with (2 ^ n); [lia|].
      apply Z.pow_le_mono_r; lia.
Qed.

Lemma lor_shiftl_add (x y n : Z) :
  0 <= n -> 0 <= y < 2 ^ n -> Z.lor (Z.shiftl x n) y = x * 2 ^ n + y.
Proof.
  intros Hn Hy.
  rewrite <- Z.lxor_lor by (apply land_shiftl_small; assumption).
  rewrite <- Z.add_nocarry_lxor by (apply land_shiftl_small; assumption).
  rewrite Z.shiftl_mul_pow2 by lia. reflexivity.
Qed.

(** ** The byte classifier, on every platform *)

Lemma forall_char_pair (g : Z -> bool) (f : Z -> Z -> bool) :
  forallb (fun a => if g a then forallb (f a) all_chars else true) all_chars
  = true ->
  forall a b, is_char a -> is_char b -> g a = true -> f a b = true.
Proof.
  intros Hall a b Ha Hb Hg.
  pose proof (forall_char _ Hall a Ha) as H. cbv beta in H.
  rewrite Hg in H. exact (forall_char _ H b Hb).
Qed.

Lemma between_true (lo hi x : Z) : lo <= x <= hi -> between lo hi x = true.
Proof. intros H. unfold between. apply andb_true_intro; split; apply Z.leb_le; lia. Qed.

Lemma between_false (lo hi x : Z) : x < lo \/ hi < x -> between lo hi x = false.
Proof.
  intros H. unfold between. apply andb_false_iff.
  destruct H; [left | right]; apply Z.leb_gt; lia.
Qed.

Lemma between_iff (lo hi x : Z) : between lo hi x = true <-> lo <= x <= hi.
Proof. unfold between. rewrite andb_true_iff, !Z.leb_le. tauto. Qed.

Lemma platform_cases (Q : Platform -> Prop) :
  Q MSVC -> Q UnsignedChar -> forall P, Q P.
Proof. intros Hs Hu [[|]]; assumption. Qed.

Ltac by_all_chars :=
  match goal with
  | |- forall b, is_char b -> _ = true =>
    apply forall_char; vm_compute; reflexivity
  end.

(** X1.  On every platform each byte belongs to exactly one of the six
    classes [isASCII], [isTrail], [isLead2], [isLead3], [isLead4] and
    [isTrash]. *)
Theorem byte_classes_partition (P : Platform) (b : Z) :
  is_char b ->
  length (filter (fun x : bool => x)
            [utf8byte.isASCII b; utf8byte.isTrail b; utf8byte.isLead2 b;
             utf8byte.isLead3 b; utf8byte.isLead4 b; utf8byte.isTrash b])
  = 1%nat.
Proof.
  intros Hb. apply Nat.eqb_eq. revert b Hb.
  destruct P as [[|]]; by_all_chars.
Qed.

Lemma byte_classes_partition_F4 :
  is_char 0xF4
  /\ length (filter (fun x : bool => x)
       [@utf8byte.isASCII MSVC 0xF4; @utf8byte.isTrail MSVC 0xF4;
        @utf8byte.isLead2 MSVC 0xF4; @utf8byte.isLead3 MSVC 0xF4;
        @utf8byte.isLead4 MSVC 0xF4; @utf8byte.isTrash MSVC 0xF4]) = 1%nat.
Proof.
  assert (H : is_char 0xF4) by (unfold is_char; lia).
  split; [exact H | exact (byte_classes_partition MSVC 0xF4 H)].
Defined.

(** X2.  [implicit_length] is 0 exactly on the continuation bytes and on
    the bytes [isTrash] names, on every platform. *)
Theorem implicit_length_zero (P : Platform) (b : Z) :
  is_char b ->
  (utf8byte.implicit_length b =? 0)%nat
  = utf8byte.isTrail b || utf8byte.isTrash b.
Proof.
  intros Hb. apply eqb_true_iff. revert b Hb.
  destruct P as [[|]]; by_all_chars.
Qed.

Lemma implicit_length_zero_F4 :
  is_char 0xF4
  /\ Nat.eqb (@utf8byte.implicit_length MSVC 0xF4) 0
     = @utf8byte.isTrail MSVC 0xF4 || @utf8byte.isTrash MSVC 0xF4.
Proof.
  assert (H : is_char 0xF4) by (unfold is_char; lia).
  split; [exact H | exact (implicit_length_zero MSVC 0xF4 H)].
Defined.


(** ** The sequence validator against the table of well-formed UTF-8 *)

Lemma isTrail_between (P : Platform) (c : Z) :
  is_char c -> utf8byte.isTrail c = between 0x80 0xBF c.
Proof.
  intros Hc. apply eqb_true_iff. revert c Hc.
  destruct P as [[|]]; by_all_chars.
Qed.

Lemma valid_pair_three (P : Platform) (c1 c2 : Z) :
  is_char c1 -> is_char c2 -> between 0xE0 0xEF c1 = true ->
  negb (utf8byte.badPair (uchar_of_char c1) (uchar_of_char c2))
  && utf8byte.isTrail c2
  = (if c1 =? 0xE0 then between 0xA0 0xBF c2
     else if c1 =? 0xED then between 0x80 0x9F c2
     else between 0x80 0xBF c2).
Proof.
  intros H1 H2 Hr. apply eqb_true_iff. revert c1 c2 H1 H2 Hr.
  destruct P as [[|]];
    apply (forall_char_pair (between 0xE0 0xEF)); vm_compute; reflexivity.
Qed.

Lemma valid_pair_four (P : Platform) (c1 c2 : Z) :
  is_char c1 -> is_char c2 -> between 0xF0 0xF4 c1 = true ->
  negb (utf8byte.badPair (uchar_of_char c1) (uchar_of_char c2))
  && utf8byte.isTrail c2
  = (if c1 =? 0xF0 then between 0x90 0xBF c2
     else if c1 =? 0xF4 then between 0x80 0x8F c2
     else between 0x80 0xBF c2).
Proof.
  intros H1 H2 Hr. apply eqb_true_iff. revert c1 c2 H1 H2 Hr.
  destruct P as [[|]];
    apply (forall_char_pair (between 0xF0 0xF4)); vm_compute; reflexivity.
Qed.

(** X3.  For a lead byte E0..EF, [valid_trail] with three arguments
    accepts exactly the well-formed three-byte sequences of the Unicode
    table, on every platform. *)
Theorem valid_trail_3_well_formed (P : Platform) (c1 c2 c3 : Z) :
  is_char c1 -> is_char c2 -> is_char c3 -> 0xE0 <= c1 <= 0xEF ->
  utf8byte.valid_trail_3 c1 c2 c3 = well_formed_utf8 [c1; c2; c3].
Proof.
  intros H1 H2 H3 Hr. unfold utf8byte.valid_trail_3.
  rewrite valid_pair_three by (try assumption; apply between_true; lia).
  rewrite (isTrail_between P c3) by assumption.
  cbn [well_formed_utf8].
  rewrite (between_false 0x00 0x7F c1), (between_false 0xC2 0xDF c1),
    (between_true 0xE0 0xEF c1) by lia.
  rewrite andb_true_r. reflexivity.
Qed.

Lemma valid_trail_3_well_formed_euro :
  (is_char 0xE2 /\ is_char 0x82 /\ is_char 0xAC /\ 0xE0 <= 0xE2 <= 0xEF)
  /\ @utf8byte.valid_trail_3 MSVC 0xE2 0x82 0xAC
     = well_formed_utf8 [0xE2; 0x82; 0xAC].
Proof.
  assert (H1 : is_char 0xE2) by (unfold is_char; lia).
  assert (H2 : is_char 0x82) by (unfold is_char; lia).
  assert (H3 : is_char 0xAC) by (unfold is_char; lia).
  assert (Hr : 0xE0 <= 0xE2 <= 0xEF) by lia.
  split; [repeat split; assumption || lia|].
  exact (valid_trail_3_well_formed MSVC 0xE2 0x82 0xAC H1 H2 H3 Hr).
Defined.


(** X4.  For a lead byte F0..F4, [valid_trail] with four arguments
    accepts exactly the well-formed four-byte sequences of the Unicode
    table, on every platform. *)
Theorem valid_trail_4_well_formed (P : Platform) (c1 c2 c3 c4 : Z) :
  is_char c1 -> is_char c2 -> is_char c3 -> is_char c4 ->
  0xF0 <= c1 <= 0xF4 ->
  utf8byte.valid_trail_4 c1 c2 c3 c4 = well_formed_utf8 [c1; c2; c3; c4].
Proof.
  intros H1 H2 H3 H4 Hr. unfold utf8byte.valid_trail_4.
  rewrite valid_pair_four by (try assumption; apply between_true; lia).
  rewrite (isTrail_between P c3), (isTrail_between P c4) by assumption.
  cbn [well_formed_utf8].
  rewrite (between_false 0x00 0x7F c1), (between_false 0xC2 0xDF c1),
    (between_false 0xE0 0xEF c1), (between_true 0xF0 0xF4 c1) by lia.
  rewrite andb_true_r. cbn [andb]. reflexivity.
Qed.

Lemma valid_trail_4_well_formed_grin :
  (is_char 0xF0 /\ is_char 0x9F /\ is_char 0x98 /\ is_char 0x80
   /\ 0xF0 <= 0xF0 <= 0xF4)
  /\ @utf8byte.valid_trail_4 MSVC 0xF0 0x9F 0x98 0x80
     = well_formed_utf8 [0xF0; 0x9F; 0x98; 0x80].
Proof.
  assert (H1 : is_char 0xF0) by (unfold is_char; lia).
  assert (H2 : is_char 0x9F) by (unfold is_char; lia).
  assert (H3 : is_char 0x98) by (unfold is_char; lia).
  assert (H4 : is_char 0x80) by (unfold is_char; lia).
  assert (Hr : 0xF0 <= 0xF0 <= 0xF4) by lia.
  split; [repeat split; assumption || lia|].
  exact (valid_trail_4_well_formed MSVC 0xF0 0x9F 0x98 0x80 H1 H2 H3 H4 Hr).
Defined.


(** ** UTF-16 and UTF-32 *)

Lemma land_7FF (c : Z) : Z.land c 0x7FF = c mod 0x800.
Proof. change 0x7FF with (Z.ones 11). now rewrite Z.land_ones by lia. Qed.

(** The code point [utf16to32] and [utf16to8] compute from two units. *)
Lemma pair_code_point (c d : Z) :
  0xD800 <= c <= 0xDBFF -> 0xDC00 <= d <= 0xDFFF ->
  to_char32 (Z.lor (to_char32 (Z.shiftl (Z.land c 0x7FF) 10))
                   (Z.land d 0x03FF) + 0x10000)
  = 0x10000 + (c - 0xD800) * 0x400 + (d - 0xDC00).
Proof.
  intros Hc Hd.
  assert (Hc' : c mod 0x800 = c - 0xD800)
    by (symmetry; apply Z.mod_unique with (q := 27); lia).
  assert (Hd' : d mod 0x400 = d - 0xDC00)
    by (symmetry; apply Z.mod_unique with (q := 55); lia).
  rewrite land_7FF, land_3FF, Hc', Hd'.
  rewrite Z.shiftl_mul_pow2 by lia.
  rewrite (to_char32_small ((c - 0xD800) * 2 ^ 10)) by lia.
  rewrite <- (Z.shiftl_mul_pow2 (c - 0xD800) 10) by lia.
  rewrite lor_shiftl_add by lia.
  rewrite to_char32_small by lia. lia.
Qed.

Lemma utf32to16_pair (c d : Z) (u : list Z) :
  0xD800 <= c <= 0xDBFF -> 0xDC00 <= d <= 0xDFFF ->
  utf32to16 (0x10000 + (c - 0xD800) * 0x400 + (d - 0xDC00) :: u)
  = c :: d :: utf32to16 u.
Proof.
  intros Hc Hd. cbn [utf32to16].
  set (v := 0x10000 + (c - 0xD800) * 0x400 + (d - 0xDC00)).
  destruct (Z.leb_spec 0x10000 v); [|lia].
  rewrite to_char32_small by lia.
  rewrite shiftr_10, land_3FF.
  assert (Hq : (v - 0x10000) / 0x400 = c - 0xD800)
    by (symmetry; apply Z.div_unique with (r := d - 0xDC00); lia).
  assert (Hr : v mod 0x400 = d - 0xDC00)
    by (symmetry; apply Z.mod_unique with (q := 0x40 + (c - 0xD800)); lia).
  rewrite Hq, Hr, !to_wchar_small by lia.
  f_equal; [lia | f_equal; lia].
Qed.

Lemma utf32to16_round_trip_bounded (n : nat) :
  forall w, (length w <= n)%nat -> Forall is_wchar w ->
    utf32to16 (utf16to32 w) = w.
Proof.
  induction n as [|n IH]; intros w Hlen Hw.
  - destruct w; [reflexivity | cbn [length] in Hlen; lia].
  - destruct w as [|c w1]; [reflexivity|].
    cbn [length] in Hlen. inversion Hw as [|? ? Hc Hw1]; subst.
    assert (Hplain : utf32to16 (c :: utf16to32 w1) = c :: w1).
    { cbn [utf32to16]. unfold is_wchar in Hc.
      destruct (Z.leb_spec 0x10000 c); [lia|].
      rewrite to_wchar_small by lia. f_equal. apply IH; [lia|assumption]. }
    cbn [utf16to32]. destruct w1 as [|d w2]; [exact Hplain|].
    destruct ((0xD800 <=? c) && (c <? 0xDC00) && (0xDC00 <=? d)
              && (d <=? 0xDFFF)) eqn:Hpair; [|exact Hplain].
    rewrite !andb_true_iff, !Z.leb_le, Z.ltb_lt in Hpair.
    rewrite pair_code_point, utf32to16_pair by lia.
    inversion Hw1; subst. cbn [length] in Hlen.
    do 2 f_equal. apply IH; [lia|assumption].
Qed.

(** X5.  [utf32to16] undoes [utf16to32] on every sequence of 16-bit
    units, lone surrogates included. *)
Theorem utf32to16_utf16to32 (w : list wchar_t) :
  Forall is_wchar w -> utf32to16 (utf16to32 w) = w.
Proof.
  intros Hw. apply (utf32to16_round_trip_bounded (length w));
    [apply Nat.le_refl | exact Hw].
Qed.

Lemma utf32to16_utf16to32_sample :
  Forall is_wchar [0x41; 0xD83D; 0xDE00; 0xDC00]
  /\ utf32to16 (utf16to32 [0x41; 0xD83D; 0xDE00; 0xDC00])
     = [0x41; 0xD83D; 0xDE00; 0xDC00].
Proof.
  assert (H : Forall is_wchar [0x41; 0xD83D; 0xDE00; 0xDC00])
    by (repeat constructor; unfold is_wchar; lia).
  split; [exact H | exact (utf32to16_utf16to32 _ H)].
Defined.


Lemma utf16to32_plain (c : Z) (w : list Z) :
  ~ (0xD800 <= c <= 0xDBFF) -> utf16to32 (c :: w) = c :: utf16to32 w.
Proof.
  intros Hc. cbn [utf16to32]. destruct w as [|d w2]; [reflexivity|].
  destruct (Z.leb_spec 0xD800 c); [|reflexivity].
  destruct (Z.ltb_spec c 0xDC00); [lia|reflexivity].
Qed.

(** X6.  [utf16to32] undoes [utf32to16] on every sequence of Unicode
    scalar values. *)
Theorem utf16to32_utf32to16 (u : list char32_t) :
  Forall is_scalar u -> utf16to32 (utf32to16 u) = u.
Proof.
  induction 1 as [|c u1 [[Hlo Hhi] Hns] _ IH]; [reflexivity|].
  cbn [utf32to16]. destruct (Z.leb_spec 0x10000 c) as [Hbig|Hsmall].
  - rewrite to_char32_small by lia. rewrite shiftr_10, land_3FF.
    assert (Hq : 0 <= (c - 0x10000) / 0x400 < 0x400)
      by (split; [apply Z.div_pos | apply Z.div_lt_upper_bound]; lia).
    assert (Hr : 0 <= c mod 0x400 < 0x400) by (apply Z.mod_pos_bound; lia).
    rewrite !to_wchar_small by lia.
    set (h := 0xD800 + (c - 0x10000) / 0x400).
    set (l := 0xDC00 + c mod 0x400).
    cbn [utf16to32].
    destruct (Z.leb_spec 0xD800 h); [|lia].
    destruct (Z.ltb_spec h 0xDC00); [|lia].
    destruct (Z.leb_spec 0xDC00 l); [|lia].
    destruct (Z.leb_spec l 0xDFFF); [|lia].
    cbn [andb]. rewrite pair_code_point by lia. rewrite IH. f_equal.
    subst h l.
    pose proof (Z.div_mod (c - 0x10000) 0x400 ltac:(lia)) as Hdm.
    assert (Hm : (c - 0x10000) mod 0x400 = c mod 0x400).
    { replace c with ((c - 0x10000) + 0x40 * 0x400) at 2 by lia.
      now rewrite Z.mod_add by lia. }
    lia.
  - rewrite to_wchar_small by lia.
    rewrite utf16to32_plain by lia. now rewrite IH.
Qed.

Lemma utf16to32_utf32to16_sample :
  Forall is_scalar [0x1F600; 0x20AC]
  /\ utf16to32 (utf32to16 [0x1F600; 0x20AC]) = [0x1F600; 0x20AC].
Proof.
  assert (H : Forall is_scalar [0x1F600; 0x20AC])
    by (repeat constructor; unfold is_scalar; lia).
  split; [exact H | exact (utf16to32_utf32to16 _ H)].
Defined.


(** ** Per-byte facts, on every platform *)

Lemma byte_fact (P : Platform) (lo hi : Z) (f g : Platform -> Z -> Z) :
  forallb (fun Q => forallb (fun b => if between lo hi b then f Q b =? g Q b else true)
     all_chars) [MSVC; UnsignedChar] = true ->
  forall b, lo <= b <= hi -> 0 <= lo -> hi < 0x100 -> f P b = g P b.
Proof.
  intros Hall b Hb Hlo Hhi.
  assert (Hc : is_char b) by (unfold is_char; lia).
  cbn [forallb] in Hall. rewrite andb_true_r in Hall.
  apply andb_true_iff in Hall. destruct Hall as [Hs Hu].
  assert (H : (if between lo hi b then f P b =? g P b else true) = true)
    by (destruct P as [[|]]; [exact (forall_char _ Hs b Hc)
                             | exact (forall_char _ Hu b Hc)]).
  rewrite between_true in H by lia. now apply Z.eqb_eq.
Qed.


Lemma int_of_char_ascii (P : Platform) (b : Z) :
  0 <= b <= 0x7F -> int_of_char b = b.
Proof.
  intros Hb.
  apply (byte_fact P 0 0x7F (fun Q b => @int_of_char Q b) (fun _ b => b));
    [vm_compute; reflexivity | lia..].
Qed.

Lemma width_of (P : Platform) (lo hi : Z) (w : nat) :
  forallb (fun Q => forallb (fun b => if between lo hi b
     then Nat.eqb (@utf8byte.implicit_length Q b) w else true)
     all_chars) [MSVC; UnsignedChar] = true ->
  forall b, lo <= b <= hi -> 0 <= lo -> hi < 0x100 ->
    utf8byte.implicit_length b = w.
Proof.
  intros Hall b Hb Hlo Hhi.
  assert (Hc : is_char b) by (unfold is_char; lia).
  cbn [forallb] in Hall. rewrite andb_true_r in Hall.
  apply andb_true_iff in Hall. destruct Hall as [Hs Hu].
  assert (H : (if between lo hi b
               then Nat.eqb (utf8byte.implicit_length b) w else true) = true)
    by (destruct P as [[|]]; [exact (forall_char _ Hs b Hc)
                             | exact (forall_char _ Hu b Hc)]).
  rewrite between_true in H by lia. now apply Nat.eqb_eq.
Qed.

Lemma width_ascii (P : Platform) (b : Z) :
  0 <= b <= 0x7F -> utf8byte.implicit_length b = 1%nat.
Proof. intros H. apply (width_of P 0 0x7F); [vm_compute; reflexivity | lia..]. Qed.

Lemma width_lead2 (P : Platform) (b : Z) :
  0xC2 <= b <= 0xDF -> utf8byte.implicit_length b = 2%nat.
Proof. intros H. apply (width_of P 0xC2 0xDF); [vm_compute; reflexivity | lia..]. Qed.

Lemma width_lead3 (P : Platform) (b : Z) :
  0xE0 <= b <= 0xEF -> utf8byte.implicit_length b = 3%nat.
Proof. intros H. apply (width_of P 0xE0 0xEF); [vm_compute; reflexivity | lia..]. Qed.

Lemma width_lead4 (P : Platform) (b : Z) :
  0xF0 <= b <= 0xF3 -> utf8byte.implicit_length b = 4%nat.
Proof. intros H. apply (width_of P 0xF0 0xF3); [vm_compute; reflexivity | lia..]. Qed.

Lemma width_trail (P : Platform) (b : Z) :
  0x80 <= b <= 0xBF -> utf8byte.implicit_length b = 0%nat.
Proof. intros H. apply (width_of P 0x80 0xBF); [vm_compute; reflexivity | lia..]. Qed.

Lemma payload_trail (P : Platform) (b : Z) :
  0x80 <= b <= 0xBF -> Z.land (int_of_char b) 0x3F = b - 0x80.
Proof.
  intros Hb.
  apply (byte_fact P 0x80 0xBF (fun Q b => Z.land (@int_of_char Q b) 0x3F)
                   (fun _ b => b - 0x80));
    [vm_compute; reflexivity | lia..].
Qed.

Lemma payload_lead2 (P : Platform) (b : Z) :
  0xC0 <= b <= 0xDF -> Z.land (int_of_char b) 0x1F = b - 0xC0.
Proof.
  intros Hb.
  apply (byte_fact P 0xC0 0xDF (fun Q b => Z.land (@int_of_char Q b) 0x1F)
                   (fun _ b => b - 0xC0));
    [vm_compute; reflexivity | lia..].
Qed.

Lemma payload_lead3 (P : Platform) (b : Z) :
  0xE0 <= b <= 0xEF -> Z.land (int_of_char b) 0x0F = b - 0xE0.
Proof.
  intros Hb.
  apply (byte_fact P 0xE0 0xEF (fun Q b => Z.land (@int_of_char Q b) 0x0F)
                   (fun _ b => b - 0xE0));
    [vm_compute; reflexivity | lia..].
Qed.

Lemma payload_lead4 (P : Platform) (b : Z) :
  0xF0 <= b <= 0xF7 -> Z.land (int_of_char b) 0x07 = b - 0xF0.
Proof.
  intros Hb.
  apply (byte_fact P 0xF0 0xF7 (fun Q b => Z.land (@int_of_char Q b) 0x07)
                   (fun _ b => b - 0xF0));
    [vm_compute; reflexivity | lia..].
Qed.

Lemma isTrail_true (P : Platform) (b : Z) :
  0x80 <= b <= 0xBF -> utf8byte.isTrail b = true.
Proof.
  intros Hb. rewrite (isTrail_between P) by (unfold is_char; lia).
  apply between_true; lia.
Qed.

Lemma lor_mul_add (m y n : Z) :
  0 <= n -> 0 <= y < 2 ^ n -> Z.lor (m * 2 ^ n) y = m * 2 ^ n + y.
Proof.
  intros Hn Hy. rewrite <- Z.shiftl_mul_pow2 by lia.
  rewrite lor_shiftl_add by lia. now rewrite Z.shiftl_mul_pow2 by lia.
Qed.

Lemma to32_2_value (P : Platform) (b1 b2 : Z) :
  0xC0 <= b1 <= 0xDF -> 0x80 <= b2 <= 0xBF ->
  utf8byte.to32_2 b1 b2 = (b1 - 0xC0) * 0x40 + (b2 - 0x80).
Proof.
  intros H1 H2. unfold utf8byte.to32_2.
  rewrite payload_lead2, payload_trail by lia.
  rewrite lor_shiftl_add by lia.
  rewrite to_char32_small by lia. reflexivity.
Qed.

Lemma to32_3_value (P : Platform) (b1 b2 b3 : Z) :
  0xE0 <= b1 <= 0xEF -> 0x80 <= b2 <= 0xBF -> 0x80 <= b3 <= 0xBF ->
  utf8byte.to32_3 b1 b2 b3
  = (b1 - 0xE0) * 0x1000 + (b2 - 0x80) * 0x40 + (b3 - 0x80).
Proof.
  intros H1 H2 H3. unfold utf8byte.to32_3.
  rewrite payload_lead3, !payload_trail by lia.
  rewrite (Z.shiftl_mul_pow2 (b2 - 0x80)) by lia.
  rewrite lor_shiftl_add by lia.
  replace ((b1 - 0xE0) * 2 ^ 12 + (b2 - 0x80) * 2 ^ 6)
    with (((b1 - 0xE0) * 0x40 + (b2 - 0x80)) * 2 ^ 6) by lia.
  rewrite lor_mul_add by lia.
  rewrite to_char32_small by lia. lia.
Qed.

Lemma to32_4_value (P : Platform) (b1 b2 b3 b4 : Z) :
  0xF0 <= b1 <= 0xF7 -> 0x80 <= b2 <= 0xBF -> 0x80 <= b3 <= 0xBF ->
  0x80 <= b4 <= 0xBF ->
  utf8byte.to32_4 b1 b2 b3 b4
  = (b1 - 0xF0) * 0x40000 + (b2 - 0x80) * 0x1000 + (b3 - 0x80) * 0x40
    + (b4 - 0x80).
Proof.
  intros H1 H2 H3 H4. unfold utf8byte.to32_4.
  rewrite payload_lead4, !payload_trail by lia.
  rewrite (Z.shiftl_mul_pow2 (b2 - 0x80)), (Z.shiftl_mul_pow2 (b3 - 0x80))
    by lia.
  rewrite lor_shiftl_add by lia.
  replace ((b1 - 0xF0) * 2 ^ 18 + (b2 - 0x80) * 2 ^ 12)
    with (((b1 - 0xF0) * 0x40 + (b2 - 0x80)) * 2 ^ 12) by lia.
  rewrite lor_mul_add by lia.
  replace (((b1 - 0xF0) * 0x40 + (b2 - 0x80)) * 2 ^ 12 + (b3 - 0x80) * 2 ^ 6)
    with ((((b1 - 0xF0) * 0x40 + (b2 - 0x80)) * 0x40 + (b3 - 0x80)) * 2 ^ 6)
    by lia.
  rewrite lor_mul_add by lia.
  rewrite to_char32_small by lia. lia.
Qed.

(** ** Decoding one well-formed sequence *)

Lemma pair3_range (b1 b2 : Z) : pair3 b1 b2 = true -> 0x80 <= b2 <= 0xBF.
Proof.
  unfold pair3. destruct (b1 =? 0xE0); [|destruct (b1 =? 0xED)];
    rewrite between_iff; lia.
Qed.

Lemma pair4_range (b1 b2 : Z) : pair4 b1 b2 = true -> 0x80 <= b2 <= 0xBF.
Proof.
  unfold pair4. destruct (b1 =? 0xF0); [|destruct (b1 =? 0xF4)];
    rewrite between_iff; lia.
Qed.

Lemma badPair_three (P : Platform) (b1 b2 : Z) :
  0xE0 <= b1 <= 0xEF -> pair3 b1 b2 = true ->
  utf8byte.badPair (uchar_of_char b1) (uchar_of_char b2) = false.
Proof.
  intros H1 Hp. pose proof (pair3_range _ _ Hp) as H2.
  pose proof (valid_pair_three P b1 b2) as H. fold (pair3 b1 b2) in H.
  rewrite Hp in H.
  specialize (H ltac:(unfold is_char; lia) ltac:(unfold is_char; lia)
                (between_true _ _ _ H1)).
  apply andb_true_iff in H. destruct H as [H _].
  now apply negb_true_iff in H.
Qed.

Lemma badPair_four (P : Platform) (b1 b2 : Z) :
  0xF0 <= b1 <= 0xF4 -> pair4 b1 b2 = true ->
  utf8byte.badPair (uchar_of_char b1) (uchar_of_char b2) = false.
Proof.
  intros H1 Hp. pose proof (pair4_range _ _ Hp) as H2.
  pose proof (valid_pair_four P b1 b2) as H. fold (pair4 b1 b2) in H.
  rewrite Hp in H.
  specialize (H ltac:(unfold is_char; lia) ltac:(unfold is_char; lia)
                (between_true _ _ _ H1)).
  apply andb_true_iff in H. destruct H as [H _].
  now apply negb_true_iff in H.
Qed.

Section DecodeSteps.
Context (P : Platform) (p : InvalidUnicode).

Lemma utf8to32_ascii (b : Z) (rest : list char) :
  0 <= b <= 0x7F -> utf8to32 (b :: rest) p = emit b (utf8to32 rest p).
Proof.
  intros Hb. cbn [utf8to32]. rewrite width_ascii by lia.
  rewrite int_of_char_ascii, to_char32_small by lia. reflexivity.
Qed.

Lemma utf8to16_ascii (b : Z) (rest : list char) :
  0 <= b <= 0x7F -> utf8to16 (b :: rest) p = b :: utf8to16 rest p.
Proof.
  intros Hb. cbn [utf8to16]. rewrite width_ascii by lia.
  rewrite int_of_char_ascii, to_wchar_small by lia. reflexivity.
Qed.

Lemma utf8to32_two (b1 b2 : Z) (rest : list char) :
  0xC2 <= b1 <= 0xDF -> 0x80 <= b2 <= 0xBF ->
  utf8to32 (b1 :: b2 :: rest) p
  = emit ((b1 - 0xC0) * 0x40 + (b2 - 0x80)) (utf8to32 rest p).
Proof.
  intros H1 H2. cbn [utf8to32]. rewrite width_lead2 by lia.
  rewrite isTrail_true by lia. cbn [negb].
  rewrite to32_2_value by lia. reflexivity.
Qed.

Lemma utf8to16_two (b1 b2 : Z) (rest : list char) :
  0xC2 <= b1 <= 0xDF -> 0x80 <= b2 <= 0xBF ->
  utf8to16 (b1 :: b2 :: rest) p
  = (b1 - 0xC0) * 0x40 + (b2 - 0x80) :: utf8to16 rest p.
Proof.
  intros H1 H2. cbn [utf8to16]. rewrite width_lead2 by lia.
  rewrite isTrail_true by lia. cbn [negb].
  rewrite to32_2_value, to_wchar_small by lia. reflexivity.
Qed.

Lemma rejects_pair_three (b1 b2 : Z) :
  0xE0 <= b1 <= 0xEF -> pair3 b1 b2 = true -> rejects_pair p b1 b2 = false.
Proof.
  intros H1 Hp. unfold rejects_pair.
  rewrite (badPair_three P) by assumption. apply andb_false_r.
Qed.

Lemma utf8to32_three (b1 b2 b3 : Z) (rest : list char) :
  0xE0 <= b1 <= 0xEF -> pair3 b1 b2 = true -> 0x80 <= b3 <= 0xBF ->
  utf8to32 (b1 :: b2 :: b3 :: rest) p
  = emit ((b1 - 0xE0) * 0x1000 + (b2 - 0x80) * 0x40 + (b3 - 0x80))
         (utf8to32 rest p).
Proof.
  intros H1 Hp H3. pose proof (pair3_range _ _ Hp) as H2.
  cbn [utf8to32]. rewrite width_lead3 by lia.
  rewrite !isTrail_true by lia. cbn [negb orb].
  rewrite rejects_pair_three by assumption.
  rewrite to32_3_value, to_wchar_small by lia. reflexivity.
Qed.

Lemma utf8to16_three (b1 b2 b3 : Z) (rest : list char) :
  0xE0 <= b1 <= 0xEF -> pair3 b1 b2 = true -> 0x80 <= b3 <= 0xBF ->
  utf8to16 (b1 :: b2 :: b3 :: rest) p
  = (b1 - 0xE0) * 0x1000 + (b2 - 0x80) * 0x40 + (b3 - 0x80)
    :: utf8to16 rest p.
Proof.
  intros H1 Hp H3. pose proof (pair3_range _ _ Hp) as H2.
  cbn [utf8to16]. rewrite width_lead3 by lia.
  rewrite !isTrail_true by lia. cbn [negb orb].
  rewrite rejects_pair_three by assumption.
  rewrite to32_3_value, to_wchar_small by lia. reflexivity.
Qed.

Lemma utf8to16_four (b1 b2 b3 b4 : Z) (rest : list char) :
  0xF0 <= b1 <= 0xF4 -> utf8byte.implicit_length b1 = 4%nat ->
  pair4 b1 b2 = true -> 0x80 <= b3 <= 0xBF -> 0x80 <= b4 <= 0xBF ->
  utf8to16 (b1 :: b2 :: b3 :: b4 :: rest) p
  = utf32to16 [(b1 - 0xF0) * 0x40000 + (b2 - 0x80) * 0x1000
               + (b3 - 0x80) * 0x40 + (b4 - 0x80)]
    ++ utf8to16 rest p.
Proof.
  intros H1 Hw Hp H3 H4. pose proof (pair4_range _ _ Hp) as H2.
  cbn [utf8to16]. rewrite Hw.
  unfold utf8byte.valid_trail_4.
  rewrite (badPair_four P) by assumption.
  rewrite !isTrail_true by lia. cbn [negb andb].
  rewrite to32_4_value by lia.
  set (v := (b1 - 0xF0) * 0x40000 + (b2 - 0x80) * 0x1000
            + (b3 - 0x80) * 0x40 + (b4 - 0x80)).
  assert (Hv : 0x10000 <= v).
  { unfold pair4 in Hp. subst v.
    destruct (Z.eqb_spec b1 0xF0); [apply between_iff in Hp|]; lia. }
  cbn [utf32to16 app]. destruct (Z.leb_spec 0x10000 v); [|lia].
  reflexivity.
Qed.
End DecodeSteps.

(** ** The standard encoding, bytes and values *)

Lemma standard_utf8_two (b1 b2 : Z) :
  0xC2 <= b1 <= 0xDF -> 0x80 <= b2 <= 0xBF ->
  standard_utf8 ((b1 - 0xC0) * 0x40 + (b2 - 0x80)) = [b1; b2].
Proof.
  intros H1 H2. set (v := (b1 - 0xC0) * 0x40 + (b2 - 0x80)).
  assert (Hq : v / 0x40 = b1 - 0xC0)
    by (symmetry; apply Z.div_unique with (r := b2 - 0x80); lia).
  assert (Hr : v mod 0x40 = b2 - 0x80)
    by (symmetry; apply Z.mod_unique with (q := b1 - 0xC0); lia).
  unfold standard_utf8.
  destruct (Z.ltb_spec v 0x80); [lia|].
  destruct (Z.ltb_spec v 0x800); [|lia].
  rewrite Hq, Hr. f_equal; [lia | f_equal; lia].
Qed.

Lemma three_value_range (b1 b2 b3 : Z) :
  0xE0 <= b1 <= 0xEF -> pair3 b1 b2 = true -> 0x80 <= b3 <= 0xBF ->
  0x800 <= (b1 - 0xE0) * 0x1000 + (b2 - 0x80) * 0x40 + (b3 - 0x80) < 0x10000
  /\ ~ (0xD800 <= (b1 - 0xE0) * 0x1000 + (b2 - 0x80) * 0x40 + (b3 - 0x80)
        <= 0xDFFF).
Proof.
  intros H1 Hp H3. pose proof (pair3_range _ _ Hp) as H2.
  unfold pair3 in Hp.
  destruct (Z.eqb_spec b1 0xE0); [apply between_iff in Hp; lia|].
  destruct (Z.eqb_spec b1 0xED); [apply between_iff in Hp; lia|].
  lia.
Qed.

Lemma standard_utf8_three (b1 b2 b3 : Z) :
  0xE0 <= b1 <= 0xEF -> pair3 b1 b2 = true -> 0x80 <= b3 <= 0xBF ->
  standard_utf8 ((b1 - 0xE0) * 0x1000 + (b2 - 0x80) * 0x40 + (b3 - 0x80))
  = [b1; b2; b3].
Proof.
  intros H1 Hp H3. pose proof (pair3_range _ _ Hp) as H2.
  pose proof (three_value_range b1 b2 b3 H1 Hp H3) as [Hv _].
  set (v := (b1 - 0xE0) * 0x1000 + (b2 - 0x80) * 0x40 + (b3 - 0x80)) in *.
  assert (Hq : v / 0x1000 = b1 - 0xE0)
    by (symmetry;
        apply Z.div_unique with (r := (b2 - 0x80) * 0x40 + (b3 - 0x80)); lia).
  assert (Hq2 : v / 0x40 = (b1 - 0xE0) * 0x40 + (b2 - 0x80))
    by (symmetry; apply Z.div_unique with (r := b3 - 0x80); lia).
  assert (Hm : (v / 0x40) mod 0x40 = b2 - 0x80)
    by (rewrite Hq2; symmetry; apply Z.mod_unique with (q := b1 - 0xE0); lia).
  assert (Hr : v mod 0x40 = b3 - 0x80)
    by (symmetry;
        apply Z.mod_unique with (q := (b1 - 0xE0) * 0x40 + (b2 - 0x80)); lia).
  unfold standard_utf8.
  destruct (Z.ltb_spec v 0x80); [lia|].
  destruct (Z.ltb_spec v 0x800); [lia|].
  destruct (Z.ltb_spec v 0x10000); [|lia].
  rewrite Hq, Hm, Hr. repeat (f_equal; try lia).
Qed.

Lemma four_value_range (b1 b2 b3 b4 : Z) :
  0xF0 <= b1 <= 0xF4 -> pair4 b1 b2 = true -> 0x80 <= b3 <= 0xBF ->
  0x80 <= b4 <= 0xBF ->
  0x10000 <= (b1 - 0xF0) * 0x40000 + (b2 - 0x80) * 0x1000
             + (b3 - 0x80) * 0x40 + (b4 - 0x80) <= 0x10FFFF.
Proof.
  intros H1 Hp H3 H4. pose proof (pair4_range _ _ Hp) as H2.
  unfold pair4 in Hp.
  destruct (Z.eqb_spec b1 0xF0); [apply between_iff in Hp; lia|].
  destruct (Z.eqb_spec b1 0xF4); [apply between_iff in Hp; lia|].
  lia.
Qed.

Lemma standard_utf8_four (b1 b2 b3 b4 : Z) :
  0xF0 <= b1 <= 0xF4 -> pair4 b1 b2 = true -> 0x80 <= b3 <= 0xBF ->
  0x80 <= b4 <= 0xBF ->
  standard_utf8 ((b1 - 0xF0) * 0x40000 + (b2 - 0x80) * 0x1000
                 + (b3 - 0x80) * 0x40 + (b4 - 0x80))
  = [b1; b2; b3; b4].
Proof.
  intros H1 Hp H3 H4. pose proof (pair4_range _ _ Hp) as H2.
  pose proof (four_value_range b1 b2 b3 b4 H1 Hp H3 H4) as Hv.
  set (v := (b1 - 0xF0) * 0x40000 + (b2 - 0x80) * 0x1000
            + (b3 - 0x80) * 0x40 + (b4 - 0x80)) in *.
  assert (Hq : v / 0x40000 = b1 - 0xF0)
    by (symmetry;
        apply Z.div_unique
          with (r := (b2 - 0x80) * 0x1000 + (b3 - 0x80) * 0x40 + (b4 - 0x80));
        lia).
  assert (Hq2 : v / 0x1000 = (b1 - 0xF0) * 0x40 + (b2 - 0x80))
    by (symmetry;
        apply Z.div_unique with (r := (b3 - 0x80) * 0x40 + (b4 - 0x80)); lia).
  assert (Hq3 : v / 0x40
                = ((b1 - 0xF0) * 0x40 + (b2 - 0x80)) * 0x40 + (b3 - 0x80))
    by (symmetry; apply Z.div_unique with (r := b4 - 0x80); lia).
  assert (Hm2 : (v / 0x1000) mod 0x40 = b2 - 0x80)
    by (rewrite Hq2; symmetry; apply Z.mod_unique with (q := b1 - 0xF0); lia).
  assert (Hm3 : (v / 0x40) mod 0x40 = b3 - 0x80)
    by (rewrite Hq3; symmetry;
        apply Z.mod_unique with (q := (b1 - 0xF0) * 0x40 + (b2 - 0x80)); lia).
  assert (Hr : v mod 0x40 = b4 - 0x80)
    by (symmetry;
        apply Z.mod_unique
          with (q := ((b1 - 0xF0) * 0x40 + (b2 - 0x80)) * 0x40 + (b3 - 0x80));
        lia).
  unfold standard_utf8.
  destruct (Z.ltb_spec v 0x80); [lia|].
  destruct (Z.ltb_spec v 0x800); [lia|].
  destruct (Z.ltb_spec v 0x10000); [lia|].
  rewrite Hq, Hm2, Hm3, Hr. repeat (f_equal; try lia).
Qed.

(** The encoder on one code point. *)
Lemma utf32to8_unit_standard (p : InvalidUnicode) (c : Z) :
  is_scalar c -> c <> 0x10000 -> utf32to8_unit p c = standard_utf8 c.
Proof.
  intros Hc Hne. pose proof Hc as [[Hlo Hhi] _].
  unfold utf32to8_unit, standard_utf8.
  destruct (Z.ltb_spec c 0x80); [apply encode_1_standard; lia|].
  destruct (Z.ltb_spec c 0x800); [apply encode_2_standard; lia|].
  rewrite scalar_not_surrogate by exact Hc.
  destruct (Z.leb_spec c 0x10000).
  - destruct (Z.ltb_spec c 0x10000); [|lia]. apply encode_3_standard; lia.
  - destruct (Z.ltb_spec c 0x10000); [lia|].
    destruct (Z.leb_spec c 0x110000); [|lia]. apply encode_4_standard; lia.
Qed.

Lemma utf16to8_small (p : InvalidUnicode) (c : Z) (w : list wchar_t) :
  0 <= c < 0x800 -> utf16to8 (c :: w) p = standard_utf8 c ++ utf16to8 w p.
Proof.
  intros Hc. cbn [utf16to8]. unfold standard_utf8.
  destruct (Z.ltb_spec c 0x80); [now rewrite encode_1_standard by lia|].
  destruct (Z.ltb_spec c 0x800); [|lia].
  now rewrite encode_2_standard by lia.
Qed.

Lemma utf32to16_supplementary (v : Z) :
  0x10000 <= v <= 0x10FFFF ->
  utf32to16 [v] = [0xD800 + (v - 0x10000) / 0x400; 0xDC00 + v mod 0x400]
  /\ 0xD800 <= 0xD800 + (v - 0x10000) / 0x400 <= 0xDBFF
  /\ 0xDC00 <= 0xDC00 + v mod 0x400 <= 0xDFFF
  /\ 0x10000 + (0xD800 + (v - 0x10000) / 0x400 - 0xD800) * 0x400
     + (0xDC00 + v mod 0x400 - 0xDC00) = v.
Proof.
  intros Hv.
  assert (Hq : 0 <= (v - 0x10000) / 0x400 < 0x400)
    by (split; [apply Z.div_pos | apply Z.div_lt_upper_bound]; lia).
  assert (Hr : 0 <= v mod 0x400 < 0x400) by (apply Z.mod_pos_bound; lia).
  split; [|split; [lia|split; [lia|]]].
  - cbn [utf32to16]. destruct (Z.leb_spec 0x10000 v); [|lia].
    rewrite to_char32_small by lia. rewrite shiftr_10, land_3FF.
    now rewrite !to_wchar_small by lia.
  - pose proof (Z.div_mod (v - 0x10000) 0x400 ltac:(lia)) as Hdm.
    assert (Hm : (v - 0x10000) mod 0x400 = v mod 0x400).
    { replace v with ((v - 0x10000) + 0x40 * 0x400) at 2 by lia.
      now rewrite Z.mod_add by lia. }
    lia.
Qed.

Lemma utf16to8_surrogate_pair (p : InvalidUnicode) (h l : Z)
      (w : list wchar_t) :
  0xD800 <= h <= 0xDBFF -> 0xDC00 <= l <= 0xDFFF ->
  utf16to8 (h :: l :: w) p
  = standard_utf8 (0x10000 + (h - 0xD800) * 0x400 + (l - 0xDC00))
    ++ utf16to8 w p.
Proof.
  intros Hh Hl. cbn [utf16to8].
  destruct (Z.ltb_spec h 0x80); [lia|].
  destruct (Z.ltb_spec h 0x800); [lia|].
  rewrite three_byte_guard_never.
  destruct (Z.leb_spec 0xDC00 l); [|lia].
  destruct (Z.leb_spec l 0xDFFF); [|lia].
  cbn [andb]. rewrite pair_code_point by lia.
  set (v := 0x10000 + (h - 0xD800) * 0x400 + (l - 0xDC00)).
  assert (Hv : 0x10000 <= v <= 0x10FFFF) by (unfold v; lia).
  rewrite encode_4_standard by lia.
  unfold standard_utf8.
  destruct (Z.ltb_spec v 0x80); [lia|].
  destruct (Z.ltb_spec v 0x800); [lia|].
  destruct (Z.ltb_spec v 0x10000); [lia|]. reflexivity.
Qed.

(** X7.  For every code point [v] from U+10000 to U+10FFFF, [utf16to8]
    turns the surrogate pair [utf32to16] writes for [v] into the standard
    four-byte UTF-8 encoding of [v]. *)
Theorem utf16to8_supplementary (p : InvalidUnicode) (v : Z)
      (w : list wchar_t) :
  0x10000 <= v <= 0x10FFFF ->
  utf16to8 (utf32to16 [v] ++ w) p = standard_utf8 v ++ utf16to8 w p.
Proof.
  intros Hv.
  destruct (utf32to16_supplementary v Hv) as (-> & Hh & Hl & Hback).
  cbn [app]. rewrite utf16to8_surrogate_pair by assumption.
  now rewrite Hback.
Qed.

Lemma utf16to8_supplementary_grin :
  0x10000 <= 0x1F600 <= 0x10FFFF
  /\ utf16to8 (utf32to16 [0x1F600] ++ [0x41]) Substitute
     = standard_utf8 0x1F600 ++ utf16to8 [0x41] Substitute.
Proof.
  assert (H : 0x10000 <= 0x1F600 <= 0x10FFFF) by lia.
  split; [exact H | exact (utf16to8_supplementary Substitute 0x1F600 [0x41] H)].
Defined.


(** ** Round trips of well-formed UTF-8 *)

Lemma round_trip_32_emit (P : Platform) (p : InvalidUnicode)
      (s rest : list char) (v : Z) :
  utf8to32 s p = emit v (utf8to32 rest p) ->
  round_trip_32 p s
  = option_map (app (utf32to8_unit p v)) (round_trip_32 p rest).
Proof.
  intros H. unfold round_trip_32. rewrite H.
  destruct (utf8to32 rest p); reflexivity.
Qed.

Lemma round_trip_32_bounded (P : Platform) (p : InvalidUnicode) (n : nat) :
  forall s, (length s <= n)%nat -> well_formed_utf8 s = true ->
    Forall (fun b => b < 0xF0) s -> round_trip_32 p s = Some s.
Proof.
  induction n as [|n IH]; intros s Hlen Hwf Hs.
  - destruct s; [reflexivity | cbn [length] in Hlen; lia].
  - destruct s as [|b1 s1]; [reflexivity|].
    cbn [length] in Hlen. cbn [well_formed_utf8] in Hwf.
    inversion Hs as [|? ? Hb1 Hs1]; subst.
    destruct (between 0x00 0x7F b1) eqn:E1.
    { apply between_iff in E1.
      rewrite (round_trip_32_emit P p _ s1 b1)
        by (apply utf8to32_ascii; lia).
      rewrite IH by (try assumption; lia). cbn [option_map].
      rewrite utf32to8_unit_standard by (unfold is_scalar; lia).
      unfold standard_utf8. destruct (Z.ltb_spec b1 0x80); [reflexivity|lia]. }
    destruct s1 as [|b2 s2]; [discriminate|].
    inversion Hs1 as [|? ? Hb2 Hs2]; subst. cbn [length] in Hlen.
    destruct (between 0xC2 0xDF b1) eqn:E2.
    { apply between_iff in E2. apply andb_true_iff in Hwf.
      destruct Hwf as [H2 Hwf]. apply between_iff in H2.
      rewrite (round_trip_32_emit P p _ s2 ((b1 - 0xC0) * 0x40 + (b2 - 0x80)))
        by (apply utf8to32_two; lia).
      rewrite IH by (try assumption; lia). cbn [option_map].
      rewrite utf32to8_unit_standard by (unfold is_scalar; lia).
      now rewrite standard_utf8_two by lia. }
    destruct s2 as [|b3 s3]; [discriminate|].
    inversion Hs2 as [|? ? Hb3 Hs3]; subst. cbn [length] in Hlen.
    destruct (between 0xE0 0xEF b1) eqn:E3.
    { apply between_iff in E3. fold (pair3 b1 b2) in Hwf.
      apply andb_true_iff in Hwf. destruct Hwf as [Hwf Hrest].
      apply andb_true_iff in Hwf. destruct Hwf as [Hp H3].
      apply between_iff in H3.
      pose proof (three_value_range b1 b2 b3 E3 Hp H3) as [Hv Hns].
      rewrite (round_trip_32_emit P p _ s3
                 ((b1 - 0xE0) * 0x1000 + (b2 - 0x80) * 0x40 + (b3 - 0x80)))
        by (apply utf8to32_three; assumption).
      rewrite IH by (try assumption; lia). cbn [option_map].
      rewrite utf32to8_unit_standard by (unfold is_scalar; lia).
      now rewrite standard_utf8_three by assumption. }
    destruct s3 as [|b4 s4]; [discriminate|].
    rewrite !andb_true_iff, between_iff in Hwf. lia.
Qed.

(** X8.  Well-formed UTF-8 without four-byte sequences (no byte from F0
    up) comes back unchanged from [utf8to32] followed by [utf32to8], on
    every platform and under every policy. *)
Theorem round_trip_32_well_formed (P : Platform) (p : InvalidUnicode)
        (s : list char) :
  well_formed_utf8 s = true -> Forall (fun b => b < 0xF0) s ->
  round_trip_32 p s = Some s.
Proof. apply (round_trip_32_bounded P p (length s)). apply Nat.le_refl. Qed.

Lemma declared_width_four (b : Z) :
  0xF0 <= b <= 0xF4 -> declared_width b = 4%nat.
Proof.
  intros Hb. unfold declared_width.
  destruct (Z.leb_spec b 0x7F); [lia|]. rewrite andb_false_r.
  destruct (Z.leb_spec b 0xDF); [lia|]. rewrite andb_false_r.
  destruct (Z.leb_spec b 0xEF); [lia|]. rewrite andb_false_r.
  destruct (Z.leb_spec 0xF0 b); [|lia].
  destruct (Z.leb_spec b 0xF4); [reflexivity|lia].
Qed.

Lemma round_trip_32_well_formed_sample :
  (well_formed_utf8 [0x41; 0xC3; 0xA9; 0xE2; 0x82; 0xAC] = true
   /\ Forall (fun b => b < 0xF0) [0x41; 0xC3; 0xA9; 0xE2; 0x82; 0xAC])
  /\ @round_trip_32 MSVC Substitute [0x41; 0xC3; 0xA9; 0xE2; 0x82; 0xAC]
     = Some [0x41; 0xC3; 0xA9; 0xE2; 0x82; 0xAC].
Proof.
  assert (Hw : well_formed_utf8 [0x41; 0xC3; 0xA9; 0xE2; 0x82; 0xAC] = true)
    by reflexivity.
  assert (Hs : Forall (fun b => b < 0xF0) [0x41; 0xC3; 0xA9; 0xE2; 0x82; 0xAC])
    by (repeat constructor; lia).
  split; [split; assumption|].
  exact (round_trip_32_well_formed MSVC Substitute _ Hw Hs).
Defined.


Lemma round_trip_16_bounded (P : Platform) (p : InvalidUnicode) (n : nat) :
  forall s, (length s <= n)%nat -> well_formed_utf8 s = true ->
    Forall (fun b => ~ (0xE0 <= b <= 0xEF)) s ->
    Forall (fun b => utf8byte.implicit_length b = declared_width b) s ->
    round_trip_16 p s = s.
Proof.
  induction n as [|n IH]; intros s Hlen Hwf Hs Hw.
  - destruct s; [reflexivity | cbn [length] in Hlen; lia].
  - destruct s as [|b1 s1]; [reflexivity|].
    cbn [length] in Hlen. cbn [well_formed_utf8] in Hwf.
    inversion Hs as [|? ? Hb1 Hs1]; subst.
    inversion Hw as [|? ? Hw1 Hws1]; subst.
    unfold round_trip_16 in *.
    destruct (between 0x00 0x7F b1) eqn:E1.
    { apply between_iff in E1.
      rewrite utf8to16_ascii, utf16to8_small by lia.
      rewrite IH by (try assumption; lia).
      unfold standard_utf8. destruct (Z.ltb_spec b1 0x80); [reflexivity|lia]. }
    destruct s1 as [|b2 s2]; [discriminate|].
    inversion Hs1 as [|? ? Hb2 Hs2]; subst.
    inversion Hws1 as [|? ? Hw2 Hws2]; subst. cbn [length] in Hlen.
    destruct (between 0xC2 0xDF b1) eqn:E2.
    { apply between_iff in E2. apply andb_true_iff in Hwf.
      destruct Hwf as [H2 Hwf]. apply between_iff in H2.
      rewrite utf8to16_two, utf16to8_small by lia.
      rewrite IH by (try assumption; lia).
      now rewrite standard_utf8_two by lia. }
    destruct s2 as [|b3 s3]; [discriminate|].
    inversion Hs2 as [|? ? Hb3 Hs3]; subst.
    inversion Hws2 as [|? ? Hw3 Hws3]; subst. cbn [length] in Hlen.
    destruct (between 0xE0 0xEF b1) eqn:E3.
    { apply between_iff in E3. contradiction. }
    destruct s3 as [|b4 s4]; [discriminate|].
    inversion Hs3 as [|? ? Hb4 Hs4]; subst.
    inversion Hws3 as [|? ? Hw4 Hws4]; subst. cbn [length] in Hlen.
    fold (pair4 b1 b2) in Hwf.
    rewrite !andb_true_iff, !between_iff in Hwf.
    destruct Hwf as ((((H1 & Hp) & H3) & H4) & Hrest).
    rewrite declared_width_four in Hw1 by lia.
    rewrite utf8to16_four by assumption.
    match goal with
    | |- context [utf32to16 [?v]] =>
      destruct (utf32to16_supplementary v) as (Hu & Hh & Hl & Hback);
        [apply four_value_range; assumption|];
        rewrite Hu
    end.
    cbn [app]. rewrite utf16to8_surrogate_pair by assumption.
    rewrite Hback.
    rewrite IH by (try assumption; lia).
    now rewrite standard_utf8_four by assumption.
Qed.

(** X9.  Well-formed UTF-8 without three-byte sequences, on whose bytes
    [implicit_length] is the declared width, comes back unchanged from
    [utf8to16] followed by [utf16to8], under every policy. *)
Theorem round_trip_16_well_formed (P : Platform) (p : InvalidUnicode)
        (s : list char) :
  well_formed_utf8 s = true ->
  Forall (fun b => ~ (0xE0 <= b <= 0xEF)) s ->
  Forall (fun b => utf8byte.implicit_length b = declared_width b) s ->
  round_trip_16 p s = s.
Proof. apply (round_trip_16_bounded P p (length s)). apply Nat.le_refl. Qed.

(** ** Decoding what the encoder writes *)

Lemma digits_64 (c : Z) :
  0 <= c ->
  c = (c / 0x1000) * 0x1000 + ((c / 0x40) mod 0x40) * 0x40 + c mod 0x40
  /\ c = (c / 0x40000) * 0x40000 + ((c / 0x1000) mod 0x40) * 0x1000
         + ((c / 0x40) mod 0x40) * 0x40 + c mod 0x40.
Proof.
  intros Hc.
  pose proof (Z.div_mod c 0x40 ltac:(lia)) as H1.
  pose proof (Z.div_mod (c / 0x40) 0x40 ltac:(lia)) as H2.
  pose proof (Z.div_mod (c / 0x40 / 0x40) 0x40 ltac:(lia)) as H3.
  rewrite (Z.div_div c 0x40 0x40) in H2, H3 by lia.
  rewrite (Z.div_div c (0x40 * 0x40) 0x40) in H3 by lia.
  change (0x40 * 0x40) with 0x1000 in *.
  change (0x1000 * 0x40) with 0x40000 in *.
  lia.
Qed.

Lemma round_trip_16_well_formed_sample :
  (well_formed_utf8 [0x41; 0xC3; 0xA9; 0xF0; 0x9F; 0x98; 0x80] = true
   /\ Forall (fun b => ~ (0xE0 <= b <= 0xEF))
         [0x41; 0xC3; 0xA9; 0xF0; 0x9F; 0x98; 0x80]
   /\ Forall (fun b => @utf8byte.implicit_length MSVC b = declared_width b)
         [0x41; 0xC3; 0xA9; 0xF0; 0x9F; 0x98; 0x80])
  /\ @round_trip_16 MSVC Substitute [0x41; 0xC3; 0xA9; 0xF0; 0x9F; 0x98; 0x80]
     = [0x41; 0xC3; 0xA9; 0xF0; 0x9F; 0x98; 0x80].
Proof.
  assert (Hw : well_formed_utf8 [0x41; 0xC3; 0xA9; 0xF0; 0x9F; 0x98; 0x80]
               = true) by reflexivity.
  assert (Hs : Forall (fun b => ~ (0xE0 <= b <= 0xEF))
                 [0x41; 0xC3; 0xA9; 0xF0; 0x9F; 0x98; 0x80])
    by (repeat constructor; lia).
  assert (Hc : Forall (fun b => @utf8byte.implicit_length MSVC b
                                = declared_width b)
                 [0x41; 0xC3; 0xA9; 0xF0; 0x9F; 0x98; 0x80])
    by (repeat constructor; reflexivity).
  split; [repeat split; assumption|].
  exact (round_trip_16_well_formed MSVC Substitute _ Hw Hs Hc).
Defined.


Section DecodeStandard.
Context (P : Platform) (p : InvalidUnicode).

Lemma standard_bytes_three (c : Z) :
  0x800 <= c < 0x10000 -> ~ (0xD800 <= c <= 0xDFFF) ->
  0xE0 <= 0xE0 + c / 0x1000 <= 0xEF
  /\ pair3 (0xE0 + c / 0x1000) (0x80 + (c / 0x40) mod 0x40) = true
  /\ 0x80 <= 0x80 + c mod 0x40 <= 0xBF.
Proof.
  intros Hc Hns.
  pose proof (digits_64 c ltac:(lia)) as [Hd _].
  assert (H1 : 0 <= c / 0x1000 < 0x10)
    by (split; [apply Z.div_pos | apply Z.div_lt_upper_bound]; lia).
  assert (H2 : 0 <= (c / 0x40) mod 0x40 < 0x40) by (apply Z.mod_pos_bound; lia).
  assert (H3 : 0 <= c mod 0x40 < 0x40) by (apply Z.mod_pos_bound; lia).
  split; [lia|split; [|lia]].
  unfold pair3.
  destruct (Z.eqb_spec (0xE0 + c / 0x1000) 0xE0);
    [apply between_true; lia|].
  destruct (Z.eqb_spec (0xE0 + c / 0x1000) 0xED);
    apply between_true; lia.
Qed.

Lemma standard_bytes_four (c : Z) :
  0x10000 <= c <= 0x10FFFF ->
  0xF0 <= 0xF0 + c / 0x40000 <= 0xF4
  /\ pair4 (0xF0 + c / 0x40000) (0x80 + (c / 0x1000) mod 0x40) = true
  /\ 0x80 <= 0x80 + (c / 0x40) mod 0x40 <= 0xBF
  /\ 0x80 <= 0x80 + c mod 0x40 <= 0xBF.
Proof.
  intros Hc.
  pose proof (digits_64 c ltac:(lia)) as [_ Hd].
  assert (H1 : 0 <= c / 0x40000 < 0x5)
    by (split; [apply Z.div_pos | apply Z.div_lt_upper_bound]; lia).
  assert (H2 : 0 <= (c / 0x1000) mod 0x40 < 0x40)
    by (apply Z.mod_pos_bound; lia).
  assert (H3 : 0 <= (c / 0x40) mod 0x40 < 0x40) by (apply Z.mod_pos_bound; lia).
  assert (H4 : 0 <= c mod 0x40 < 0x40) by (apply Z.mod_pos_bound; lia).
  split; [lia|split; [|lia]].
  unfold pair4.
  destruct (Z.eqb_spec (0xF0 + c / 0x40000) 0xF0);
    [apply between_true; lia|].
  destruct (Z.eqb_spec (0xF0 + c / 0x40000) 0xF4);
    apply between_true; lia.
Qed.

Lemma utf8to32_standard (c : Z) (rest : list char) :
  is_scalar c -> c < 0x10000 ->
  utf8to32 (standard_utf8 c ++ rest) p = emit c (utf8to32 rest p).
Proof.
  intros [[Hlo Hhi] Hns] Hbmp. unfold standard_utf8.
  destruct (Z.ltb_spec c 0x80); [apply utf8to32_ascii; lia|].
  destruct (Z.ltb_spec c 0x800).
  - cbn [app].
    assert (Hb1 : 2 <= c / 0x40 < 0x20)
      by (split; [apply Z.div_le_lower_bound
                 | apply Z.div_lt_upper_bound]; lia).
    assert (Hb2 : 0 <= c mod 0x40 < 0x40) by (apply Z.mod_pos_bound; lia).
    rewrite utf8to32_two by lia. f_equal.
    pose proof (Z.div_mod c 0x40 ltac:(lia)). lia.
  - destruct (Z.ltb_spec c 0x10000); [|lia]. cbn [app].
    destruct (standard_bytes_three c ltac:(lia) Hns) as (Hb1 & Hp & Hb3).
    rewrite utf8to32_three by assumption. f_equal.
    pose proof (digits_64 c ltac:(lia)) as [Hd _]. lia.
Qed.

Lemma utf8to16_standard (c : Z) (rest : list char) :
  is_scalar c ->
  (0x10000 <= c -> utf8byte.implicit_length (0xF0 + c / 0x40000) = 4%nat) ->
  utf8to16 (standard_utf8 c ++ rest) p = utf32to16 [c] ++ utf8to16 rest p.
Proof.
  intros [[Hlo Hhi] Hns] Hw. unfold standard_utf8.
  assert (Hsmall : c < 0x10000 -> utf32to16 [c] = [c]).
  { intros Hc. cbn [utf32to16]. destruct (Z.leb_spec 0x10000 c); [lia|].
    now rewrite to_wchar_small by lia. }
  destruct (Z.ltb_spec c 0x80).
  { rewrite Hsmall by lia. apply utf8to16_ascii; lia. }
  destruct (Z.ltb_spec c 0x800).
  - rewrite Hsmall by lia. cbn [app].
    assert (Hb1 : 2 <= c / 0x40 < 0x20)
      by (split; [apply Z.div_le_lower_bound
                 | apply Z.div_lt_upper_bound]; lia).
    assert (Hb2 : 0 <= c mod 0x40 < 0x40) by (apply Z.mod_pos_bound; lia).
    rewrite utf8to16_two by lia. f_equal.
    pose proof (Z.div_mod c 0x40 ltac:(lia)). lia.
  - destruct (Z.ltb_spec c 0x10000).
    + rewrite Hsmall by lia. cbn [app].
      destruct (standard_bytes_three c ltac:(lia) Hns) as (Hb1 & Hp & Hb3).
      rewrite utf8to16_three by assumption. f_equal.
      pose proof (digits_64 c ltac:(lia)) as [Hd _]. lia.
    + cbn [app].
      destruct (standard_bytes_four c ltac:(lia)) as (Hb1 & Hp & Hb3 & Hb4).
      rewrite utf8to16_four by (try assumption; apply Hw; lia).
      do 3 f_equal.
      pose proof (digits_64 c ltac:(lia)) as [_ Hd]. lia.
Qed.
End DecodeStandard.

(** X10.  [utf8to32] undoes [utf32to8] on every sequence of scalar
    values of the Basic Multilingual Plane, on every platform and under
    every policy. *)
Theorem utf8to32_utf32to8 (P : Platform) (p : InvalidUnicode)
        (u : list char32_t) :
  Forall (fun c => is_scalar c /\ c < 0x10000) u ->
  utf8to32 (utf32to8 u p) p = Some u.
Proof.
  induction 1 as [|c u1 [Hc Hbmp] _ IH]; [reflexivity|].
  cbn [utf32to8]. rewrite utf32to8_unit_standard by (try assumption; lia).
  rewrite utf8to32_standard by assumption. rewrite IH. reflexivity.
Qed.

Lemma utf8to32_utf32to8_sample :
  Forall (fun c => is_scalar c /\ c < 0x10000) [0x41; 0xE9; 0x20AC]
  /\ @utf8to32 MSVC (utf32to8 [0x41; 0xE9; 0x20AC] Substitute) Substitute
     = Some [0x41; 0xE9; 0x20AC].
Proof.
  assert (H : Forall (fun c => is_scalar c /\ c < 0x10000)
                [0x41; 0xE9; 0x20AC])
    by (repeat constructor; unfold is_scalar; lia).
  split; [exact H | exact (utf8to32_utf32to8 MSVC Substitute _ H)].
Defined.


Lemma utf32to16_cons (c : char32_t) (u : list char32_t) :
  utf32to16 (c :: u) = utf32to16 [c] ++ utf32to16 u.
Proof. cbn [utf32to16]. destruct (0x10000 <=? c); reflexivity. Qed.

Lemma width_lead4_unsigned (P : Platform) (b : Z) :
  char_signed = false -> 0xF0 <= b <= 0xF4 ->
  utf8byte.implicit_length b = 4%nat.
Proof.
  intros Hu Hb. destruct P as [[|]]; [discriminate|].
  apply Nat.eqb_eq.
  assert (Hc : is_char b) by (unfold is_char; lia).
  pose proof (forall_char
    (fun b => if between 0xF0 0xF4 b
              then Nat.eqb (@utf8byte.implicit_length
                              {| char_signed := false |} b) 4
              else true) ltac:(vm_compute; reflexivity) b Hc) as H.
  cbv beta in H. now rewrite between_true in H by lia.
Qed.

(** X11.  On scalar values other than U+10000 (and below U+100000 when
    [char] is signed), [utf32to8] followed by [utf8to16] is [utf32to16]. *)
Theorem utf8to16_utf32to8 (P : Platform) (p : InvalidUnicode)
        (u : list char32_t) :
  Forall (fun c => is_scalar c /\ c <> 0x10000
                   /\ (char_signed = true -> c < 0x100000)) u ->
  utf8to16 (utf32to8 u p) p = utf32to16 u.
Proof.
  induction 1 as [|c u1 (Hc & Hne & Hplane) _ IH]; [reflexivity|].
  cbn [utf32to8]. rewrite utf32to8_unit_standard by assumption.
  rewrite utf8to16_standard; [now rewrite IH, <- utf32to16_cons | exact Hc |].
  intros Hbig. destruct Hc as [[Hlo Hhi] _].
  assert (Hq : 0 <= c / 0x40000 < 5)
    by (split; [apply Z.div_pos | apply Z.div_lt_upper_bound]; lia).
  destruct (char_signed) eqn:Hs.
  - apply width_lead4. specialize (Hplane eq_refl).
    assert (c / 0x40000 < 4) by (apply Z.div_lt_upper_bound; lia). lia.
  - apply width_lead4_unsigned; [exact Hs | lia].
Qed.

Lemma utf8to16_utf32to8_sample :
  Forall (fun c => is_scalar c /\ c <> 0x10000
                   /\ (@char_signed MSVC = true -> c < 0x100000))
         [0x41; 0x20AC; 0x1F600]
  /\ @utf8to16 MSVC (utf32to8 [0x41; 0x20AC; 0x1F600] Substitute) Substitute
     = utf32to16 [0x41; 0x20AC; 0x1F600].
Proof.
  assert (H : Forall (fun c => is_scalar c /\ c <> 0x10000
                               /\ (@char_signed MSVC = true -> c < 0x100000))
                [0x41; 0x20AC; 0x1F600])
    by (repeat constructor; unfold is_scalar; intros; lia).
  split; [exact H | exact (utf8to16_utf32to8 MSVC Substitute _ H)].
Defined.


(** ** ASCII, concatenation and sizes *)

(** X12.  All six converters leave a sequence of ASCII values (0..0x7F)
    unchanged, on every platform and under every policy. *)
Theorem ascii_unchanged (P : Platform) (p : InvalidUnicode) (s : list Z) :
  Forall (fun b => 0 <= b <= 0x7F) s ->
  utf8to32 s p = Some s /\ utf8to16 s p = s
  /\ utf32to8 s p = s /\ utf16to8 s p = s
  /\ utf16to32 s = s /\ utf32to16 s = s.
Proof.
  induction 1 as [|b s1 Hb _ (H32 & H16 & H8 & H8' & Hw & Hn)];
    [repeat split; reflexivity|].
  repeat split.
  - rewrite utf8to32_ascii, H32 by lia. reflexivity.
  - rewrite utf8to16_ascii, H16 by lia. reflexivity.
  - cbn [utf32to8]. rewrite H8.
    rewrite utf32to8_unit_standard by (unfold is_scalar; lia).
    unfold standard_utf8. destruct (Z.ltb_spec b 0x80); [reflexivity|lia].
  - rewrite utf16to8_small, H8' by lia.
    unfold standard_utf8. destruct (Z.ltb_spec b 0x80); [reflexivity|lia].
  - rewrite utf16to32_plain, Hw by lia. reflexivity.
  - cbn [utf32to16]. destruct (Z.leb_spec 0x10000 b); [lia|].
    rewrite to_wchar_small, Hn by lia. reflexivity.
Qed.

Lemma ascii_unchanged_sample :
  Forall (fun b => 0 <= b <= 0x7F) [0x48; 0x69]
  /\ @utf8to32 MSVC [0x48; 0x69] Substitute = Some [0x48; 0x69]
  /\ utf16to8 [0x48; 0x69] Substitute = [0x48; 0x69].
Proof.
  assert (H : Forall (fun b => 0 <= b <= 0x7F) [0x48; 0x69])
    by (repeat constructor; lia).
  split; [exact H|].
  destruct (ascii_unchanged MSVC Substitute _ H) as (H32 & _ & _ & H8 & _).
  split; [exact H32 | exact H8].
Defined.


Lemma utf16to8_app_bounded (p : InvalidUnicode) (v : list wchar_t)
      (n : nat) :
  (forall d, hd_error v = Some d -> is_low_surrogate d = false) ->
  forall u, (length u <= n)%nat ->
    utf16to8 (u ++ v) p = utf16to8 u p ++ utf16to8 v p.
Proof.
  intros Hv. induction n as [|n IH]; intros u Hlen.
  - destruct u; [reflexivity | cbn [length] in Hlen; lia].
  - destruct u as [|c w1]; [reflexivity|].
    cbn [length] in Hlen.
    assert (IH1 : utf16to8 (w1 ++ v) p = utf16to8 w1 p ++ utf16to8 v p)
      by (apply IH; lia).
    change ((c :: w1) ++ v) with (c :: (w1 ++ v)).
    cbn [utf16to8]. rewrite !IH1.
    destruct (c <? 0x80); [now rewrite app_assoc|].
    destruct (c <? 0x800); [now rewrite app_assoc|].
    destruct ((c <? 0xD800) && (0xDFFF <? c)); [now rewrite app_assoc|].
    destruct w1 as [|d w2].
    + cbn [app]. destruct v as [|d v2]; [now rewrite app_assoc|].
      specialize (Hv d eq_refl). unfold is_low_surrogate in Hv.
      rewrite Hv. now rewrite app_assoc.
    + cbn [app]. cbn [length] in Hlen. rewrite (IH w2) by lia.
      destruct ((0xDC00 <=? d) && (d <=? 0xDFFF)); now rewrite app_assoc.
Qed.

(** X13.  [utf16to8] of a concatenation is the concatenation of the two
    results whenever the second part does not begin with a low
    surrogate. *)
Theorem utf16to8_app (p : InvalidUnicode) (u v : list wchar_t) :
  (forall d, hd_error v = Some d -> is_low_surrogate d = false) ->
  utf16to8 (u ++ v) p = utf16to8 u p ++ utf16to8 v p.
Proof.
  intros Hv. apply (utf16to8_app_bounded p v (length u) Hv). apply Nat.le_refl.
Qed.

Lemma utf16to8_app_sample :
  (forall d, hd_error [0x41] = Some d -> is_low_surrogate d = false)
  /\ utf16to8 ([0xD83D] ++ [0x41]) Substitute
     = utf16to8 [0xD83D] Substitute ++ utf16to8 [0x41] Substitute.
Proof.
  assert (H : forall d, hd_error [0x41] = Some d -> is_low_surrogate d = false)
    by (intros d Hd; injection Hd as <-; reflexivity).
  split; [exact H | exact (utf16to8_app Substitute [0xD83D] [0x41] H)].
Defined.


(** X14.  [utf32to8] and [utf32to16] encode each code point on its own:
    they distribute over concatenation, wherever the input is cut. *)
Theorem utf32_encoders_app (p : InvalidUnicode) (u v : list char32_t) :
  utf32to8 (u ++ v) p = utf32to8 u p ++ utf32to8 v p
  /\ utf32to16 (u ++ v) = utf32to16 u ++ utf32to16 v.
Proof.
  split.
  - induction u as [|c u1 IH]; [reflexivity|].
    cbn [app utf32to8]. now rewrite IH, app_assoc.
  - induction u as [|c u1 IH]; [reflexivity|].
    change ((c :: u1) ++ v) with (c :: (u1 ++ v)).
    rewrite (utf32to16_cons c (u1 ++ v)), (utf32to16_cons c u1).
    now rewrite IH, app_assoc.
Qed.

Lemma utf16to32_range_bounded (n : nat) :
  forall w, (length w <= n)%nat -> Forall is_wchar w ->
    Forall (fun c => 0 <= c <= 0x10FFFF) (utf16to32 w)
    /\ (length (utf16to32 w) <= length w)%nat.
Proof.
  induction n as [|n IH]; intros w Hlen Hw.
  - destruct w; [split; [constructor|apply Nat.le_refl]
                | cbn [length] in Hlen; lia].
  - destruct w as [|c w1]; [split; [constructor|apply Nat.le_refl]|].
    cbn [length] in Hlen. inversion Hw as [|? ? Hc Hw1]; subst.
    destruct (IH w1 ltac:(lia) Hw1) as [IHr IHl].
    assert (Hplain : Forall (fun c => 0 <= c <= 0x10FFFF) (c :: utf16to32 w1)
                     /\ (length (c :: utf16to32 w1) <= length (c :: w1))%nat).
    { split; [constructor; [unfold is_wchar in Hc; lia | exact IHr]
             | cbn [length]; apply le_n_S; exact IHl]. }
    cbn [utf16to32]. destruct w1 as [|d w2]; [exact Hplain|].
    destruct ((0xD800 <=? c) && (c <? 0xDC00) && (0xDC00 <=? d)
              && (d <=? 0xDFFF)) eqn:Hpair; [|exact Hplain].
    rewrite !andb_true_iff, !Z.leb_le, Z.ltb_lt in Hpair.
    rewrite pair_code_point by lia.
    inversion Hw1; subst. cbn [length] in Hlen.
    destruct (IH w2 ltac:(lia) ltac:(assumption)) as [IHr2 IHl2].
    split; [constructor; [lia | exact IHr2]
           | cbn [length]; apply le_n_S, le_S; exact IHl2].
Qed.

(** X15.  On 16-bit units [utf16to32] yields only values up to 0x10FFFF,
    and no more code points than it read units. *)
Theorem utf16to32_range (w : list wchar_t) :
  Forall is_wchar w ->
  Forall (fun c => 0 <= c <= 0x10FFFF) (utf16to32 w)
  /\ (length (utf16to32 w) <= length w)%nat.
Proof. apply (utf16to32_range_bounded (length w)). apply Nat.le_refl. Qed.

Lemma utf8to16_app_bounded (P : Platform) (p : InvalidUnicode)
      (t : list char) (n : nat) :
  (forall d, hd_error t = Some d -> utf8byte.isTrail d = false) ->
  forall s, (length s <= n)%nat ->
    utf8to16 (s ++ t) p = utf8to16 s p ++ utf8to16 t p.
Proof.
  intros Ht. induction n as [|n IH]; intros s Hlen.
  - destruct s; [reflexivity | cbn [length] in Hlen; lia].
  - destruct s as [|c1 s1]; [reflexivity|].
    cbn [length] in Hlen.
    assert (IH1 : utf8to16 (s1 ++ t) p = utf8to16 s1 p ++ utf8to16 t p)
      by (apply IH; lia).
    change ((c1 :: s1) ++ t) with (c1 :: (s1 ++ t)).
    cbn [utf8to16]. rewrite !IH1.
    destruct (utf8byte.implicit_length c1) as [|[|[|[|[|?]]]]];
      try reflexivity.
    + destruct s1 as [|c2 s2].
      * cbn [app]. destruct t as [|d t2]; [reflexivity|].
        rewrite (Ht d eq_refl). reflexivity.
      * cbn [app]. destruct (utf8byte.isTrail c2); [|reflexivity].
        cbn [negb]. cbn [length] in Hlen. rewrite IH by lia. reflexivity.
    + destruct s1 as [|c2 [|c3 s3]].
      * cbn [app]. destruct t as [|d [|d2 t3]]; try reflexivity.
        rewrite (Ht d eq_refl). reflexivity.
      * cbn [app]. destruct t as [|d t2]; [reflexivity|].
        rewrite (Ht d eq_refl). cbn [negb]. rewrite orb_true_r. reflexivity.
      * cbn [app]. cbn [length] in Hlen. rewrite (IH s3) by lia.
        destruct (negb (utf8byte.isTrail c2) || negb (utf8byte.isTrail c3));
          [reflexivity|].
        destruct (rejects_pair p c1 c2); reflexivity.
    + destruct s1 as [|c2 [|c3 [|c4 s4]]].
      * cbn [app]. destruct t as [|d [|d2 [|d3 t4]]]; try reflexivity.
        unfold utf8byte.valid_trail_4. rewrite (Ht d eq_refl).
        rewrite andb_false_r. reflexivity.
      * cbn [app]. destruct t as [|d [|d2 t3]]; try reflexivity.
        unfold utf8byte.valid_trail_4. rewrite (Ht d eq_refl).
        rewrite andb_false_r. reflexivity.
      * cbn [app]. destruct t as [|d t2]; [reflexivity|].
        unfold utf8byte.valid_trail_4. rewrite (Ht d eq_refl).
        rewrite andb_false_r. reflexivity.
      * cbn [app]. cbn [length] in Hlen. rewrite (IH s4) by lia.
        destruct (negb (utf8byte.valid_trail_4 c1 c2 c3 c4)); reflexivity.
Qed.

Lemma utf16to32_range_sample :
  Forall is_wchar [0xD83D; 0xDE00; 0xDFFF]
  /\ Forall (fun c => 0 <= c <= 0x10FFFF) (utf16to32 [0xD83D; 0xDE00; 0xDFFF])
  /\ (length (utf16to32 ([0xD83D; 0xDE00; 0xDFFF])%Z) <= 3)%nat.
Proof.
  assert (H : Forall is_wchar [0xD83D; 0xDE00; 0xDFFF])
    by (repeat constructor; unfold is_wchar; lia).
  split; [exact H | exact (utf16to32_range _ H)].
Defined.


(** X16.  [utf8to16] of a concatenation is the concatenation of the two
    results whenever the second part does not begin with a continuation
    byte, on every platform and under every policy. *)
Theorem utf8to16_app (P : Platform) (p : InvalidUnicode) (s t : list char) :
  (forall d, hd_error t = Some d -> utf8byte.isTrail d = false) ->
  utf8to16 (s ++ t) p = utf8to16 s p ++ utf8to16 t p.
Proof.
  intros Ht. apply (utf8to16_app_bounded P p t (length s) Ht).
  apply Nat.le_refl.
Qed.

Lemma utf8to16_app_sample :
  (forall d, hd_error [0x41] = Some d -> @utf8byte.isTrail MSVC d = false)
  /\ @utf8to16 MSVC ([0xE2; 0x82] ++ [0x41]) Substitute
     = @utf8to16 MSVC [0xE2; 0x82] Substitute
       ++ @utf8to16 MSVC [0x41] Substitute.
Proof.
  assert (H : forall d, hd_error [0x41] = Some d
                        -> @utf8byte.isTrail MSVC d = false)
    by (intros d Hd; injection Hd as <-; reflexivity).
  split; [exact H|].
  exact (utf8to16_app MSVC Substitute [0xE2; 0x82] [0x41] H).
Defined.


(** ** The two decoders side by side *)

Lemma to_wchar_to_char32 (x : Z) : to_wchar (to_char32 x) = to_wchar x.
Proof.
  unfold to_wchar, to_char32.
  apply Z.mod_mod_divide. exists 0x10000. reflexivity.
Qed.

Lemma to_wchar_idem (x : Z) : to_wchar (to_wchar x) = to_wchar x.
Proof. unfold to_wchar. apply Z.mod_mod. lia. Qed.

Lemma utf32to16_bmp (x : Z) (u : list char32_t) :
  x < 0x10000 -> utf32to16 (x :: u) = to_wchar x :: utf32to16 u.
Proof. intros Hx. cbn [utf32to16]. destruct (Z.leb_spec 0x10000 x); [lia|reflexivity]. Qed.

Lemma narrow_emit (x : Z) (r : option (list char32_t)) :
  x < 0x10000 ->
  option_map utf32to16 (emit x r)
  = option_map (cons (to_wchar x)) (option_map utf32to16 r).
Proof.
  intros Hx. destruct r as [u|]; [|reflexivity].
  cbn [emit option_map]. now rewrite utf32to16_bmp.
Qed.

Lemma invalid_unit_range (P : Platform) (p : InvalidUnicode) (c : Z) :
  is_char c -> 0 <= invalid_unit p c < 0x10000.
Proof.
  intros [Hlo Hhi]. unfold invalid_unit, int_of_char.
  destruct (InvalidUnicode_eqb p Preserve_8); [|lia].
  destruct (char_signed && (0x80 <=? c)); lia.
Qed.

Lemma to32_2_range (P : Platform) (c1 c2 : Z) :
  0 <= utf8byte.to32_2 c1 c2 < 0x800.
Proof.
  unfold utf8byte.to32_2.
  change 0x1F with (Z.ones 5). change 0x3F with (Z.ones 6).
  rewrite !Z.land_ones by lia.
  pose proof (Z.mod_pos_bound (int_of_char c1) (2 ^ 5) ltac:(lia)).
  pose proof (Z.mod_pos_bound (int_of_char c2) (2 ^ 6) ltac:(lia)).
  rewrite lor_shiftl_add by lia.
  rewrite to_char32_small by lia. lia.
Qed.

Lemma width_one_ascii (P : Platform) (c : Z) :
  is_char c -> utf8byte.implicit_length c = 1%nat -> 0 <= c <= 0x7F.
Proof.
  intros Hc Hw.
  assert (H : (if Nat.eqb (utf8byte.implicit_length c) 1 then c <=? 0x7F
               else true) = true)
    by (revert c Hc Hw; destruct P as [[|]]; intros c Hc _; revert c Hc;
        by_all_chars).
  rewrite Hw in H. cbn in H. apply Z.leb_le in H. unfold is_char in Hc. lia.
Qed.

Lemma decoders_agree_bounded (P : Platform) (p : InvalidUnicode) (n : nat) :
  forall s, (length s <= n)%nat -> Forall is_char s ->
    Forall (fun b => utf8byte.implicit_length b <> 4%nat) s ->
    option_map utf32to16 (utf8to32 s p) = Some (utf8to16 s p).
Proof.
  induction n as [|n IH]; intros s Hlen Hs Hw.
  - destruct s; [reflexivity | cbn [length] in Hlen; lia].
  - destruct s as [|c1 s1]; [reflexivity|].
    cbn [length] in Hlen.
    inversion Hs as [|? ? Hc1 Hs1]; subst.
    inversion Hw as [|? ? Hw1 Hws1]; subst.
    assert (IH1 : option_map utf32to16 (utf8to32 s1 p)
                  = Some (utf8to16 s1 p))
      by (apply IH; [lia | assumption | assumption]).
    assert (Hbad : option_map utf32to16
                     (emit (to_char32 (invalid_unit p c1)) (utf8to32 s1 p))
                   = Some (to_wchar (invalid_unit p c1) :: utf8to16 s1 p)).
    { pose proof (invalid_unit_range P p c1 Hc1).
      rewrite narrow_emit by (rewrite to_char32_small; lia).
      rewrite IH1, to_wchar_to_char32. reflexivity. }
    cbn [utf8to32 utf8to16].
    destruct (utf8byte.implicit_length c1) as [|[|[|[|[|?]]]]] eqn:Hlen1;
      try exact Hbad.
    + pose proof (width_one_ascii P c1 Hc1 Hlen1) as Ha.
      rewrite int_of_char_ascii by lia.
      rewrite narrow_emit by (rewrite to_char32_small; lia).
      rewrite IH1, to_wchar_to_char32. reflexivity.
    + destruct s1 as [|c2 s2]; [exact Hbad|].
      destruct (negb (utf8byte.isTrail c2)); [exact Hbad|].
      pose proof (to32_2_range P c1 c2).
      rewrite narrow_emit by lia.
      inversion Hs1; inversion Hws1; subst. cbn [length] in Hlen.
      rewrite IH by (try assumption; lia). reflexivity.
    + destruct s1 as [|c2 [|c3 s3]]; try exact Hbad.
      destruct (negb (utf8byte.isTrail c2) || negb (utf8byte.isTrail c3));
        [exact Hbad|].
      destruct (rejects_pair p c1 c2); [exact Hbad|].
      rewrite narrow_emit
        by (unfold to_wchar;
            pose proof (Z.mod_pos_bound (utf8byte.to32_3 c1 c2 c3) 0x10000
                          ltac:(lia)); lia).
      inversion Hs1 as [|? ? ? Hs2]; inversion Hws1 as [|? ? ? Hws2]; subst.
      inversion Hs2; inversion Hws2; subst. cbn [length] in Hlen.
      rewrite IH by (try assumption; lia).
      rewrite to_wchar_idem. reflexivity.
    + contradiction.
Qed.

(** X17.  On bytes none of which is classified as a four-byte lead,
    [utf8to32] has a result and [utf32to16] of it is what [utf8to16]
    returns, on every platform and under every policy. *)
Theorem decoders_agree (P : Platform) (p : InvalidUnicode) (s : list char) :
  Forall is_char s ->
  Forall (fun b => utf8byte.implicit_length b <> 4%nat) s ->
  option_map utf32to16 (utf8to32 s p) = Some (utf8to16 s p).
Proof. apply (decoders_agree_bounded P p (length s)). apply Nat.le_refl. Qed.

(** ** Output sizes *)

Lemma utf32to8_unit_length (p : InvalidUnicode) (c : char32_t) :
  (1 <= length (utf32to8_unit p c) <= 4)%nat.
Proof.
  unfold utf32to8_unit.
  repeat match goal with
         | |- context [if ?b then _ else _] => destruct b
         end; cbn [length encode_1 encode_2 encode_3 encode_4 replacement_utf8];
    lia.
Qed.

Lemma decoders_agree_sample :
  (Forall is_char [0x41; 0xFF; 0xE2; 0x82; 0xAC; 0xC3]
   /\ Forall (fun b => @utf8byte.implicit_length MSVC b <> 4%nat)
         [0x41; 0xFF; 0xE2; 0x82; 0xAC; 0xC3])
  /\ option_map utf32to16
       (@utf8to32 MSVC [0x41; 0xFF; 0xE2; 0x82; 0xAC; 0xC3] Preserve_8)
     = Some (@utf8to16 MSVC [0x41; 0xFF; 0xE2; 0x82; 0xAC; 0xC3] Preserve_8).
Proof.
  assert (Hc : Forall is_char [0x41; 0xFF; 0xE2; 0x82; 0xAC; 0xC3])
    by (repeat constructor; unfold is_char; lia).
  assert (Hw : Forall (fun b => @utf8byte.implicit_length MSVC b <> 4%nat)
                 [0x41; 0xFF; 0xE2; 0x82; 0xAC; 0xC3])
    by (repeat constructor; vm_compute; discriminate).
  split; [split; assumption|].
  exact (decoders_agree MSVC Preserve_8 _ Hc Hw).
Defined.


Lemma utf32to8_length (p : InvalidUnicode) (u : list char32_t) :
  (length u <= length (utf32to8 u p) <= 4 * length u)%nat.
Proof.
  induction u as [|c u1 IH]; [cbn; lia|].
  cbn [utf32to8]. rewrite length_app.
  pose proof (utf32to8_unit_length p c). cbn [length]. lia.
Qed.

Lemma utf32to16_length (u : list char32_t) :
  (length u <= length (utf32to16 u) <= 2 * length u)%nat.
Proof.
  induction u as [|c u1 IH]; [cbn; lia|].
  cbn [utf32to16]. destruct (0x10000 <=? c); cbn [length]; lia.
Qed.

Lemma utf16to8_lone_length (p : InvalidUnicode) (c : wchar_t) :
  (1 <= length (utf16to8_lone p c) <= 3)%nat.
Proof.
  unfold utf16to8_lone.
  repeat match goal with
         | |- context [if ?b then _ else _] => destruct b
         end; cbn [length replacement_utf8]; lia.
Qed.

Lemma utf16to8_length_bounded (p : InvalidUnicode) (n : nat) :
  forall w, (length w <= n)%nat ->
    (length (utf16to8 w p) <= 3 * length w)%nat.
Proof.
  induction n as [|n IH]; intros w Hlen.
  - destruct w; [cbn; lia | cbn [length] in Hlen; lia].
  - destruct w as [|c w1]; [cbn; lia|].
    cbn [length] in Hlen.
    pose proof (IH w1 ltac:(lia)) as IH1.
    pose proof (utf16to8_lone_length p c) as Hl.
    cbn [utf16to8].
    destruct (c <? 0x80);
      [rewrite length_app; cbn [length encode_1]; lia|].
    destruct (c <? 0x800);
      [rewrite length_app; cbn [length encode_2]; lia|].
    destruct ((c <? 0xD800) && (0xDFFF <? c));
      [rewrite length_app; cbn [length encode_3]; lia|].
    destruct w1 as [|d w2];
      [rewrite length_app; cbn [length] in *; lia|].
    cbn [length] in Hlen. pose proof (IH w2 ltac:(lia)) as IH2.
    destruct ((0xDC00 <=? d) && (d <=? 0xDFFF));
      rewrite length_app; cbn [length encode_4] in *; lia.
Qed.

Lemma utf8to16_length_bounded (P : Platform) (p : InvalidUnicode) (n : nat) :
  forall s, (length s <= n)%nat ->
    (length (utf8to16 s p) <= length s)%nat.
Proof.
  induction n as [|n IH]; intros s Hlen.
  - destruct s; [cbn; lia | cbn [length] in Hlen; lia].
  - destruct s as [|c1 s1]; [cbn; lia|].
    cbn [length] in Hlen.
    pose proof (IH s1 ltac:(lia)) as IH1.
    cbn [utf8to16].
    destruct (utf8byte.implicit_length c1) as [|[|[|[|[|?]]]]];
      try (cbn [length]; lia).
    + destruct s1 as [|c2 s2]; [cbn [length] in *; lia|].
      cbn [length] in Hlen. pose proof (IH s2 ltac:(lia)).
      destruct (negb (utf8byte.isTrail c2)); cbn [length] in *; lia.
    + destruct s1 as [|c2 [|c3 s3]]; try (cbn [length] in *; lia).
      cbn [length] in Hlen. pose proof (IH s3 ltac:(lia)).
      destruct (negb (utf8byte.isTrail c2) || negb (utf8byte.isTrail c3));
        [cbn [length] in *; lia|].
      destruct (rejects_pair p c1 c2); cbn [length] in *; lia.
    + destruct s1 as [|c2 [|c3 [|c4 s4]]]; try (cbn [length] in *; lia).
      cbn [length] in Hlen. pose proof (IH s4 ltac:(lia)).
      destruct (negb (utf8byte.valid_trail_4 c1 c2 c3 c4));
        cbn [length] in *; lia.
Qed.

Lemma utf8to32_length_bounded (P : Platform) (p : InvalidUnicode) (n : nat) :
  forall s u, (length s <= n)%nat -> utf8to32 s p = Some u ->
    (length u <= length s)%nat.
Proof.
  induction n as [|n IH]; intros s u Hlen Hu.
  - destruct s; [injection Hu as <-; cbn; lia | cbn [length] in Hlen; lia].
  - destruct s as [|c1 s1]; [injection Hu as <-; cbn; lia|].
    cbn [length] in Hlen. cbn [utf8to32] in Hu.
    assert (Hemit : forall x rest, (length rest <= n)%nat ->
              (length rest <= length s1)%nat ->
              emit x (utf8to32 rest p) = Some u ->
              (length u <= length (c1 :: s1))%nat).
    { intros x rest Hr Hr' He. unfold emit in He.
      destruct (utf8to32 rest p) as [u'|] eqn:Hu'; [|discriminate].
      injection He as <-. pose proof (IH rest u' Hr Hu').
      cbn [length]. lia. }
    assert (Hlen' : (length s1 <= n)%nat) by lia.
    destruct (utf8byte.implicit_length c1) as [|[|[|[|[|?]]]]];
      try (refine (Hemit _ _ _ _ Hu); cbn [length] in *; lia).
    + destruct s1 as [|c2 s2];
        [refine (Hemit _ _ _ _ Hu); cbn [length] in *; lia|].
      destruct (negb (utf8byte.isTrail c2));
        refine (Hemit _ _ _ _ Hu); cbn [length] in *; lia.
    + destruct s1 as [|c2 [|c3 s3]];
        try (refine (Hemit _ _ _ _ Hu); cbn [length] in *; lia).
      destruct (negb (utf8byte.isTrail c2) || negb (utf8byte.isTrail c3));
        [refine (Hemit _ _ _ _ Hu); cbn [length] in *; lia|].
      destruct (rejects_pair p c1 c2);
        refine (Hemit _ _ _ _ Hu); cbn [length] in *; lia.
    + destruct s1 as [|c2 [|c3 [|c4 s4]]]; try discriminate.
      destruct (negb (int_of_char c4 =? 0));
        refine (Hemit _ _ _ _ Hu); cbn [length] in *; lia.
Qed.

(** X18.  Output sizes: [utf8to16] and [utf8to32] return at most one
    unit per input byte, [utf16to8] at most three bytes per unit,
    [utf32to8] between one and four bytes per code point and [utf32to16]
    one or two units per code point. *)
Theorem output_sizes (P : Platform) (p : InvalidUnicode)
        (s : list char) (w : list wchar_t) (u : list char32_t) :
  (length (utf8to16 s p) <= length s)%nat
  /\ (forall u', utf8to32 s p = Some u' -> (length u' <= length s)%nat)
  /\ (length (utf16to8 w p) <= 3 * length w)%nat
  /\ (length u <= length (utf32to8 u p) <= 4 * length u)%nat
  /\ (length u <= length (utf32to16 u) <= 2 * length u)%nat.
Proof.
  split; [apply (utf8to16_length_bounded P p (length s)), Nat.le_refl|].
  split; [intros u'; apply (utf8to32_length_bounded P p (length s)), Nat.le_refl|].
  split; [apply (utf16to8_length_bounded p (length w)), Nat.le_refl|].
  split; [apply utf32to8_length | apply utf32to16_length].
Qed.

Lemma output_sizes_sample :
  @utf8to32 MSVC [0xE2; 0x82; 0xAC] Substitute = Some [0x20AC]
  /\ (length ([0x20AC])%Z <= length ([0xE2; 0x82; 0xAC])%Z)%nat
  /\ (length (utf16to8 ([0xD800])%Z Preserve_16) <= 3 * length ([0xD800])%Z)%nat.
Proof.
  assert (H : @utf8to32 MSVC [0xE2; 0x82; 0xAC] Substitute = Some [0x20AC])
    by reflexivity.
  split; [exact H|].
  destruct (output_sizes MSVC Substitute [0xE2; 0x82; 0xAC] [] [])
    as (_ & H32 & _).
  split; [exact (H32 [0x20AC] H)|].
  destruct (output_sizes MSVC Preserve_16 [] [0xD800] []) as (_ & _ & H8 & _).
  exact H8.
Defined.


(** ** The segments of the chunked adapter *)

Lemma segment_length {A : Type} (s : list A) (wp n : Z) :
  0 <= wp -> 0 <= n -> wp + n <= Z.of_nat (length s) ->
  Z.of_nat (length (segment s wp n)) = n.
Proof.
  intros Hwp Hn Hfit. unfold segment.
  rewrite firstn_length_le; [lia|]. rewrite length_skipn. lia.
Qed.

Lemma firstn_then_more {A : Type} (a b : nat) (s : list A) :
  firstn a s ++ firstn b (skipn a s) = firstn (a + b) s.
Proof.
  revert s. induction a as [|a IH]; intros s; [reflexivity|].
  destruct s as [|x s]; [now rewrite !firstn_nil|].
  cbn [Nat.add firstn skipn app]. now rewrite IH.
Qed.

Lemma firstn_segment {A : Type} (s : list A) (wp n : Z) :
  0 <= wp -> 0 <= n ->
  firstn (Z.to_nat wp) s ++ segment s wp n = firstn (Z.to_nat (wp + n)) s.
Proof.
  intros Hwp Hn. unfold segment.
  rewrite Z2Nat.inj_add by lia. apply firstn_then_more.
Qed.

Section Segments.
Variable W2M : Z -> list wchar_t -> list char.
Variable M2W : Z -> list char -> list wchar_t.

Lemma fromWide_loop_segments (L : Z) (s : list wchar_t) (cp : Z)
      (rounds : nat) :
  2 <= L ->
  forall (wp : Z) (r : list char) (calls : list (list wchar_t)),
    0 <= wp < Z.of_nat (length s) ->
    Z.of_nat (length s) - wp <= Z.of_nat rounds + L ->
    concat calls = firstn (Z.to_nat wp) s ->
    r = concat (map (W2M cp) calls) ->
    Forall (fits L) calls ->
    exists calls',
      fromWide_loop L W2M rounds s cp wp r calls
      = Some (concat (map (W2M cp) calls'), calls')
      /\ concat calls' = s /\ Forall (fits L) calls'.
Proof.
  intros HL. induction rounds as [|rounds IH];
    intros wp r calls Hwp Hfuel Hcat Hr Hfit.
  - rewrite fromWide_loop_exit by lia.
    exists (calls ++ [segment s wp (Z.of_nat (length s) - wp)]).
    rewrite map_app, !concat_app. cbn [map concat]. rewrite !app_nil_r.
    split; [now rewrite Hr|]. split.
    + rewrite Hcat, firstn_segment by lia.
      apply firstn_all2. lia.
    + apply Forall_app. split; [exact Hfit|]. constructor; [|constructor].
      unfold fits. rewrite segment_length by lia. lia.
  - destruct (Z.lt_ge_cases L (Z.of_nat (length s) - wp)) as [Hlong|Hshort].
    + destruct (nth_error s (Z.to_nat (L - 1))) as [last|] eqn:Hlast;
        [|apply nth_error_None in Hlast; lia].
      rewrite (fromWide_loop_round W2M L rounds s cp wp r calls last Hlong)
        by (unfold subscript; destruct (Z.ltb_spec (L - 1) 0);
            [lia | exact Hlast]).
      set (ss := if is_high_surrogate last then L - 1 else L).
      assert (Hss : 1 <= ss <= L) by (subst ss; destruct (is_high_surrogate last); lia).
      apply IH; try lia.
      * rewrite concat_app. cbn [concat]. rewrite app_nil_r.
        now rewrite Hcat, firstn_segment by lia.
      * rewrite map_app, concat_app. cbn [map concat]. rewrite app_nil_r.
        now rewrite Hr.
      * apply Forall_app. split; [exact Hfit|]. constructor; [|constructor].
        unfold fits. rewrite segment_length by lia. lia.
    + rewrite fromWide_loop_exit by lia.
      exists (calls ++ [segment s wp (Z.of_nat (length s) - wp)]).
      rewrite map_app, !concat_app. cbn [map concat]. rewrite !app_nil_r.
      split; [now rewrite Hr|]. split.
      * rewrite Hcat, firstn_segment by lia.
        apply firstn_all2. lia.
      * apply Forall_app. split; [exact Hfit|]. constructor; [|constructor].
        unfold fits. rewrite segment_length by lia. lia.
Qed.

(** X19.  With a per-call limit of at least 2, [fromWide] returns on
    every non-empty buffer; the segments it hands to the codec are each
    between 1 and [safeSize] units long, their concatenation is the
    buffer, and the result is the concatenation of the codec's outputs. *)
Theorem fromWide_segments (L : Z) (s : list wchar_t) (cp : Z) :
  2 <= L -> s <> [] ->
  exists calls,
    fromWide_run L W2M s cp = Some (concat (map (W2M cp) calls), calls)
    /\ concat calls = s /\ Forall (fits L) calls.
Proof.
  intros HL Hs. unfold fromWide_run.
  destruct s as [|c s']; [contradiction|].
  cbn [length Nat.eqb].
  apply (fromWide_loop_segments L (c :: s') cp (length (c :: s')) HL 0 [] []);
    try reflexivity; try constructor; cbn [length]; lia.
Qed.
End Segments.

Lemma fromWide_segments_limit_4 :
  (2 <= 4 /\ [0x41; 0x42; 0x43; 0xD83D; 0xDE00; 0x44] <> [])
  /\ exists calls,
       fromWide_run 4 (fun _ w => utf16to8 w Substitute)
         [0x41; 0x42; 0x43; 0xD83D; 0xDE00; 0x44] 0
       = Some (concat (map (fun w => utf16to8 w Substitute) calls), calls)
       /\ concat calls = [0x41; 0x42; 0x43; 0xD83D; 0xDE00; 0x44]
       /\ Forall (fits 4) calls.
Proof.
  assert (HL : 2 <= 4) by lia.
  assert (Hs : [0x41; 0x42; 0x43; 0xD83D; 0xDE00; 0x44] <> [])
    by discriminate.
  split; [split; assumption|].
  exact (fromWide_segments (fun _ w => utf16to8 w Substitute) 4 _ 0 HL Hs).
Defined.


Section ToWide.
Context {P : Platform}.
Variable M2W : Z -> list char -> list wchar_t.

Lemma first_byte_before_spec (s : list char) (n : nat) (m : Z) :
  first_byte_before s n = Some m ->
  0 <= m < Z.of_nat n
  /\ (exists c, subscript s m = Some c /\ utf8byte.isTrail c = false)
  /\ (forall k, m < k < Z.of_nat n ->
        exists c, subscript s k = Some c /\ utf8byte.isTrail c = true).
Proof.
  induction n as [|n IH]; intros H; [discriminate|].
  cbn [first_byte_before] in H.
  destruct (nth_error s n) as [c|] eqn:Hc; [|discriminate].
  destruct (Z.land (int_of_char c) 0xC0 =? 0x80) eqn:Ht.
  - destruct (IH H) as (Hm & Hcut & Hrun). split; [lia|]. split; [exact Hcut|].
    intros k Hk. destruct (Z.eq_dec k (Z.of_nat n)) as [->|Hne].
    + exists c. unfold subscript.
      destruct (Z.ltb_spec (Z.of_nat n) 0); [lia|].
      rewrite Nat2Z.id. split; [exact Hc | exact Ht].
    + apply Hrun. lia.
  - injection H as <-. split; [lia|]. split.
    + exists c. unfold subscript.
      destruct (Z.ltb_spec (Z.of_nat n) 0); [lia|].
      rewrite Nat2Z.id. split; [exact Hc | exact Ht].
    + intros k Hk. lia.
Qed.

Lemma toWide_ss_lead (L : Z) (s : list char) (ss : Z) :
  toWide_ss L s CP_UTF8 = Some ss ->
  0 <= ss <= L
  /\ (exists c, subscript s ss = Some c /\ utf8byte.isTrail c = false).
Proof.
  unfold toWide_ss. change (CP_UTF8 =? CP_UTF8) with true. cbv iota.
  destruct (subscript s L) as [c|] eqn:Hc; [|discriminate].
  assert (HL : 0 <= L)
    by (unfold subscript in Hc; destruct (Z.ltb_spec L 0); [discriminate|lia]).
  destruct (Z.land (int_of_char c) 0xC0 =? 0x80) eqn:Ht; intros H.
  - destruct (first_byte_before_spec _ _ _ H) as (Hm & Hcut & _).
    rewrite Z2Nat.id in Hm by lia.
    split; [lia | exact Hcut].
  - injection H as <-. split; [lia|].
    exists c. split; [exact Hc | exact Ht].
Qed.

(** X20.  For UTF-8 the length [ss] that [toWide] uses is at most
    [safeSize], the byte at [ss] is not a continuation byte, and all bytes
    after it up to [safeSize] are continuation bytes. *)
Theorem toWide_cut (L : Z) (s : list char) (ss : Z) :
  toWide_ss L s CP_UTF8 = Some ss ->
  0 <= ss <= L
  /\ (exists c, subscript s ss = Some c /\ utf8byte.isTrail c = false)
  /\ (forall k, ss < k <= L ->
        exists c, subscript s k = Some c /\ utf8byte.isTrail c = true).
Proof.
  unfold toWide_ss. change (CP_UTF8 =? CP_UTF8) with true. cbv iota.
  destruct (subscript s L) as [c|] eqn:Hc; [|discriminate].
  assert (HL : 0 <= L)
    by (unfold subscript in Hc; destruct (Z.ltb_spec L 0); [discriminate|lia]).
  destruct (Z.land (int_of_char c) 0xC0 =? 0x80) eqn:Ht; intros H.
  - destruct (first_byte_before_spec _ _ _ H) as (Hm & Hcut & Hrun).
    rewrite Z2Nat.id in Hm, Hrun by lia.
    split; [lia|]. split; [exact Hcut|].
    intros k Hk. destruct (Z.eq_dec k L) as [->|Hne].
    + exists c. split; [exact Hc | exact Ht].
    + apply Hrun. lia.
  - injection H as <-. split; [lia|]. split.
    + exists c. split; [exact Hc | exact Ht].
    + intros k Hk. lia.
Qed.

Lemma toWide_loop_segments (L : Z) (s : list char) (cp ss : Z)
      (rounds : nat) :
  toWide_ss L s cp = Some ss -> 1 <= ss <= L ->
  forall (wp : Z) (r : list wchar_t) (calls : list (list char)),
    0 <= wp < Z.of_nat (length s) ->
    Z.of_nat (length s) - wp <= Z.of_nat rounds + L ->
    concat calls = firstn (Z.to_nat wp) s ->
    r = concat (map (M2W cp) calls) ->
    Forall (fits L) calls ->
    exists calls',
      toWide_loop L M2W rounds s cp wp r calls
      = Some (concat (map (M2W cp) calls'), calls')
      /\ concat calls' = s /\ Forall (fits L) calls'.
Proof.
  intros Hcut Hss. induction rounds as [|rounds IH];
    intros wp r calls Hwp Hfuel Hcat Hr Hfit.
  - rewrite toWide_loop_exit by lia.
    exists (calls ++ [segment s wp (Z.of_nat (length s) - wp)]).
    rewrite map_app, !concat_app. cbn [map concat]. rewrite !app_nil_r.
    split; [now rewrite Hr|]. split.
    + rewrite Hcat, firstn_segment by lia.
      apply firstn_all2. lia.
    + apply Forall_app. split; [exact Hfit|]. constructor; [|constructor].
      unfold fits. rewrite segment_length by lia. lia.
  - destruct (Z.lt_ge_cases L (Z.of_nat (length s) - wp)) as [Hlong|Hshort].
    + rewrite (toWide_loop_round M2W L rounds s cp wp r calls ss Hlong Hcut).
      apply IH; try lia.
      * rewrite concat_app. cbn [concat]. rewrite app_nil_r.
        now rewrite Hcat, firstn_segment by lia.
      * rewrite map_app, concat_app. cbn [map concat]. rewrite app_nil_r.
        now rewrite Hr.
      * apply Forall_app. split; [exact Hfit|]. constructor; [|constructor].
        unfold fits. rewrite segment_length by lia. lia.
    + rewrite toWide_loop_exit by lia.
      exists (calls ++ [segment s wp (Z.of_nat (length s) - wp)]).
      rewrite map_app, !concat_app. cbn [map concat]. rewrite !app_nil_r.
      split; [now rewrite Hr|]. split.
      * rewrite Hcat, firstn_segment by lia.
        apply firstn_all2. lia.
      * apply Forall_app. split; [exact Hfit|]. constructor; [|constructor].
        unfold fits. rewrite segment_length by lia. lia.
Qed.

(** X21.  Whenever the cut [ss] is at least 1, [toWide] returns on a
    non-empty buffer; the segments it hands to the codec are each between
    1 and [safeSize] bytes long, their concatenation is the buffer, and
    the result is the concatenation of the codec's outputs. *)
Theorem toWide_segments (L : Z) (s : list char) (cp ss : Z) :
  s <> [] -> toWide_ss L s cp = Some ss -> 1 <= ss ->
  exists calls,
    toWide_run L M2W s cp = Some (concat (map (M2W cp) calls), calls)
    /\ concat calls = s /\ Forall (fits L) calls.
Proof.
  intros Hs Hcut Hss.
  assert (HssL : ss <= L).
  { unfold toWide_ss in Hcut. destruct (cp =? CP_UTF8) eqn:Hcp.
    - apply Z.eqb_eq in Hcp. subst cp.
      destruct (toWide_ss_lead L s ss Hcut) as (H & _). lia.
    - injection Hcut as <-. lia. }
  unfold toWide_run. destruct s as [|c s']; [contradiction|].
  cbn [length Nat.eqb].
  apply (toWide_loop_segments L (c :: s') cp ss (length (c :: s')) Hcut
           ltac:(lia) 0 [] []);
    try reflexivity; try constructor; cbn [length]; lia.
Qed.

(** X22.  For a code page other than UTF-8 and a limit of at least 1,
    [toWide] returns on every non-empty buffer, with the same properties
    of its segments. *)
Theorem toWide_other_codepage (L : Z) (s : list char) (cp : Z) :
  1 <= L -> s <> [] -> cp <> CP_UTF8 ->
  exists calls,
    toWide_run L M2W s cp = Some (concat (map (M2W cp) calls), calls)
    /\ concat calls = s /\ Forall (fits L) calls.
Proof.
  intros HL Hs Hcp.
  assert (Hcut : toWide_ss L s cp = Some L).
  { unfold toWide_ss. destruct (Z.eqb_spec cp CP_UTF8); [contradiction|].
    reflexivity. }
  unfold toWide_run. destruct s as [|c s']; [contradiction|].
  cbn [length Nat.eqb].
  apply (toWide_loop_segments L (c :: s') cp L (length (c :: s')) Hcut
           ltac:(lia) 0 [] []);
    try reflexivity; try constructor; cbn [length]; lia.
Qed.

(** X23.  Decoding with [utf8to16] the part before the cut of [toWide]
    and the part from the cut on gives, concatenated, what [utf8to16]
    gives on the whole buffer. *)
Theorem toWide_cut_decodes (L : Z) (s : list char) (ss : Z)
        (p : InvalidUnicode) :
  toWide_ss L s CP_UTF8 = Some ss ->
  utf8to16 s p
  = utf8to16 (segment s 0 ss) p ++ utf8to16 (skipn (Z.to_nat ss) s) p.
Proof.
  intros Hcut.
  destruct (toWide_ss_lead L s ss Hcut) as (Hss & c & Hc & Ht).
  unfold segment. cbn [Z.to_nat skipn].
  rewrite <- (utf8to16_app_bounded P p (skipn (Z.to_nat ss) s)
                (length (firstn (Z.to_nat ss) s))).
  - now rewrite firstn_skipn.
  - intros d Hd. unfold subscript in Hc.
    destruct (Z.ltb_spec ss 0); [lia|].
    assert (Hhd : hd_error (skipn (Z.to_nat ss) s) = nth_error s (Z.to_nat ss)).
    { clear. revert s. induction (Z.to_nat ss) as [|n IH]; intros s.
      - destruct s; reflexivity.
      - destruct s; [reflexivity|]. cbn [skipn nth_error]. apply IH. }
    rewrite Hhd, Hc in Hd. injection Hd as <-. exact Ht.
  - apply Nat.le_refl.
Qed.
End ToWide.

Lemma toWide_cut_limit_4 :
  @toWide_ss MSVC 4 [0x41; 0x42; 0xE2; 0x82; 0xAC; 0x43] CP_UTF8 = Some 2
  /\ 0 <= 2 <= 4
  /\ (exists c, subscript [0x41; 0x42; 0xE2; 0x82; 0xAC; 0x43] 2 = Some c
                /\ @utf8byte.isTrail MSVC c = false).
Proof.
  assert (H : @toWide_ss MSVC 4 [0x41; 0x42; 0xE2; 0x82; 0xAC; 0x43] CP_UTF8
              = Some 2) by reflexivity.
  split; [exact H|].
  destruct (@toWide_cut MSVC 4 _ 2 H) as (Hr & Hc & _).
  split; [exact Hr | exact Hc].
Defined.

Lemma toWide_segments_limit_4 :
  ([0x41; 0x42; 0xE2; 0x82; 0xAC; 0x43] <> []
   /\ @toWide_ss MSVC 4 [0x41; 0x42; 0xE2; 0x82; 0xAC; 0x43] CP_UTF8 = Some 2
   /\ 1 <= 2)
  /\ exists calls,
       @toWide_run MSVC 4 (fun _ s => @utf8to16 MSVC s Substitute)
         [0x41; 0x42; 0xE2; 0x82; 0xAC; 0x43] CP_UTF8
       = Some (concat (map (fun s => @utf8to16 MSVC s Substitute) calls),
               calls)
       /\ concat calls = [0x41; 0x42; 0xE2; 0x82; 0xAC; 0x43]
       /\ Forall (fits 4) calls.
Proof.
  assert (Hs : [0x41; 0x42; 0xE2; 0x82; 0xAC; 0x43] <> []) by discriminate.
  assert (H : @toWide_ss MSVC 4 [0x41; 0x42; 0xE2; 0x82; 0xAC; 0x43] CP_UTF8
              = Some 2) by reflexivity.
  assert (H1 : 1 <= 2) by lia.
  split; [repeat split; assumption|].
  exact (@toWide_segments MSVC (fun _ s => @utf8to16 MSVC s Substitute)
           4 _ CP_UTF8 2 Hs H H1).
Defined.

Lemma toWide_other_codepage_limit_4 :
  (1 <= 4 /\ [0x41; 0xE9; 0x42; 0x43; 0x44] <> [] /\ 1252 <> CP_UTF8)
  /\ exists calls,
       @toWide_run MSVC 4 (fun _ s => s) [0x41; 0xE9; 0x42; 0x43; 0x44] 1252
       = Some (concat (map (fun s => s) calls), calls)
       /\ concat calls = [0x41; 0xE9; 0x42; 0x43; 0x44]
       /\ Forall (fits 4) calls.
Proof.
  assert (HL : 1 <= 4) by lia.
  assert (Hs : [0x41; 0xE9; 0x42; 0x43; 0x44] <> []) by discriminate.
  assert (Hcp : 1252 <> CP_UTF8) by (unfold CP_UTF8; lia).
  split; [repeat split; assumption|].
  exact (@toWide_other_codepage MSVC (fun _ s => s) 4 _ 1252 HL Hs Hcp).
Defined.

Lemma toWide_cut_decodes_limit_4 :
  @toWide_ss MSVC 4 [0x41; 0x42; 0xE2; 0x82; 0xAC; 0x43] CP_UTF8 = Some 2
  /\ @utf8to16 MSVC [0x41; 0x42; 0xE2; 0x82; 0xAC; 0x43] Substitute
     = @utf8to16 MSVC (segment [0x41; 0x42; 0xE2; 0x82; 0xAC; 0x43] 0 2)
         Substitute
       ++ @utf8to16 MSVC
            (skipn (Z.to_nat 2) [0x41; 0x42; 0xE2; 0x82; 0xAC; 0x43])
            Substitute.
Proof.
  assert (H : @toWide_ss MSVC 4 [0x41; 0x42; 0xE2; 0x82; 0xAC; 0x43] CP_UTF8
              = Some 2) by reflexivity.
  split; [exact H | exact (@toWide_cut_decodes MSVC 4 _ 2 Substitute H)].
Defined.


Lemma find_at_spec (c : wchar_t) (s : list wchar_t) :
  match find_at c s with
  | None => ~ In c s
  | Some i => (i < length s)%nat /\ ~ In c (firstn i s)
              /\ s = firstn i s ++ c :: skipn (S i) s
  end.
Proof.
  induction s as [|x s IH]; [cbn; tauto|].
  cbn [find_at]. destruct (Z.eqb_spec x c) as [->|Hne].
  - cbn. split; [lia|]. split; [tauto|reflexivity].
  - destruct (find_at c s) as [i|]; cbn [option_map].
    + destruct IH as (Hi & Hno & Hs). cbn [length firstn skipn].
      split; [lia|]. split.
      * intros [H|H]; [congruence|contradiction].
      * cbn [app]. f_equal. exact Hs.
    + intros [H|H]; [congruence|contradiction].
Qed.

Lemma find_at_first (c : wchar_t) (a b : list wchar_t) :
  ~ In c a -> find_at c (a ++ c :: b) = Some (length a).
Proof.
  induction a as [|x a IH]; intros Hno.
  - cbn. now rewrite Z.eqb_refl.
  - cbn [app find_at length].
    destruct (Z.eqb_spec x c) as [->|Hne]; [exfalso; apply Hno; now left|].
    rewrite IH by (intros H; apply Hno; now right). reflexivity.
Qed.

Lemma find_at_none (c : wchar_t) (a : list wchar_t) :
  ~ In c a -> find_at c a = None.
Proof.
  intros Hno. pose proof (find_at_spec c a) as H.
  destruct (find_at c a) as [i|]; [|reflexivity].
  destruct H as (_ & _ & Hs). exfalso. apply Hno. rewrite Hs.
  apply in_or_app. right. now left.
Qed.

Lemma skipn_app_exact {A : Type} (a b : list A) (n : nat) :
  n = length a -> skipn n (a ++ b) = b.
Proof. intros ->. rewrite skipn_app, Nat.sub_diag, skipn_all. reflexivity. Qed.

Lemma firstn_app_exact {A : Type} (a b : list A) (n : nat) :
  n = length a -> firstn n (a ++ b) = a.
Proof.
  intros ->. rewrite firstn_app, Nat.sub_diag, firstn_all. cbn.
  apply app_nil_r.
Qed.

Section Parsing.
Variable types : list wchar_t.
Hypothesis types_size : Z.of_nat (length types) < npos.

(** If [types] is [done ++ name ++ BAR :: more], a search from the end of
    [done] stops at that bar. *)
Lemma wfind_bar (done name more : list wchar_t) :
  types = done ++ name ++ BAR :: more -> ~ In BAR name ->
  wfind types BAR (Z.of_nat (length done))
  = Z.of_nat (length done) + Z.of_nat (length name).
Proof.
  intros Ht Hno. unfold wfind.
  destruct (Z.ltb_spec (Z.of_nat (length types)) (Z.of_nat (length done)))
    as [Hlt|_]; [rewrite Ht, length_app in Hlt; lia|].
  rewrite Nat2Z.id. rewrite Ht at 1.
  rewrite skipn_app_exact by reflexivity.
  now rewrite find_at_first.
Qed.

Lemma wfind_end (done rest : list wchar_t) :
  types = done ++ rest -> ~ In BAR rest ->
  wfind types BAR (Z.of_nat (length done)) = npos.
Proof.
  intros Ht Hno. unfold wfind.
  destruct (Z.ltb_spec (Z.of_nat (length types)) (Z.of_nat (length done)));
    [reflexivity|].
  rewrite Nat2Z.id. rewrite Ht at 1.
  rewrite skipn_app_exact by reflexivity.
  now rewrite find_at_none.
Qed.

Lemma wsubstr_part (done part more : list wchar_t) (n : Z) :
  types = done ++ part ++ more ->
  Z.min n (Z.of_nat (length part) + Z.of_nat (length more))
  = Z.of_nat (length part) ->
  wsubstr types (Z.of_nat (length done)) n = Some part.
Proof.
  intros Ht Hn. unfold wsubstr.
  destruct (Z.ltb_spec (Z.of_nat (length types)) (Z.of_nat (length done)))
    as [Hlt|_]; [rewrite Ht, length_app in Hlt; lia|].
  rewrite Nat2Z.id. rewrite Ht at 2.
  rewrite skipn_app_exact by reflexivity.
  replace (Z.of_nat (length types) - Z.of_nat (length done))
    with (Z.of_nat (length part) + Z.of_nat (length more))
    by (rewrite Ht, !length_app; lia).
  rewrite Hn, Nat2Z.id. now rewrite firstn_app_exact.
Qed.
End Parsing.

Lemma size_t_sub_small (a b : Z) :
  0 <= b <= a -> a < 2 ^ 64 -> size_t_sub a b = a - b.
Proof. intros H Ha. unfold size_t_sub. apply Z.mod_small. lia. Qed.

Lemma filter_string_cons (n s : list wchar_t)
      (rest : list (list wchar_t * list wchar_t)) :
  rest <> [] ->
  filter_string ((n, s) :: rest) = n ++ BAR :: s ++ BAR :: filter_string rest.
Proof. intros Hr. destruct rest; [contradiction|reflexivity]. Qed.

Lemma combine_fst_snd {A B : Type} (l : list (A * B)) :
  combine (map fst l) (map snd l) = l.
Proof.
  induction l as [|[a b] l IH]; [reflexivity|].
  cbn [map combine fst snd]. now rewrite IH.
Qed.

Section Accepts.
Variable types : list wchar_t.
Hypothesis types_size : Z.of_nat (length types) < npos.

Lemma accepts_loop (pairs : list (list wchar_t * list wchar_t)) :
  pairs <> [] -> Forall filter_pair pairs ->
  forall (rounds : nat) (done : list wchar_t)
         (fsName fsSpec : list (list wchar_t)),
    types = done ++ filter_string pairs ->
    (length pairs <= rounds)%nat ->
    Z.of_nat (length fsSpec) + Z.of_nat (length pairs) <= INT_MAX ->
    SetFileTypes_loop rounds types (Z.of_nat (length done)) fsName fsSpec
    = Parsed (fsName ++ map fst pairs) (fsSpec ++ map snd pairs).
Proof.
  induction pairs as [|[n s] rest IH]; [contradiction|].
  intros _ Hok rounds done fsName fsSpec Ht Hrounds Hcount.
  assert (Hint : Z.of_nat (length fsSpec) <> INT_MAX)
    by (cbn [length] in Hcount; lia).
  inversion Hok as [|? ? [[Hn Hnb] [Hs Hsb]] Hrest]; subst x l.
  cbn [fst snd] in Hn, Hnb, Hs, Hsb.
  destruct rounds as [|rounds]; [cbn [length] in Hrounds; lia|].
  cbn [length] in Hrounds.
  assert (Hsz : Z.of_nat (length types) < 2 ^ 64 - 1) by exact types_size.
  assert (Hln : 0 < Z.of_nat (length n)) by (destruct n; [contradiction|cbn [length]; lia]).
  assert (Hls : 0 < Z.of_nat (length s)) by (destruct s; [contradiction|cbn [length]; lia]).
  remember (Z.of_nat (length done)) as p eqn:Hp.
  remember (Z.of_nat (length (done ++ n ++ [BAR]))) as q1 eqn:Hq1def.
  assert (Hq1 : q1 = p + Z.of_nat (length n) + 1)
    by (subst p q1; rewrite !length_app; cbn [length]; lia).
  cbn [SetFileTypes_loop]. cbv zeta.
  destruct rest as [|x rest'].
  - cbn [filter_string] in Ht.
    pose proof (f_equal (@length _) Ht) as Hlen.
    rewrite !length_app in Hlen. cbn [length] in Hlen.
    pose proof (wfind_bar types done n s Ht Hnb) as Hq. rewrite <- Hp in Hq.
    rewrite Hq.
    replace (p + Z.of_nat (length n) + 1) with q1 by lia.
    destruct (Z.eqb_spec (p + Z.of_nat (length n)) npos);
      [unfold npos in *; lia|].
    destruct (Z.eqb_spec p (p + Z.of_nat (length n))); [lia|].
    cbn [orb].
    rewrite size_t_sub_small by lia.
    pose proof (wsubstr_part types done n (BAR :: s)
                  (p + Z.of_nat (length n) - p) Ht
                  ltac:(cbn [length]; lia)) as Hname.
    rewrite <- Hp in Hname. rewrite Hname.
    destruct (Z.eqb_spec q1 (Z.of_nat (length types))); [lia|].
    assert (Ht' : types = (done ++ n ++ [BAR]) ++ s)
      by (rewrite Ht, <- !app_assoc; reflexivity).
    pose proof (wfind_end types (done ++ n ++ [BAR]) s Ht' Hsb) as Hr.
    rewrite <- Hq1def in Hr. rewrite Hr.
    destruct (Z.eqb_spec q1 npos); [unfold npos in *; lia|].
    pose proof (wsubstr_part types (done ++ n ++ [BAR]) s []
                  (size_t_sub npos q1)
                  ltac:(rewrite app_nil_r; exact Ht')
                  ltac:(unfold size_t_sub, npos;
                        rewrite Z.mod_small by lia; cbn [length]; lia))
      as Hspec.
    rewrite <- Hq1def in Hspec. rewrite Hspec.
    destruct (Z.eqb_spec (Z.of_nat (length fsSpec)) INT_MAX); [contradiction|].
    rewrite Z.eqb_refl. reflexivity.
  - rewrite filter_string_cons in Ht by discriminate.
    remember (filter_string (x :: rest')) as more eqn:Hmore.
    pose proof (f_equal (@length _) Ht) as Hlen.
    rewrite !length_app in Hlen. cbn [length] in Hlen.
    rewrite length_app in Hlen. cbn [length] in Hlen.
    pose proof (wfind_bar types done n (s ++ BAR :: more) Ht Hnb) as Hq.
    rewrite <- Hp in Hq. rewrite Hq.
    replace (p + Z.of_nat (length n) + 1) with q1 by lia.
    destruct (Z.eqb_spec (p + Z.of_nat (length n)) npos);
      [unfold npos in *; lia|].
    destruct (Z.eqb_spec p (p + Z.of_nat (length n))); [lia|].
    cbn [orb].
    rewrite size_t_sub_small by lia.
    pose proof (wsubstr_part types done n (BAR :: s ++ BAR :: more)
                  (p + Z.of_nat (length n) - p) Ht
                  ltac:(cbn [length]; rewrite length_app; cbn [length]; lia))
      as Hname.
    rewrite <- Hp in Hname. rewrite Hname.
    destruct (Z.eqb_spec q1 (Z.of_nat (length types))); [lia|].
    assert (Ht' : types = (done ++ n ++ [BAR]) ++ s ++ BAR :: more)
      by (rewrite Ht, <- !app_assoc; reflexivity).
    pose proof (wfind_bar types (done ++ n ++ [BAR]) s more Ht' Hsb) as Hr.
    rewrite <- Hq1def in Hr. rewrite Hr.
    destruct (Z.eqb_spec q1 (q1 + Z.of_nat (length s))); [lia|].
    rewrite size_t_sub_small by lia.
    pose proof (wsubstr_part types (done ++ n ++ [BAR]) s (BAR :: more)
                  (q1 + Z.of_nat (length s) - q1) Ht'
                  ltac:(cbn [length]; lia)) as Hspec.
    rewrite <- Hq1def in Hspec. rewrite Hspec.
    destruct (Z.eqb_spec (Z.of_nat (length fsSpec)) INT_MAX); [contradiction|].
    destruct (Z.eqb_spec (q1 + Z.of_nat (length s)) npos);
      [unfold npos in *; lia|].
    replace (q1 + Z.of_nat (length s) + 1)
      with (Z.of_nat (length (done ++ n ++ BAR :: s ++ [BAR])))
      by (rewrite Hq1; subst p; rewrite !length_app; cbn [length];
          rewrite length_app; cbn [length]; lia).
    rewrite (IH ltac:(discriminate) Hrest rounds
                (done ++ n ++ BAR :: s ++ [BAR]))
      by (try (rewrite ?length_app; cbn [length] in *; lia);
          rewrite Ht; rewrite <- !app_assoc; cbn [app];
          rewrite <- !app_assoc; reflexivity).
    cbn [map fst snd]. now rewrite <- !app_assoc.
Qed.
End Accepts.

Section Rejects.
Variable types : list wchar_t.
Hypothesis types_size : Z.of_nat (length types) < npos.
Hypothesis types_int : Z.of_nat (length types) <= INT_MAX.

Lemma wfind_cases (pos : Z) :
  0 <= pos <= Z.of_nat (length types) ->
  (wfind types BAR pos = npos /\ ~ In BAR (skipn (Z.to_nat pos) types))
  \/ (exists part more,
         skipn (Z.to_nat pos) types = part ++ BAR :: more
         /\ ~ In BAR part
         /\ wfind types BAR pos = pos + Z.of_nat (length part)).
Proof.
  intros Hpos. unfold wfind.
  destruct (Z.ltb_spec (Z.of_nat (length types)) pos); [lia|].
  pose proof (find_at_spec BAR (skipn (Z.to_nat pos) types)) as Hf.
  destruct (find_at BAR (skipn (Z.to_nat pos) types)) as [i|].
  - right. destruct Hf as (Hi & Hno & Hs).
    exists (firstn i (skipn (Z.to_nat pos) types)),
           (skipn (S i) (skipn (Z.to_nat pos) types)).
    split; [exact Hs|]. split; [exact Hno|].
    rewrite firstn_length_le by lia. reflexivity.
  - left. split; [reflexivity | exact Hf].
Qed.

Lemma wsubstr_skipn (pos n : Z) (part more : list wchar_t) :
  0 <= pos <= Z.of_nat (length types) ->
  skipn (Z.to_nat pos) types = part ++ more ->
  Z.min n (Z.of_nat (length part) + Z.of_nat (length more))
  = Z.of_nat (length part) ->
  wsubstr types pos n = Some part.
Proof.
  intros Hpos Hs Hn. unfold wsubstr.
  destruct (Z.ltb_spec (Z.of_nat (length types)) pos); [lia|].
  pose proof (f_equal (@length _) Hs) as Hlen.
  rewrite length_skipn, length_app in Hlen.
  replace (Z.of_nat (length types) - pos)
    with (Z.of_nat (length part) + Z.of_nat (length more)) by lia.
  rewrite Hn, Nat2Z.id, Hs. now rewrite firstn_app_exact.
Qed.

Lemma skipn_more (pos : Z) (part more : list wchar_t) (k : Z) :
  0 <= pos -> skipn (Z.to_nat pos) types = part ++ more ->
  k = pos + Z.of_nat (length part) ->
  skipn (Z.to_nat k) types = more.
Proof.
  intros Hpos Hs ->.
  rewrite Z2Nat.inj_add, Nat2Z.id by lia.
  rewrite Nat.add_comm, <- skipn_skipn, Hs.
  now rewrite skipn_app_exact.
Qed.

Lemma parse_loop_sound (rounds : nat) :
  forall (p : Z) (fsName fsSpec : list (list wchar_t)),
    0 <= p <= Z.of_nat (length types) ->
    Z.of_nat (length types) - p < Z.of_nat rounds ->
    Z.of_nat (length fsSpec) <= p ->
    match SetFileTypes_loop rounds types p fsName fsSpec with
    | Parsed names specs =>
      exists pairs, pairs <> [] /\ Forall filter_pair pairs
        /\ skipn (Z.to_nat p) types = filter_string pairs
        /\ names = fsName ++ map fst pairs
        /\ specs = fsSpec ++ map snd pairs
    | Rejected => True
    | OutOfRange | Overflow | NoMoreRounds => False
    end.
Proof.
  assert (Hsz : Z.of_nat (length types) < 2 ^ 64 - 1) by exact types_size.
  induction rounds as [|rounds IH]; intros p fsName fsSpec Hp Hfuel Hcount;
    [lia|].
  cbn [SetFileTypes_loop]. cbv zeta.
  destruct (wfind_cases p Hp) as [[Hq _]|(name & more & Hs & Hnb & Hq)];
    rewrite Hq; [rewrite Z.eqb_refl; exact I|].
  pose proof (f_equal (@length _) Hs) as Hlen.
  rewrite length_skipn, length_app in Hlen. cbn [length] in Hlen.
  destruct (Z.eqb_spec (p + Z.of_nat (length name)) npos);
    [unfold npos in *; lia|].
  destruct (Z.eqb_spec p (p + Z.of_nat (length name))); [exact I|].
  cbn [orb]. rewrite size_t_sub_small by lia.
  rewrite (wsubstr_skipn p _ name (BAR :: more) Hp Hs)
    by (cbn [length]; lia).
  set (q1 := p + Z.of_nat (length name) + 1).
  destruct (Z.eqb_spec q1 (Z.of_nat (length types))); [exact I|].
  assert (Hq1 : 0 <= q1 <= Z.of_nat (length types)) by (subst q1; lia).
  assert (Hs1 : skipn (Z.to_nat q1) types = more).
  { apply (skipn_more p (name ++ [BAR]) more);
      [lia | now rewrite <- app_assoc
      | subst q1; rewrite length_app; cbn [length]; lia]. }
  assert (Hname : filter_part name).
  { split; [|exact Hnb]. intros ->. cbn [length] in *. lia. }
  destruct (wfind_cases q1 Hq1) as [[Hr Hrb]|(spec & more2 & Hs2 & Hsb & Hr)];
    rewrite Hr.
  - destruct (Z.eqb_spec q1 npos); [unfold npos in *; lia|].
    rewrite Hs1 in Hrb.
    assert (Hml : Z.of_nat (length more) = Z.of_nat (length types) - q1)
      by (rewrite <- Hs1, length_skipn; lia).
    rewrite (wsubstr_skipn q1 _ more [] Hq1)
      by (rewrite ?app_nil_r; try assumption;
          unfold size_t_sub, npos; rewrite Z.mod_small by lia;
          cbn [length]; lia).
    destruct (Z.eqb_spec (Z.of_nat (length fsSpec)) INT_MAX); [lia|].
    rewrite Z.eqb_refl.
    exists [(name, more)]. split; [discriminate|]. split.
    + constructor; [|constructor]. unfold filter_pair. cbn [fst snd].
      split; [exact Hname|]. split; [|exact Hrb].
      intros ->. cbn [length] in *. lia.
    + split; [exact Hs|]. split; reflexivity.
  - assert (Hm : more = spec ++ BAR :: more2) by (now rewrite <- Hs1).
    rewrite Hm in Hlen, Hs. clear Hs1 Hm.
    rewrite length_app in Hlen. cbn [length] in Hlen.
    destruct (Z.eqb_spec q1 (q1 + Z.of_nat (length spec))); [exact I|].
    rewrite size_t_sub_small by lia.
    rewrite (wsubstr_skipn q1 _ spec (BAR :: more2) Hq1 Hs2)
      by (cbn [length]; lia).
    destruct (Z.eqb_spec (Z.of_nat (length fsSpec)) INT_MAX); [lia|].
    destruct (Z.eqb_spec (q1 + Z.of_nat (length spec)) npos);
      [unfold npos in *; lia|].
    assert (Hspec : filter_part spec).
    { split; [|exact Hsb]. intros ->. cbn [length] in *. lia. }
    set (p' := q1 + Z.of_nat (length spec) + 1).
    assert (Hp' : 0 <= p' <= Z.of_nat (length types)) by (subst p'; lia).
    assert (Hs' : skipn (Z.to_nat p') types = more2).
    { apply (skipn_more q1 (spec ++ [BAR]) more2);
        [lia | now rewrite <- app_assoc
        | subst p'; rewrite length_app; cbn [length]; lia]. }
    specialize (IH p' (fsName ++ [name]) (fsSpec ++ [spec]) Hp'
                   ltac:(subst p' q1; lia)
                   ltac:(rewrite length_app; cbn [length]; subst p' q1; lia)).
    destruct (SetFileTypes_loop rounds types p' (fsName ++ [name])
                                (fsSpec ++ [spec]));
      try exact IH.
    destruct IH as (pairs & Hne & Hok & Hfs & Hn & Hsp).
    exists ((name, spec) :: pairs). split; [discriminate|]. split.
    + constructor; [split; assumption | exact Hok].
    + split.
      * rewrite filter_string_cons by exact Hne.
        rewrite Hs. rewrite <- Hfs, Hs'. reflexivity.
      * cbn [map fst snd]. rewrite Hn, Hsp, <- !app_assoc. split; reflexivity.
Qed.
End Rejects.

Lemma wstring_data_nul_free (x : list wchar_t) :
  ~ In 0 x -> wstring_data x = x.
Proof.
  induction x as [|c x IH]; intros Hno; [reflexivity|].
  cbn [wstring_data]. destruct (Z.eqb_spec c 0) as [->|_].
  - exfalso. apply Hno. now left.
  - rewrite IH; [reflexivity|]. intros H. apply Hno. now right.
Qed.

Lemma filterspec_nul_free (pairs : list (list wchar_t * list wchar_t)) :
  Forall nul_free_pair pairs -> map filterspec pairs = pairs.
Proof.
  induction 1 as [|[n s] rest [Hn Hs] _ IH]; [reflexivity|].
  cbn [map fst snd] in *. rewrite IH. unfold filterspec. cbn [fst snd].
  now rewrite !wstring_data_nul_free by assumption.
Qed.

Lemma filter_string_length (pairs : list (list wchar_t * list wchar_t)) :
  Forall filter_pair pairs ->
  (length pairs <= length (filter_string pairs))%nat.
Proof.
  intros Hok. induction Hok as [|[n s] rest [[Hn _] _] Hrest IH];
    [cbn; lia|].
  cbn [fst] in Hn.
  assert (1 <= length n)%nat by (destruct n; [contradiction|cbn; lia]).
  destruct rest as [|x rest'].
  - cbn [filter_string length]. rewrite length_app. cbn [length]. lia.
  - rewrite filter_string_cons by discriminate.
    rewrite length_app. cbn [length]. rewrite length_app. cbn [length] in *.
    lia.
Qed.






(** ** FileDialogBase: [Show] *)

(** X26.  [Show] returns true exactly when the dialog returned 0 (S_OK).
    A result whose low word is ERROR_CANCELLED, negative or not, gives
    false and no exception; so does every positive result; the other
    negative results throw. *)
Theorem Show_outcome (ERROR_CANCELLED : Z) (hr : HRESULT) :
  ERROR_CANCELLED <> 0 ->
  (Show ERROR_CANCELLED hr = Some true <-> hr = 0)
  /\ (Show ERROR_CANCELLED hr = Some false
      <-> Z.land hr 0xFFFF = ERROR_CANCELLED \/ 0 < hr)
  /\ (Show ERROR_CANCELLED hr = None
      <-> hr < 0 /\ Z.land hr 0xFFFF <> ERROR_CANCELLED).
Proof.
  intros Hec. unfold Show, ThrowOnFail.
  assert (H0 : hr = 0 -> Z.land hr 0xFFFF <> ERROR_CANCELLED)
    by (intros ->; cbn; congruence).
  destruct (Z.eqb_spec (Z.land hr 0xFFFF) ERROR_CANCELLED) as [Hc|Hc];
    destruct (Z.ltb_spec 0 hr) as [Hpos|Hnp]; cbn [orb];
    try destruct (Z.leb_spec 0 hr) as [Hnn|Hneg];
    intuition (try discriminate; try lia; try congruence).
Qed.

Lemma Show_outcome_cancelled :
  1223 <> 0
  /\ Show 1223 (0x800704C7 - 0x100000000) = Some false
  /\ Show 1223 0 = Some true
  /\ Show 1223 (0x80004005 - 0x100000000) = None.
Proof.
  assert (H : 1223 <> 0) by lia.
  split; [exact H|].
  destruct (Show_outcome 1223 (0x800704C7 - 0x100000000) H) as (_ & Hf & _).
  destruct (Show_outcome 1223 0 H) as (Ht & _).
  destruct (Show_outcome 1223 (0x80004005 - 0x100000000) H) as (_ & _ & Hn).
  split; [apply Hf; left; reflexivity|].
  split; [apply Ht; reflexivity|].
  apply Hn. split; [lia | vm_compute; discriminate].
Defined.

(** ** utf8byte: the payload of a sequence *)

(** X27.  On a lead byte and continuation bytes of the matching width the
    three overloads of [to32] return the number the payload bits spell:
    the sign extension of a signed [char] never reaches the result. *)
Theorem to32_values (P : Platform) (b1 b2 b3 b4 : Z) :
  0x80 <= b2 <= 0xBF -> 0x80 <= b3 <= 0xBF -> 0x80 <= b4 <= 0xBF ->
  (0xC0 <= b1 <= 0xDF ->
   utf8byte.to32_2 b1 b2 = (b1 - 0xC0) * 0x40 + (b2 - 0x80))
  /\ (0xE0 <= b1 <= 0xEF ->
      utf8byte.to32_3 b1 b2 b3
      = (b1 - 0xE0) * 0x1000 + (b2 - 0x80) * 0x40 + (b3 - 0x80))
  /\ (0xF0 <= b1 <= 0xF7 ->
      utf8byte.to32_4 b1 b2 b3 b4
      = (b1 - 0xF0) * 0x40000 + (b2 - 0x80) * 0x1000 + (b3 - 0x80) * 0x40
        + (b4 - 0x80)).
Proof.
  intros H2 H3 H4. repeat split; intros H1.
  - now apply to32_2_value.
  - now apply to32_3_value.
  - now apply to32_4_value.
Qed.

Lemma to32_values_euro :
  (0x80 <= 0x82 <= 0xBF /\ 0x80 <= 0xAC <= 0xBF /\ 0x80 <= 0x80 <= 0xBF
   /\ 0xE0 <= 0xE2 <= 0xEF)
  /\ @utf8byte.to32_3 MSVC 0xE2 0x82 0xAC = 0x20AC.
Proof.
  assert (H2 : 0x80 <= 0x82 <= 0xBF) by lia.
  assert (H3 : 0x80 <= 0xAC <= 0xBF) by lia.
  assert (H4 : 0x80 <= 0x80 <= 0xBF) by lia.
  assert (H1 : 0xE0 <= 0xE2 <= 0xEF) by lia.
  split; [repeat split; lia|].
  destruct (to32_values MSVC 0xE2 0x82 0xAC 0x80 H2 H3 H4) as (_ & H & _).
  exact (H H1).
Defined.
